(** * PETRARCH event coder: a shallow embedding of the coding engine

    The development follows [petrarch.py] and [PETRreader.py].  Python
    strings are Rocq strings over ASCII, Python lists are Rocq lists, the
    module-level globals of [petrarch.py] are the fields of one state record
    that every coding routine threads explicitly, dictionaries are [gmap]s
    keyed by strings, and a raised exception is the [Raise] branch of
    [result].  Integer indices are [Z] so that Python's negative indexing is
    written out where the source can reach it. *)

From Stdlib Require Import ZArith String Ascii List Lia Bool.
From stdpp Require Import gmap strings list pretty.

Local Open Scope Z_scope.

(** ** Python primitives used by the source *)

Module Py.

(** The exceptions the modelled routines raise or let through. *)
Inductive exn : Type :=
| IndexError
| ValueError
| KeyError
| NameError
| DateError
| TypeError
| UnbalancedTree
| HasParseError
| IrregularPattern (tag : string).

Inductive result (A : Type) : Type :=
| Ok (a : A)
| Raise (e : exn).

Arguments Ok {A} a.
Arguments Raise {A} e.

(** Sequencing that propagates a raised exception; written [x ← r; k]. *)
#[export] Instance result_bind : MBind result := fun A B k r =>
  match r with
  | Ok a => k a
  | Raise e => Raise e
  end.

#[export] Instance result_ret : MRet result := fun A a => Ok a.

Definition slen (s : string) : Z := Z.of_nat (String.length s).

Definition llen {A : Type} (l : list A) : Z := Z.of_nat (length l).

(** A slice bound [i] of a sequence of length [n], as Python normalises it. *)
Definition clamp (n i : Z) : Z :=
  if i <? 0 then Z.max 0 (i + n) else Z.min i n.

(** [s[lo:hi]] *)
Definition slice (s : string) (lo hi : Z) : string :=
  let a := clamp (slen s) lo in
  let b := clamp (slen s) hi in
  substring (Z.to_nat a) (Z.to_nat (b - a)) s.

(** [s[lo:]] *)
Definition slice_from (s : string) (lo : Z) : string := slice s lo (slen s).

(** [s[:hi]] *)
Definition slice_to (s : string) (hi : Z) : string := slice s 0 hi.

(** [s[i]], a one-character string in Python, an [ascii] here. *)
Definition char_at (s : string) (i : Z) : result ascii :=
  let j := if i <? 0 then i + slen s else i in
  if (0 <=? j) && (j <? slen s) then
    match String.get (Z.to_nat j) s with
    | Some c => Ok c
    | None => Raise IndexError
    end
  else Raise IndexError.

Fixpoint find_go (sub s : string) (i : nat) : option nat :=
  if String.prefix sub s then Some i
  else match s with
       | EmptyString => None
       | String _ s' => find_go sub s' (S i)
       end.

(** [s.find(sub, start)] *)
Definition find (s sub : string) (start : Z) : Z :=
  if slen s <? start then -1
  else
    let a := Z.to_nat (clamp (slen s) start) in
    match find_go sub (substring a (String.length s - a) s) a with
    | Some i => Z.of_nat i
    | None => -1
    end.

(** [sub in s] *)
Definition contains (s sub : string) : bool := 0 <=? find s sub 0.

(** [s.partition(sep)] *)
Definition partition (s sep : string) : string * string * string :=
  let i := find s sep 0 in
  if i <? 0 then (s, "", "")
  else (slice_to s i, sep, slice_from s (i + slen sep)).

(** [s.startswith(p)] *)
Definition startswith (s p : string) : bool := String.prefix p s.

(** [c in chars] for a one-character [c]. *)
Fixpoint char_in (c : ascii) (chars : string) : bool :=
  match chars with
  | EmptyString => false
  | String d rest => Ascii.eqb c d || char_in c rest
  end.

(** White space as [str.strip()], [str.split()] and [str.isspace()] see it
    on ASCII text. *)
Definition is_space (c : ascii) : bool :=
  let n := nat_of_ascii c in
  ((9 <=? n) && (n <=? 13) || (28 <=? n) && (n <=? 32))%nat.

Fixpoint lstrip (s : string) : string :=
  match s with
  | EmptyString => EmptyString
  | String c rest => if is_space c then lstrip rest else s
  end.

Fixpoint rstrip (s : string) : string :=
  match s with
  | EmptyString => EmptyString
  | String c rest =>
      match rstrip rest with
      | EmptyString => if is_space c then EmptyString else String c EmptyString
      | r => String c r
      end
  end.

Definition strip (s : string) : string := lstrip (rstrip s).

Definition upper_char (c : ascii) : ascii :=
  let n := nat_of_ascii c in
  if ((97 <=? n) && (n <=? 122))%nat then ascii_of_nat (n - 32) else c.

(** [s.upper()] on ASCII text. *)
Fixpoint upper (s : string) : string :=
  match s with
  | EmptyString => EmptyString
  | String c rest => String (upper_char c) (upper rest)
  end.

Definition is_digit (c : ascii) : bool :=
  let n := nat_of_ascii c in ((48 <=? n) && (n <=? 57))%nat.

Definition is_alpha (c : ascii) : bool :=
  let n := nat_of_ascii c in
  ((65 <=? n) && (n <=? 90) || (97 <=? n) && (n <=? 122))%nat.

(** [s.count(c)] for a one-character [c]. *)
Fixpoint count_char (c : ascii) (s : string) : Z :=
  match s with
  | EmptyString => 0
  | String d rest => (if Ascii.eqb c d then 1 else 0) + count_char c rest
  end.

(** [s.split(c)] for a one-character separator [c]. *)
Fixpoint split_char (c : ascii) (s : string) : list string :=
  match s with
  | EmptyString => [EmptyString]
  | String d rest =>
      if Ascii.eqb c d then EmptyString :: split_char c rest
      else match split_char c rest with
           | [] => [String d EmptyString]
           | w :: ws => String d w :: ws
           end
  end.

(** [s.split()]: maximal runs of non-blank characters. *)
Fixpoint split_ws_go (cur : string) (s : string) : list string :=
  match s with
  | EmptyString => if String.eqb cur "" then [] else [cur]
  | String c rest =>
      if is_space c then
        (if String.eqb cur "" then split_ws_go "" rest
         else cur :: split_ws_go "" rest)
      else split_ws_go (cur +:+ String c EmptyString) rest
  end.

Definition split_ws (s : string) : list string := split_ws_go "" s.

(** [s.replace(old, new)] for a non-empty [old]; [fuel] bounds the number of
    characters left to scan. *)
Fixpoint replace_go (fuel : nat) (s old new : string) : string :=
  match fuel with
  | O => s
  | S fuel' =>
      if String.prefix old s then
        new +:+ replace_go fuel'
                  (substring (String.length old)
                     (String.length s - String.length old) s) old new
      else match s with
           | EmptyString => EmptyString
           | String c rest => String c (replace_go fuel' rest old new)
           end
  end.

Definition replace (s old new : string) : string :=
  replace_go (S (String.length s)) s old new.

(** [l[i]] *)
Definition nth_py {A : Type} (l : list A) (i : Z) : result A :=
  let j := if i <? 0 then i + llen l else i in
  if (0 <=? j) && (j <? llen l) then
    match l !! Z.to_nat j with
    | Some x => Ok x
    | None => Raise IndexError
    end
  else Raise IndexError.

(** [l[lo:hi]] *)
Definition lslice {A : Type} (l : list A) (lo hi : Z) : list A :=
  let a := clamp (llen l) lo in
  let b := clamp (llen l) hi in
  take (Z.to_nat (b - a)) (drop (Z.to_nat a) l).

Definition lslice_from {A : Type} (l : list A) (lo : Z) : list A :=
  lslice l lo (llen l).

Definition lslice_to {A : Type} (l : list A) (hi : Z) : list A :=
  lslice l 0 hi.

Fixpoint index_go (x : string) (l : list string) (i : nat) : option nat :=
  match l with
  | [] => None
  | y :: rest => if String.eqb x y then Some i else index_go x rest (S i)
  end.

(** [l.index(x, start)] *)
Definition index_from (l : list string) (x : string) (start : Z)
  : result Z :=
  let a := Z.to_nat (clamp (llen l) start) in
  match index_go x (drop a l) a with
  | Some i => Ok (Z.of_nat i)
  | None => Raise ValueError
  end.

(** [x in l] *)
Definition mem (x : string) (l : list string) : bool :=
  existsb (String.eqb x) l.

(** The double-quote character as a one-character string. *)
Definition dquote : string := String (ascii_of_nat 34) EmptyString.

End Py.

Import Py.

(** ** Configuration and program state

    [PETRglobals.py] is not part of the sources at hand; the options that
    the modelled routines read from it are the fields of [PETRglobals], and
    every routine is parametrised by one value of it. *)

Record PETRglobals : Type := {
  CodePrimer : string;
  RootPrimer : string;
  TextPrimer : string;
  WriteActorRoot : bool;
  WriteActorText : bool;
  RequireDyad : bool;
  NewActorLength : Z;
  CommaMin : Z;
  CommaMax : Z;
  CommaBMin : Z;
  CommaBMax : Z;
  CommaEMin : Z;
  CommaEMax : Z
}.

(** One entry of [CodedEvents]: the list [[source, target, code]], extended
    by root and text fields (each a string or [None]) when the options ask
    for them. *)
Record event : Type := {
  ev_src : string;
  ev_tar : string;
  ev_code : string;
  ev_more : list (option string)
}.

#[export] Instance event_eq_dec : EqDecision event.
Proof. solve_decision. Defined.

(** One entry of [StoryEventList]: [[SentenceID]] or an event. *)
Inductive story_item : Type :=
| StoryHeader (id : string)
| StoryEvent (e : event).

(** The module-level globals of [petrarch.py] that the modelled routines
    read or write, and the lines sent to standard output. *)
Record state : Type := {
  ParseList : list string;
  UpperSeq : list string;
  LowerSeq : list string;
  CodedEvents : list event;
  StoryEventList : list story_item;
  SentenceID : string;
  SentenceLoc : string;
  EventCode : string;
  SourceLoc : Z * bool;
  TargetLoc : Z * bool;
  IsPassive : bool;
  codelist : list string;
  stdout : list string
}.

Definition set_ParseList (v : list string) (st : state) : state :=
  {| ParseList := v; UpperSeq := UpperSeq st; LowerSeq := LowerSeq st;
     CodedEvents := CodedEvents st; StoryEventList := StoryEventList st;
     SentenceID := SentenceID st; SentenceLoc := SentenceLoc st;
     EventCode := EventCode st; SourceLoc := SourceLoc st;
     TargetLoc := TargetLoc st; IsPassive := IsPassive st;
     codelist := codelist st; stdout := stdout st |}.

Definition set_CodedEvents (v : list event) (st : state) : state :=
  {| ParseList := ParseList st; UpperSeq := UpperSeq st;
     LowerSeq := LowerSeq st;
     CodedEvents := v; StoryEventList := StoryEventList st;
     SentenceID := SentenceID st; SentenceLoc := SentenceLoc st;
     EventCode := EventCode st; SourceLoc := SourceLoc st;
     TargetLoc := TargetLoc st; IsPassive := IsPassive st;
     codelist := codelist st; stdout := stdout st |}.

Definition set_StoryEventList (v : list story_item) (st : state) : state :=
  {| ParseList := ParseList st; UpperSeq := UpperSeq st;
     LowerSeq := LowerSeq st;
     CodedEvents := CodedEvents st; StoryEventList := v;
     SentenceID := SentenceID st; SentenceLoc := SentenceLoc st;
     EventCode := EventCode st; SourceLoc := SourceLoc st;
     TargetLoc := TargetLoc st; IsPassive := IsPassive st;
     codelist := codelist st; stdout := stdout st |}.

Definition set_SentenceLoc (v : string) (st : state) : state :=
  {| ParseList := ParseList st; UpperSeq := UpperSeq st;
     LowerSeq := LowerSeq st;
     CodedEvents := CodedEvents st; StoryEventList := StoryEventList st;
     SentenceID := SentenceID st; SentenceLoc := v;
     EventCode := EventCode st; SourceLoc := SourceLoc st;
     TargetLoc := TargetLoc st; IsPassive := IsPassive st;
     codelist := codelist st; stdout := stdout st |}.

Definition set_codelist (v : list string) (st : state) : state :=
  {| ParseList := ParseList st; UpperSeq := UpperSeq st;
     LowerSeq := LowerSeq st;
     CodedEvents := CodedEvents st; StoryEventList := StoryEventList st;
     SentenceID := SentenceID st; SentenceLoc := SentenceLoc st;
     EventCode := EventCode st; SourceLoc := SourceLoc st;
     TargetLoc := TargetLoc st; IsPassive := IsPassive st;
     codelist := v; stdout := stdout st |}.

Definition set_stdout (v : list string) (st : state) : state :=
  {| ParseList := ParseList st; UpperSeq := UpperSeq st;
     LowerSeq := LowerSeq st;
     CodedEvents := CodedEvents st; StoryEventList := StoryEventList st;
     SentenceID := SentenceID st; SentenceLoc := SentenceLoc st;
     EventCode := EventCode st; SourceLoc := SourceLoc st;
     TargetLoc := TargetLoc st; IsPassive := IsPassive st;
     codelist := codelist st; stdout := v |}.

(** A routine that reads and writes the globals and may raise. *)
Definition M (A : Type) : Type := state -> result A * state.

Definition ret {A : Type} (a : A) : M A := fun st => (Ok a, st).

Definition raise {A : Type} (e : exn) : M A := fun st => (Raise e, st).

Definition bindM {A B : Type} (c : M A) (k : A -> M B) : M B :=
  fun st =>
    match c st with
    | (Ok a, st') => k a st'
    | (Raise e, st') => (Raise e, st')
    end.

Notation "'let*' x ':=' c 'in' k" := (bindM c (fun x => k))
  (at level 10, x name, c at level 100, k at level 200).

(** A computation that only reads the globals. *)
Definition lift {A : Type} (f : state -> result A) : M A :=
  fun st => (f st, st).

Definition modify (f : state -> state) : M unit := fun st => (Ok tt, f st).

(** [raise_ParseList_error]: logs and raises [HasParseError]. *)
Definition raise_ParseList_error {A : Type} (call_location_string : string)
  : M A := raise HasParseError.

Definition tab : string := String (ascii_of_nat 9) EmptyString.

(** [l[-1] += s] *)
Definition append_last (l : list string) (s : string) : list string :=
  match reverse l with
  | [] => l
  | x :: r => reverse r ++ [x +:+ s]
  end.

(** ** Event assembly: [get_loccodes] and [make_event_strings] *)

Section Coding.

Variable G : PETRglobals.

(** [get_ne_text], upper branch: the loop runs [ka] from [neloc - 2] down to
    [0]; [n] is [ka + 1]. *)
Fixpoint ne_text_upper (n : nat) (seq : list string) (acphr : string)
  : result string :=
  match n with
  | O => Ok acphr
  | S k =>
      w ← nth_py seq (Z.of_nat k);
      c ← char_at w 0;
      if Ascii.eqb c "~" then Ok acphr
      else ne_text_upper k seq (acphr +:+ " " +:+ w)
  end.

(** [get_ne_text], lower branch: [ka] grows until a close marker is met or
    the index leaves the sequence; [n] is the distance from [ka] to the end
    of the sequence, where indexing raises. *)
Fixpoint ne_text_lower (n : nat) (seq : list string) (ka : Z)
  (acphr : string) : result string :=
  w ← nth_py seq ka;
  c ← char_at w 0;
  if Ascii.eqb c "~" then Ok acphr
  else match n with
       | O => Raise IndexError
       | S n' => ne_text_lower n' seq (ka + 1) (acphr +:+ " " +:+ w)
       end.

Definition get_ne_text (neloc : Z) (isupperseq : bool) (st : state)
  : result string :=
  if isupperseq then
    acphr ← nth_py (UpperSeq st) (neloc - 1);
    ne_text_upper (Z.to_nat (neloc - 1)) (UpperSeq st) acphr
  else
    acphr ← nth_py (LowerSeq st) (neloc + 1);
    ne_text_lower (Z.to_nat (llen (LowerSeq st) - (neloc + 2)))
      (LowerSeq st) (neloc + 2) acphr.

Definition add_code (neloc : Z) (isupperseq : bool) : M unit :=
  let* acneitem :=
    lift (fun st =>
            nth_py (if isupperseq then UpperSeq st else LowerSeq st) neloc) in
  let accode := slice_from acneitem (find acneitem ">" 0 + 1) in
  let* _ :=
    (if negb (String.eqb accode "---") then
       modify (fun st => set_codelist (codelist st ++ [accode]) st)
     else if 0 <? NewActorLength G then
       let* text := lift (get_ne_text neloc isupperseq) in
       let acphr := dquote +:+ text +:+ dquote in
       let* _ :=
         modify (fun st =>
                   set_codelist
                     (codelist st ++
                      [if count_char " " acphr <? NewActorLength G
                       then acphr else accode]) st) in
       if WriteActorRoot G then
         modify (fun st =>
                   set_codelist
                     (append_last (codelist st) (RootPrimer G +:+ "---")) st)
       else ret tt
     else ret tt) in
  let* cl := lift (fun st => Ok (codelist st)) in
  if WriteActorText G && (0 <? llen cl) then
    let* text := lift (get_ne_text neloc isupperseq) in
    modify (fun st =>
              set_codelist
                (append_last (codelist st) (TextPrimer G +:+ text)) st)
  else ret tt.

(** The [(NEC] loop of [get_loccodes] over [UpperSeq]; [n] bounds the
    iterations left before [ka] falls below zero. *)
Fixpoint nec_upper (n : nat) (ka : Z) : M unit :=
  let* w := lift (fun st => nth_py (UpperSeq st) ka) in
  if contains w "~NEC" then ret tt
  else
    let* _ := (if contains w "(NE" then add_code ka true else ret tt) in
    if ka - 1 <? 0 then
      raise_ParseList_error "Bounds underflow on UpperSeq in get_loccodes()"
    else match n with
         | O => raise_ParseList_error
                  "Bounds underflow on UpperSeq in get_loccodes()"
         | S n' => nec_upper n' (ka - 1)
         end.

(** The [(NEC] loop over [LowerSeq]; [n] bounds the iterations left before
    [ka] reaches the length of the sequence. *)
Fixpoint nec_lower (n : nat) (ka : Z) : M unit :=
  let* w := lift (fun st => nth_py (LowerSeq st) ka) in
  if contains w "~NEC" then ret tt
  else
    let* _ := (if contains w "(NE" then add_code ka false else ret tt) in
    let* len := lift (fun st => Ok (llen (LowerSeq st))) in
    if len <=? ka + 1 then
      raise_ParseList_error "Bounds overflow on LowerSeq in get_loccodes()"
    else match n with
         | O => raise_ParseList_error
                  "Bounds overflow on LowerSeq in get_loccodes()"
         | S n' => nec_lower n' (ka + 1)
         end.

(** The line printed for one event in [get_loccodes]. *)
Definition event_line (id : string) (e : event) : string :=
  id +:+ tab +:+ ev_src e +:+ tab +:+ ev_tar e +:+ tab +:+ ev_code e.

Definition get_loccodes (thisloc : Z * bool) : M (list string) :=
  let* _ := modify (set_StoryEventList []) in
  let* _ := modify (set_codelist []) in
  let* _ :=
    (if thisloc.2 then
       fun st =>
         match nth_py (UpperSeq st) thisloc.1 with
         | Raise _ =>
             raise_ParseList_error
               "Initial index error on UpperSeq in get_loccodes()" st
         | Ok neitem =>
             if contains neitem "(NEC" then
               nec_upper (Z.to_nat (thisloc.1 - 1)) (thisloc.1 - 1) st
             else add_code thisloc.1 true st
         end
     else
       fun st =>
         match nth_py (LowerSeq st) thisloc.1 with
         | Raise _ =>
             raise_ParseList_error
               "Initial index error on LowerSeq in get_loccodes()" st
         | Ok neitem =>
             let st1 :=
               set_StoryEventList
                 (StoryEventList st ++ [StoryHeader (SentenceID st)] ++
                  map StoryEvent (CodedEvents st)) st in
             let st2 :=
               set_stdout
                 (stdout st1 ++ map (event_line (SentenceID st))
                                  (CodedEvents st)) st1 in
             if contains neitem "(NEC" then
               nec_lower
                 (Z.to_nat (llen (LowerSeq st) - (thisloc.1 + 1)))
                 (thisloc.1 + 1) st2
             else add_code thisloc.1 false st2
         end) in
  let* _ :=
    modify (fun st =>
              if llen (codelist st) =? 0 then set_codelist ["---"] st
              else st) in
  lift (fun st => Ok (codelist st)).

(** [extract_code_fields]: the list [[maincode, rootstrg, textstrg]]. *)
Definition extract_code_fields (fullcode : string)
  : string * option string * option string :=
  if contains fullcode (CodePrimer G) then
    let maincode := slice_to fullcode (find fullcode (CodePrimer G) 0) in
    let rootstrg :=
      if WriteActorRoot G then
        let part := partition fullcode (RootPrimer G) in
        if WriteActorText G then Some (partition part.2 (TextPrimer G)).1.1
        else Some part.2
      else None in
    let textstrg :=
      if WriteActorText G then Some (partition fullcode (TextPrimer G)).2
      else None in
    (maincode, rootstrg, textstrg)
  else (fullcode, None, None).

(** [srclist[0] = SentenceLoc + srclist[0][3:]], done when the code starts
    with the null code and a sentence location is known. *)
Definition add_location (sentenceloc : string)
  (fields : string * option string * option string)
  : string * option string * option string :=
  if String.eqb (slice fields.1.1 0 3) "---" && (0 <? slen sentenceloc) then
    (sentenceloc +:+ slice_from fields.1.1 3, fields.1.2, fields.2)
  else fields.

(** The list appended to [CodedEvents] for one pair. *)
Definition new_event (srclist tarlist : string * option string * option string)
  (codeevt : string) : event :=
  {| ev_src := srclist.1.1;
     ev_tar := tarlist.1.1;
     ev_code := codeevt;
     ev_more :=
       (if WriteActorRoot G then [srclist.1.2; tarlist.1.2] else []) ++
       (if WriteActorText G then [srclist.2; tarlist.2] else []) |}.

(** The inner loop of [make_events] over [codestar].  The local [srclist]
    is threaded through the iterations because the passive exchange assigns
    to it.  [None] is the early return that empties [CodedEvents]. *)
Fixpoint make_events_targets (sentenceloc : string) (ispassive : bool)
  (srclist : string * option string * option string)
  (codestar : list string) (codeevt : string) (coded : list event)
  : option (list event) :=
  match codestar with
  | [] => Some coded
  | thistar :: rest =>
      if contains thistar "(NEC" then None
      else
        let tarlist := extract_code_fields thistar in
        if negb (String.eqb srclist.1.1 tarlist.1.1) then
          let tarlist := add_location sentenceloc tarlist in
          let srclist' := if ispassive then tarlist else srclist in
          let tarlist' := if ispassive then srclist else tarlist in
          make_events_targets sentenceloc ispassive srclist' rest codeevt
            (coded ++ [new_event srclist' tarlist' codeevt])
        else
          make_events_targets sentenceloc ispassive srclist rest codeevt coded
  end.

(** [make_events]: the new value of [CodedEvents]. *)
Fixpoint make_events (sentenceloc : string) (ispassive : bool)
  (codessrc codestar : list string) (codeevt : string) (coded : list event)
  : list event :=
  match codessrc with
  | [] => coded
  | thissrc :: rest =>
      if contains thissrc "(NEC" then []
      else
        let srclist := add_location sentenceloc (extract_code_fields thissrc) in
        match make_events_targets sentenceloc ispassive srclist codestar
                codeevt coded with
        | None => []
        | Some coded' =>
            make_events sentenceloc ispassive rest codestar codeevt coded'
        end
  end.

(** [expand_compound_codes]: [ka] runs over the indices of the list as it
    was on entry ([n] of them are left), while the list grows in place. *)
Fixpoint expand_compound_loop (n ka : nat) (codes : list string)
  : list string :=
  match n with
  | O => codes
  | S n' =>
      let codes' :=
        match codes !! ka with
        | Some c =>
            if contains c "/" then
              take ka codes ++ split_char "/" c ++ drop (S ka) codes
            else codes
        | None => codes
        end in
      expand_compound_loop n' (S ka) codes'
  end.

Definition expand_compound_codes (codes : list string) : list string :=
  expand_compound_loop (length codes) 0 codes.

(** Removal of the null coded cases under [RequireDyad]. *)
Definition remove_null_coded (coded : list event) : list event :=
  filter (fun e => negb (String.eqb (ev_src e) "---" ||
                         String.eqb (ev_tar e) "---") = true) coded.

(** Removal of duplicates: for each position in turn, every later entry
    equal to it is deleted.  [n] bounds the positions left to visit. *)
Fixpoint remove_duplicates (n : nat) (coded : list event) : list event :=
  match n, coded with
  | S n', e :: rest =>
      e :: remove_duplicates n' (filter (fun e' => e <> e') rest)
  | _, _ => coded
  end.

Definition make_event_strings : M unit :=
  let* src := lift (fun st => Ok (SourceLoc st)) in
  let* srccodes := get_loccodes src in
  let srccodes := expand_compound_codes srccodes in
  let* tar := lift (fun st => Ok (TargetLoc st)) in
  let* tarcodes := get_loccodes tar in
  let tarcodes := expand_compound_codes tarcodes in
  let* _ := modify (set_SentenceLoc "") in
  if (llen srccodes =? 0) || (llen tarcodes =? 0) then ret tt
  else
    let* eventcode := lift (fun st => Ok (EventCode st)) in
    let* _ :=
      (if contains eventcode ":" then
         let src0 := default "" (head srccodes) in
         let tar0 := default "" (head tarcodes) in
         let tarcodes' :=
           if String.eqb src0 "---" || String.eqb tar0 "---" then
             if String.eqb tar0 "---" then srccodes else tarcodes
           else tarcodes in
         let srccodes' :=
           if String.eqb src0 "---" || String.eqb tar0 "---" then
             if String.eqb tar0 "---" then srccodes else tarcodes
           else srccodes in
         let ecodes := partition eventcode ":" in
         let* _ :=
           modify (fun st =>
                     set_CodedEvents
                       (make_events (SentenceLoc st) (IsPassive st) srccodes'
                          tarcodes' ecodes.1.1 (CodedEvents st)) st) in
         modify (fun st =>
                   set_CodedEvents
                     (make_events (SentenceLoc st) (IsPassive st) tarcodes'
                        srccodes' ecodes.2 (CodedEvents st)) st)
       else
         modify (fun st =>
                   set_CodedEvents
                     (make_events (SentenceLoc st) (IsPassive st) srccodes
                        tarcodes eventcode (CodedEvents st)) st)) in
    let* _ :=
      (if RequireDyad G then
         modify (fun st =>
                   set_CodedEvents (remove_null_coded (CodedEvents st)) st)
       else ret tt) in
    modify (fun st =>
              set_CodedEvents
                (remove_duplicates (length (CodedEvents st)) (CodedEvents st))
                st).

End Coding.

(** ** Dates: [dstr_to_ordate] *)

Definition digit_value (c : ascii) : Z := Z.of_nat (nat_of_ascii c) - 48.

(** The digits of an [int()] literal; a single underscore may separate two
    digits. *)
Fixpoint int_digits (s : string) (acc : Z) (prev_digit : bool) : option Z :=
  match s with
  | EmptyString => if prev_digit then Some acc else None
  | String c rest =>
      if is_digit c then int_digits rest (10 * acc + digit_value c) true
      else if Ascii.eqb c "_" && prev_digit then
        match rest with
        | String d _ => if is_digit d then int_digits rest acc false else None
        | EmptyString => None
        end
      else None
  end.

(** [int(s)] for a decimal literal with optional surrounding blanks and
    sign; [None] stands for [ValueError]. *)
Definition py_int (s : string) : option Z :=
  match strip s with
  | String "+" rest => int_digits rest 0 false
  | String "-" rest => Z.opp <$> int_digits rest 0 false
  | t => int_digits t 0 false
  end.

Definition int_or_DateError (s : string) : result Z :=
  match py_int s with
  | Some n => Ok n
  | None => Raise DateError
  end.

(** The largest valid day of [month] in [year]. *)
Definition last_day (year month : Z) : Z :=
  if month =? 2 then
    if year mod 400 =? 0 then 29
    else if year mod 100 =? 0 then 28
    else if year mod 4 =? 0 then 29
    else 28
  else if (month =? 4) || (month =? 6) || (month =? 9) || (month =? 11)
  then 30
  else 31.

(** The quotients are taken by [math.floor] of a true division in the
    source; on the integers a date string can produce they are exact, so
    they are integer floor divisions here. *)
Definition dstr_to_ordate (datestring : string) : result Z :=
  ymd ← (if 7 <? slen datestring then
           year ← int_or_DateError (slice_to datestring 4);
           month ← int_or_DateError (slice datestring 4 6);
           day ← int_or_DateError (slice datestring 6 8);
           Ok (year, month, day)
         else
           year ← int_or_DateError (slice_to datestring 2);
           let year := if year <=? 30 then year + 2000 else year + 1900 in
           month ← int_or_DateError (slice datestring 2 4);
           day ← int_or_DateError (slice datestring 4 6);
           Ok (year, month, day));
  let '(year, month, day) := ymd in
  if day <=? 0 then Raise DateError
  else if last_day year month <? day then Raise DateError
  else
    let adj := if month <? 3 then 1 else 0 in
    let yr := year + 4800 - adj in
    let mo := month + 12 * adj - 3 in
    let ordate := day + (153 * mo + 2) / 5 + 365 * yr in
    let ordate := ordate + (yr / 4 - yr / 100 + yr / 400 - 32045) in
    Ok (ordate - 2305813).

(** ** Actor and agent tables *)

(** A stored phrase [[code, connector, (word, connector), ...]]: the first
    word of the phrase is the dictionary key and is not stored.  [C] is an
    index into [ActorCodes] for actors and the code itself for agents. *)
Record pattern (C : Type) : Type := {
  pat_code : C;
  pat_conn : string;
  pat_words : list (string * string)
}.

Arguments pat_code {C} p.
Arguments pat_conn {C} p.
Arguments pat_words {C} p.

(** [len(patphrase)] *)
Definition pat_len {C : Type} (p : pattern C) : nat :=
  2 + length (pat_words p).

(** One element of an [ActorCodes] tuple: [[code]], [[0, ord, code]],
    [[1, ord, code]], [[2, ord1, ord2, code]], or the root phrase, a plain
    string that is appended under [WriteActorRoot]. *)
Inductive code_item : Type :=
| Plain (code : string)
| Before (ord : Z) (code : string)
| After (ord : Z) (code : string)
| Interval (ord1 ord2 : Z) (code : string)
| RootName (name : string).


Section Entities.

Variable G : PETRglobals.
Variable ActorDict : gmap string (list (pattern Z)).
Variable ActorCodes : list (list code_item).
Variable AgentDict : gmap string (list (pattern string)).
Variable SentenceOrdDate : Z.

(** The first loop of [get_actor_code]: the code of the first date
    restriction that holds, [None] when the loop ends without a [break]. *)
Fixpoint restricted_code (items : list code_item) : option string :=
  match items with
  | [] => None
  | Before ord code :: rest =>
      if SentenceOrdDate <=? ord then Some code else restricted_code rest
  | After ord code :: rest =>
      if ord <=? SentenceOrdDate then Some code else restricted_code rest
  | Interval ord1 ord2 code :: rest =>
      if (ord1 <=? SentenceOrdDate) && (SentenceOrdDate <=? ord2)
      then Some code else restricted_code rest
  | _ :: rest => restricted_code rest
  end.

(** The second loop: every item of length one overwrites [thecode]. *)
Fixpoint unrestricted_code (thecode : option string) (items : list code_item)
  : option string :=
  match items with
  | [] => thecode
  | Plain code :: rest => unrestricted_code (Some code) rest
  | RootName name :: rest =>
      if slen name =? 1 then unrestricted_code (Some name) rest
      else unrestricted_code thecode rest
  | _ :: rest => unrestricted_code thecode rest
  end.

(** [not thecode] *)
Definition falsy (thecode : option string) : bool :=
  match thecode with
  | None => true
  | Some s => String.eqb s ""
  end.

(** An index outside [ActorCodes] leaves the local [codelist] unbound, and
    the next statement raises [NameError]. *)
Definition get_actor_code (index : Z) : result string :=
  match nth_py ActorCodes index with
  | Raise _ => Raise NameError
  | Ok items =>
      let thecode :=
        match items with
        | [Plain code] => Some code
        | [RootName name] => if slen name =? 1 then Some name else None
        | _ => None
        end in
      let thecode :=
        match restricted_code items with
        | Some code => Some code
        | None => thecode
        end in
      let thecode :=
        if falsy thecode then unrestricted_code thecode items else thecode in
      match thecode with
      | None => Ok "---"
      | Some code =>
          if String.eqb code "" then Ok "---"
          else if WriteActorRoot G then
            match last items with
            | Some (RootName name) => Ok (code +:+ RootPrimer G +:+ name)
            | _ => Raise TypeError
            end
          else Ok code
      end
  end.

(** The [while] loop of [actor_phrase_match].  [pat] holds the pattern
    elements from [kpatword] on and [frag] the words from [kfrag] on. *)
Fixpoint phrase_match_loop (connector : string) (pat : list (string * string))
  (frag : list string) : bool :=
  match pat, frag with
  | [], _ => true
  | _ :: _, [] => false
  | (word, conn) :: pat', w :: frag' =>
      if String.eqb w word then
        if (length pat' <=? 1)%nat then true
        else phrase_match_loop conn pat' frag'
      else if String.eqb connector "_" then false
      else phrase_match_loop connector pat frag'
  end.

Definition actor_phrase_match {C : Type} (patphrase : pattern C)
  (phrasefrag : list string) : bool :=
  match pat_words patphrase with
  | [] => true
  | [(EmptyString, _)] => true
  | words =>
      match phrasefrag with
      | _ :: (_ :: _) as rest =>
          phrase_match_loop (pat_conn patphrase) words rest
      | _ => false
      end
  end.

(** [for index in range(len(patlist))]: the index at which the loop
    breaks. *)
Fixpoint first_match {C : Type} (index : nat) (patlist : list (pattern C))
  (phrasefrag : list string) : option (nat * pattern C) :=
  match patlist with
  | [] => None
  | p :: rest =>
      if actor_phrase_match p phrasefrag then Some (index, p)
      else first_match (S index) rest phrasefrag
  end.

(** The actor search of [check_NEphrase]; [frag] is [nephrase[kword:]]. *)
Fixpoint find_actor (frag : list string) : result string :=
  match frag with
  | [] => Ok ""
  | w :: rest =>
      actorcode ← match ActorDict !! w with
                  | Some patlist =>
                      match first_match 0 patlist frag with
                      | Some (_, p) => get_actor_code (pat_code p)
                      | None => Ok ""
                      end
                  | None => Ok ""
                  end;
      if 0 <? slen actorcode then Ok actorcode else find_actor rest
  end.

(** The agent search: one code per position of the phrase at most. *)
Fixpoint find_agents (frag : list string) : list string :=
  match frag with
  | [] => []
  | w :: rest =>
      match AgentDict !! w with
      | Some patlist =>
          match first_match 0 patlist frag with
          | Some (_, p) => pat_code p :: find_agents rest
          | None => find_agents rest
          end
      | None => find_agents rest
      end
  end.

(** The scan for an agent code already present in [actorcode], in steps of
    three characters from [ka]; [n] bounds the steps. *)
Fixpoint code_present (n : nat) (agc actorcode : string) (ka : Z) : bool :=
  match n with
  | O => false
  | S n' =>
      if ka <? slen actorcode - slen agc + 1 then
        if String.eqb agc (slice actorcode ka (ka + slen agc)) then true
        else code_present n' agc actorcode (ka + 3)
      else false
  end.

(** The loop that assembles the composite code. *)
Fixpoint assemble_code (agentlist : list string) (actorcode : string)
  : result string :=
  match agentlist with
  | [] => Ok actorcode
  | agentcode :: rest =>
      c ← char_at agentcode 0;
      let agc := if Ascii.eqb c "~" then slice_from agentcode 1
                 else slice_to agentcode (-1) in
      if code_present (S (String.length actorcode)) agc actorcode 0
      then Ok actorcode
      else if Ascii.eqb c "~" then assemble_code rest (actorcode +:+ agc)
      else assemble_code rest (agc +:+ actorcode)
  end.

(** [check_NEphrase]: [None] is the list [[False]], [Some code] the list
    [[True, code]]. *)
Definition check_NEphrase (nephrase : list string) : result (option string) :=
  actorcode ← find_actor nephrase;
  let agentlist := find_agents nephrase in
  if (llen agentlist =? 0) then
    if slen actorcode =? 0 then Ok None else Ok (Some actorcode)
  else
    let actorcode := if slen actorcode =? 0 then "---" else actorcode in
    let part := partition actorcode (RootPrimer G) in
    let actorroot := part.2 in
    let actorcode := if WriteActorRoot G then part.1.1 else actorcode in
    actorcode ← assemble_code agentlist actorcode;
    if WriteActorRoot G then
      Ok (Some (actorcode +:+ RootPrimer G +:+ actorroot))
    else Ok (Some actorcode).

End Entities.

(** ** Actor dictionary input: [read_actor_dictionary] *)

(** The loop of [make_noun_list]: break the phrase on blanks and
    underscores.  [start] grows at every turn, so the length of the phrase
    bounds the turns. *)
Fixpoint make_noun_loop (n : nat) (nounst : string) (start : Z)
  : list (string * string) :=
  match n with
  | O => []
  | S n' =>
      if start <? slen nounst then
        let maxlen := slen nounst + 1 in
        let spfind := find nounst " " start in
        let spfind := if spfind =? -1 then maxlen else spfind in
        let unfind := find nounst "_" start in
        let unfind := if unfind =? -1 then maxlen else unfind in
        if unfind <? spfind then
          (slice nounst start unfind, "_") ::
          make_noun_loop n' nounst (unfind + 1)
        else
          (slice nounst start spfind, " ") ::
          make_noun_loop n' nounst (spfind + 1)
      else []
  end.

Definition make_noun_list (nounst : string) : list (string * string) :=
  make_noun_loop (String.length nounst) nounst 0.

(** [l.sort(key=len, reverse=True)]: the sort is stable, so its result is
    the one of inserting each element in front of the first element that is
    not longer. *)
Fixpoint insert_by_len {C : Type} (p : pattern C) (l : list (pattern C))
  : list (pattern C) :=
  match l with
  | [] => [p]
  | q :: rest =>
      if (pat_len p <? pat_len q)%nat then q :: insert_by_len p rest
      else p :: q :: rest
  end.

Fixpoint sort_by_len {C : Type} (l : list (pattern C)) : list (pattern C) :=
  match l with
  | [] => []
  | p :: rest => insert_by_len p (sort_by_len rest)
  end.

(** The locals and globals of [read_actor_dictionary]. *)
Record actor_reader : Type := {
  rd_ActorDict : gmap string (list (pattern Z));
  rd_ActorCodes : list (list code_item);
  rd_codeindex : Z;
  rd_curlist : list code_item;
  rd_rootactor : option string
}.

(** The scan for the digits of a date in a [<] or [>] restriction. *)
Fixpoint skip_non_digits (n : nat) (rest : string) (ka : Z) : Z :=
  match n with
  | O => ka
  | S n' =>
      match char_at rest ka with
      | Ok c => if (ka <? slen rest) && negb (is_digit c)
                then skip_non_digits n' rest (ka + 1) else ka
      | Raise _ => ka
      end
  end.

Fixpoint skip_digits (n : nat) (rest : string) (kb : Z) : Z :=
  match n with
  | O => kb
  | S n' =>
      match char_at rest kb with
      | Ok c => if (kb <? slen rest) && is_digit c
                then skip_digits n' rest (kb + 1) else kb
      | Raise _ => kb
      end
  end.

(** A line that starts with a tab: the item it adds to [curlist], or [None]
    when the line is skipped with a warning. *)
Definition read_date_restriction (line : string) : option code_item :=
  let brack := find line "[" 0 in
  if brack <? 0 then None
  else
    let part := partition (strip (slice_from line (brack + 1))) " " in
    let code := strip part.1.1 in
    let rest := lstrip part.2 in
    if contains rest "<" || contains rest ">" then
      let ka := skip_non_digits (String.length rest) rest 1 in
      let kb := skip_digits (String.length rest) rest (ka + 6) in
      match dstr_to_ordate (slice rest ka kb) with
      | Ok ord =>
          if String.prefix "<" rest then Some (Before ord code)
          else Some (After ord code)
      | Raise _ => None
      end
    else if contains rest "-" then
      let part := partition rest "-" in
      match dstr_to_ordate (strip part.1.1) with
      | Ok ord1 =>
          match dstr_to_ordate (strip (partition part.2 "]").1.1) with
          | Ok ord2 =>
              if ord2 <? ord1 then None
              else Some (Interval ord1 ord2 code)
          | Raise _ => None
          end
      | Raise _ => None
      end
    else Some (Plain (slice_to code (find code "]" 0))).

(** Storing a phrase under its first word. *)
Definition store_phrase {C : Type} (code : C) (nounst : string)
  (dict : gmap string (list (pattern C)))
  : result (gmap string (list (pattern C))) :=
  match make_noun_list nounst with
  | [] => Raise IndexError
  | (keyword, conn) :: words =>
      let phlist :=
        {| pat_code := code; pat_conn := conn; pat_words := words |} in
      Ok (<[keyword := default [] (dict !! keyword) ++ [phlist]]> dict)
  end.

Section ActorReader.

Variable G : PETRglobals.

(** One turn of the loop of [read_actor_dictionary] for a non-empty
    [line]. *)
Definition read_actor_line (line : string) (rd : actor_reader)
  : result actor_reader :=
  if String.prefix tab line then
    match read_date_restriction line with
    | Some item =>
        Ok {| rd_ActorDict := rd_ActorDict rd;
              rd_ActorCodes := rd_ActorCodes rd;
              rd_codeindex := rd_codeindex rd;
              rd_curlist := rd_curlist rd ++ [item];
              rd_rootactor := rd_rootactor rd |}
    | None => Ok rd
    end
  else if String.prefix "+" line then
    let actor := strip (slice_from (partition line ";").1.1 1) +:+ " " in
    dict ← store_phrase (rd_codeindex rd) actor (rd_ActorDict rd);
    Ok {| rd_ActorDict := dict;
          rd_ActorCodes := rd_ActorCodes rd;
          rd_codeindex := rd_codeindex rd;
          rd_curlist := rd_curlist rd;
          rd_rootactor := rd_rootactor rd |}
  else
    stored ←
      (if 0 <? llen (rd_curlist rd) then
         curlist ← (if WriteActorRoot G then
                      match rd_rootactor rd with
                      | Some name => Ok (rd_curlist rd ++ [RootName name])
                      | None => Raise NameError
                      end
                    else Ok (rd_curlist rd));
         let codes := rd_ActorCodes rd ++ [curlist] in
         Ok (codes, llen codes, [])
       else Ok (rd_ActorCodes rd, rd_codeindex rd, rd_curlist rd));
    let '(codes, codeindex, curlist) := stored in
    let part := if contains line "[" then partition line "["
                else partition line ";" in
    let curlist :=
      if contains line "[" then
        curlist ++ [Plain (strip (partition part.2 "]").1.1)]
      else curlist in
    let actor := strip part.1.1 +:+ " " in
    dict ← store_phrase codeindex actor (rd_ActorDict rd);
    Ok {| rd_ActorDict := dict;
          rd_ActorCodes := codes;
          rd_codeindex := codeindex;
          rd_curlist := curlist;
          rd_rootactor := Some actor |}.

(** The loop over the lines that [read_FIN_line] delivers, up to the stop
    line or the end of the file. *)
Fixpoint read_actor_lines (lines : list string) (rd : actor_reader)
  : result actor_reader :=
  match lines with
  | [] => Ok rd
  | line :: rest =>
      if slen line =? 0 then Ok rd
      else if contains line "---STOP---" then Ok rd
      else rd' ← read_actor_line line rd; read_actor_lines rest rd'
  end.

(** [read_actor_dictionary]: the tables after the lines of one file have
    been read into [ActorDict] and [ActorCodes] and every list of phrases
    has been sorted. *)
Definition read_actor_dictionary (lines : list string)
  (ActorDict : gmap string (list (pattern Z)))
  (ActorCodes : list (list code_item))
  : result (gmap string (list (pattern Z)) * list (list code_item)) :=
  rd ← read_actor_lines lines
         {| rd_ActorDict := ActorDict; rd_ActorCodes := ActorCodes;
            rd_codeindex := llen ActorCodes; rd_curlist := [];
            rd_rootactor := None |};
  Ok (sort_by_len <$> rd_ActorDict rd, rd_ActorCodes rd).

End ActorReader.

(** ** The token sequence: balance check, end of [read_TreeBank],
       [check_commas] *)

(** [tok[0] == c] *)
Definition starts_with_char (c : ascii) (tok : string) : result bool :=
  c' ← char_at tok 0; Ok (Ascii.eqb c' c).

(** The counting loop of [check_balance]: [(nopen, nclose)]. *)
Fixpoint count_markers (pl : list string) (nopen nclose : Z)
  : result (Z * Z) :=
  match pl with
  | [] => Ok (nopen, nclose)
  | tok :: rest =>
      c ← char_at tok 0;
      if Ascii.eqb c "(" then count_markers rest (nopen + 1) nclose
      else if Ascii.eqb c "~" then count_markers rest nopen (nclose + 1)
      else count_markers rest nopen nclose
  end.

Definition check_balance (pl : list string) : result unit :=
  counts ← count_markers pl 0 0;
  if negb (counts.1 =? counts.2) then Raise UnbalancedTree else Ok tt.

(** The loop at the end of [read_TreeBank] that turns each [)] into the
    close marker of the phrase it ends.  The top of [opstack] is the head of
    the list; the loop stops at a [)] that finds the stack empty. *)
Fixpoint close_tags (opstack : list string) (pl : list string)
  : result (list string) :=
  match pl with
  | [] => Ok []
  | tok :: rest =>
      c ← char_at tok 0;
      if Ascii.eqb c "(" then
        rest' ← close_tags (slice_from tok 1 :: opstack) rest;
        Ok (tok :: rest')
      else if Ascii.eqb c ")" then
        match opstack with
        | [] => Ok (tok :: rest)
        | op :: opstack' =>
            rest' ← close_tags opstack' rest;
            Ok (("~" +:+ op) :: rest')
        end
      else
        rest' ← close_tags opstack rest;
        Ok (tok :: rest')
  end.

(** The open markers that [check_irregulars] collects: the first three. *)
Fixpoint first_tags (n : nat) (pl : list string) : result (list string) :=
  match n, pl with
  | O, _ => Ok []
  | _, [] => Ok []
  | S n', tok :: rest =>
      c ← char_at tok 0;
      if Ascii.eqb c "(" then
        tags ← first_tags n' rest; Ok (tok :: tags)
      else first_tags n rest
  end.

(** [check_irregulars()] without a known error: the dateline pattern. *)
Definition check_irregulars (pl : list string) : result unit :=
  taglist ← first_tags 3 pl;
  if bool_decide (taglist = ["(ROOT"; "(NE"; "(NEC"])
  then Raise (IrregularPattern "dateline")
  else Ok tt.

(** The end of [read_TreeBank], from [ParseList = fullline.split()] on: the
    final [ParseList], or the irregular pattern that skips the record. *)
Definition read_TreeBank_final (tokens : list string)
  : result (list string) :=
  pl ← close_tags [] tokens;
  _ ← check_irregulars pl;
  match check_balance pl with
  | Raise UnbalancedTree => Raise (IrregularPattern "bad_final_parse")
  | Raise e => Raise e
  | Ok _ => Ok pl
  end.

Section Commas.

Variable G : PETRglobals.

(** [count_word]; [n] bounds the turns of the loop, [ka] grows at each. *)
Fixpoint count_word_loop (n : nat) (pl : list string) (ka lochigh cwkt : Z)
  : result Z :=
  match n with
  | O => Ok cwkt
  | S n' =>
      if ka <? lochigh then
        tok ← nth_py pl ka;
        if String.eqb tok "(NE" then
          count_word_loop n' pl (ka + 2) lochigh cwkt
        else
          c ← char_at tok 0;
          let cwkt' :=
            if negb (Ascii.eqb c "(") && negb (Ascii.eqb c "~") && is_alpha c
            then cwkt + 1 else cwkt in
          count_word_loop n' pl (ka + 1) lochigh cwkt'
      else Ok cwkt
  end.

Definition count_word (pl : list string) (loclow lochigh : Z) : result Z :=
  count_word_loop (Z.to_nat (lochigh - loclow)) pl loclow lochigh 0.

(** [find_end]; [n] bounds the turns, [ka] falls at each. *)
Fixpoint find_end_loop (n : nat) (pl : list string) (ka : Z) : result Z :=
  match n with
  | O => Ok (ka - 1)
  | S n' =>
      if 2 <=? ka then
        tok ← nth_py pl ka;
        c ← char_at tok 0;
        if Ascii.eqb c "~" then find_end_loop n' pl (ka - 1)
        else Ok (ka - 1)
      else Ok (ka - 1)
  end.

Definition find_end (pl : list string) : result Z :=
  find_end_loop (length pl) pl (llen pl - 1).

(** [delete_phrases]; the top of [stack] is the head of the list, [n]
    bounds the turns, [ka] falls at each. *)
Fixpoint delete_phrases_loop (n : nat) (pl stack : list string)
  (ka loclow : Z) : result (list string) :=
  match n with
  | O => Ok pl
  | S n' =>
      if loclow <=? ka then
        tok ← nth_py pl ka;
        c ← char_at tok 0;
        if Ascii.eqb c "~" then
          delete_phrases_loop n' pl (slice_from tok 1 :: stack) (ka - 1)
            loclow
        else
          match stack with
          | top :: stack' =>
              if Ascii.eqb c "(" && String.eqb (slice_from tok 1) top then
                let targ := "~" +:+ slice_from tok 1 in
                kt ← index_from pl targ (ka + 1);
                delete_phrases_loop n'
                  (lslice_to pl ka ++ lslice_from pl (kt + 1)) stack'
                  (ka - 1) loclow
              else delete_phrases_loop n' pl stack (ka - 1) loclow
          | [] => delete_phrases_loop n' pl stack (ka - 1) loclow
          end
      else Ok pl
  end.

Definition delete_phrases (pl : list string) (loclow lochigh : Z)
  : result (list string) :=
  delete_phrases_loop (Z.to_nat (lochigh - loclow)) pl [] (lochigh - 1) loclow.

(** The reverse search for a comma tag from [ka] down to [2]. *)
Fixpoint comma_before (n : nat) (pl : list string) (ka : Z) : result Z :=
  match n with
  | O => Ok ka
  | S n' =>
      if 2 <=? ka then
        tok ← nth_py pl ka;
        if negb (String.eqb tok "(,") then comma_before n' pl (ka - 1)
        else Ok ka
      else Ok ka
  end.

(** The elision of intermediate clauses; [n] bounds the turns of the
    [while True] loop, in which [ka] grows. *)
Fixpoint inner_commas (n : nat) (pl : list string) (ka : Z)
  : result (list string) :=
  match n with
  | O => Ok pl
  | S n' =>
      match index_from pl "(," (ka + 1) with
      | Raise _ => Ok pl
      | Ok kb =>
          kount ← count_word pl (ka + 2) kb;
          pl' ← (if (CommaMin G <=? kount) && (kount <=? CommaMax G)
                 then delete_phrases pl ka kb else Ok pl);
          inner_commas n' pl' kb
      end
  end.

(** [check_commas]: the new [ParseList]. *)
Definition check_commas (pl : list string) : result (list string) :=
  if negb (mem "(," pl) then Ok pl
  else
    pl ← (if negb (CommaBMax G =? 0) then
            kc ← index_from pl "(," 0;
            kount ← count_word pl 2 kc;
            if (CommaBMin G <=? kount) && (kount <=? CommaBMax G) then
              kc ← index_from pl "(," 0;
              delete_phrases pl 2 kc
            else Ok pl
          else Ok pl);
    pl ← (if negb (CommaEMax G =? 0) then
            kend ← find_end pl;
            ka ← comma_before (length pl) pl (kend - 1);
            tok ← nth_py pl ka;
            if String.eqb tok "(," then
              kount ← count_word pl ka (llen pl);
              if (CommaEMin G <=? kount) && (kount <=? CommaEMax G) then
                delete_phrases pl (ka + 3) kend
              else Ok pl
            else Ok pl
          else Ok pl);
    pl ← (if negb (CommaMax G =? 0) then
            ka ← index_from pl "(," 0;
            inner_commas (length pl) pl ka
          else Ok pl);
    ka ← index_from pl "(," 0;
    kount ← count_word pl 2 ka;
    let pl := if kount =? 0 then lslice_to pl ka ++ lslice_from pl (ka + 3)
              else pl in
    kend ← find_end pl;
    ka ← comma_before (length pl) pl (kend - 1);
    tok ← nth_py pl ka;
    pl ← (if String.eqb tok "(," then
            kount ← count_word pl (ka + 1) kend;
            if kount =? 0 then
              Ok (lslice_to pl ka ++ lslice_from pl (ka + 3))
            else Ok pl
          else Ok pl);
    match check_balance pl with
    | Raise UnbalancedTree => Raise HasParseError
    | Raise e => Raise e
    | Ok _ => Ok pl
    end.

End Commas.

(** The way of a sentence from the split line to the entity resolver:
    [read_TreeBank] ends, then [code_record] runs [check_commas] before
    [assign_NEcodes]. *)
Definition normalize_and_elide (G : PETRglobals) (tokens : list string)
  : result (list string) :=
  pl ← read_TreeBank_final tokens;
  match check_commas G pl with
  | Raise IndexError => Raise HasParseError
  | r => r
  end.

(** ** Discard phrases: [check_discards] *)

(** One of the two loops over [DiscardList]: [plus] selects the targets
    that start with [+].  The result is the target at which the loop
    returns, if it does. *)
Fixpoint discard_scan (plus : bool) (sent : string) (targets : list string)
  : result (option string) :=
  match targets with
  | [] => Ok None
  | target :: rest =>
      c0 ← char_at target 0;
      if Bool.eqb (Ascii.eqb c0 "+") plus then
        let mtarg := if plus then slice_from target 1 else target in
        clast ← char_at target (-1);
        let mtarg := if Ascii.eqb clast "_" then slice_to mtarg (-1)
                     else mtarg in
        let loc := find sent mtarg 0 in
        if 0 <=? loc then
          if Ascii.eqb clast "_" then
            c ← char_at sent (loc + slen mtarg);
            if char_in c " .!?" then Ok (Some target)
            else discard_scan plus sent rest
          else Ok (Some target)
        else discard_scan plus sent rest
      else discard_scan plus sent rest
  end.

(** [check_discards]: the list [[indic, match]]. *)
Definition check_discards (SentenceText : string) (DiscardList : list string)
  : result (Z * string) :=
  let sent := upper SentenceText in
  story ← discard_scan true sent DiscardList;
  match story with
  | Some target => Ok (2, target)
  | None =>
      sentence ← discard_scan false sent DiscardList;
      match sentence with
      | Some target => Ok (1, target)
      | None => Ok (0, "")
      end
  end.

(** ** Verb dictionary input: [read_verb_dictionary] *)

(** One element of a list stored in [VerbDict].  A verb entry is
    [[True, code, multi..., pattern...]], a verb form is
    [[False, code, theverb]] and a synonym set is a list of strings; a
    multi-word entry is [[code, theverb, (atstart, word, ...)]] and a
    pattern is [[highpat, lowpat, code]]. *)
Inductive velem : Type :=
| VBool (b : bool)
| VStr (s : string)
| VMulti (loccode theverb : string) (atstart : bool) (words : list string)
| VPat (highpat lowpat : list string) (code : string).

(** The globals and locals of [read_verb_dictionary], and the warnings it
    logged.  [rd_synset] is set while the loop that reads the members of a
    synonym set is running: it holds the name of the set and [noplural]. *)
Record verb_reader : Type := {
  rd_VerbDict : gmap string (list velem);
  rd_theverb : string;
  rd_newblock : bool;
  rd_primarycode : option string;
  rd_synset : option (string * bool);
  rd_log : list string
}.

Definition set_VerbDict (d : gmap string (list velem)) (rd : verb_reader)
  : verb_reader :=
  {| rd_VerbDict := d; rd_theverb := rd_theverb rd;
     rd_newblock := rd_newblock rd; rd_primarycode := rd_primarycode rd;
     rd_synset := rd_synset rd; rd_log := rd_log rd |}.

Definition log_warning (msg : string) (rd : verb_reader) : verb_reader :=
  {| rd_VerbDict := rd_VerbDict rd; rd_theverb := rd_theverb rd;
     rd_newblock := rd_newblock rd; rd_primarycode := rd_primarycode rd;
     rd_synset := rd_synset rd; rd_log := rd_log rd ++ [msg] |}.

(** The words and connectors of a pattern phrase, in turn.  The splitting
    loop is the one of [make_noun_list]. *)
Definition phrase_words (thepat : string) : list string :=
  flat_map (fun wc => [wc.1; wc.2]) (make_noun_list thepat).

(** The check for missing synonym sets, over the words at even positions:
    the first word that names a set absent from [VerbDict]. *)
Fixpoint missing_synset (dict : gmap string (list velem))
  (phlist : list string) : option string :=
  match phlist with
  | [] => None
  | word :: rest =>
      if String.prefix "&" word && negb (bool_decide (is_Some (dict !! word)))
      then Some word
      else match rest with
           | [] => None
           | _ :: rest' => missing_synset dict rest'
           end
  end.

(** [make_phrase_list]: the phrase list, or the name of the undefined set
    for which it logs a warning and raises [ValueError]. *)
Definition make_phrase_list (dict : gmap string (list velem))
  (thepat : string) : string + list string :=
  if slen thepat =? 0 then inr []
  else
    let phlist := phrase_words thepat in
    match missing_synset dict phlist with
    | Some word => inl word
    | None => inr phlist
    end.

Definition synset_warning (word : string) : string :=
  "Synset " +:+ word +:+ " has not been defined; pattern skipped".

(** [make_plural] *)
Definition make_plural (st : string) : result string :=
  c ← char_at st (-1);
  if Ascii.eqb c "Y" then Ok (slice_to st (-1) +:+ "IES")
  else if Ascii.eqb c "S" then Ok (slice_to st (-1) +:+ "ES")
  else Ok (st +:+ "S").

(** The forms between braces, [verb[verb.find('{') + 1:verb.find('}')]]. *)
Definition braced_forms (verb : string) : list string :=
  split_ws (slice verb (find verb "{" 0 + 1) (find verb "}" 0)).

(** [get_verb_forms] *)
Definition get_verb_forms (verb theverb loccode : string)
  (dict : gmap string (list velem)) : gmap string (list velem) :=
  foldl (fun d wrd => <[wrd +:+ " " := [VBool false; VStr loccode;
                                         VStr theverb]]> d)
    dict (braced_forms verb).

(** [l.insert(2, x)] *)
Definition insert_at_2 {A : Type} (x : A) (l : list A) : list A :=
  take 2 l ++ x :: drop 2 l.

(** The body of the loop of [store_multi_word_verb] for one phrase. *)
Definition store_multi_phrase (theverb loccode phrase : string)
  (dict : gmap string (list velem)) : gmap string (list velem) :=
  if contains phrase "+" then
    let words := split_char "_" phrase in
    let first := default "" (head words) in
    let atstart := String.prefix "+" first in
    let multilist := if atstart then drop 1 words
                     else drop 1 (reverse words) in
    let targverb :=
      (if atstart then slice_from first 1
       else slice_from (default "" (last words)) 1) +:+ " " in
    let entry := VMulti loccode theverb atstart multilist in
    match dict !! targverb with
    | Some l => <[targverb := insert_at_2 entry l]> dict
    | None => <[targverb := [VBool true; VStr "---"; entry]]> dict
    end
  else dict.

Definition store_multi_word_verb (verb theverb loccode : string)
  (dict : gmap string (list velem)) : gmap string (list velem) :=
  let forms :=
    if contains verb "{" then
      braced_forms verb ++ [strip (slice_to verb (find verb "{" 0))]
    else [verb] in
  foldl (fun d phrase => store_multi_phrase theverb loccode phrase d)
    dict forms.

(** [make_verb_forms] *)
Definition make_verb_forms (verb theverb loccode : string)
  (dict : gmap string (list velem)) : result (gmap string (list velem)) :=
  let vroot := slice_to verb (-1) in
  let form := [VBool false; VStr loccode; VStr theverb] in
  let dict := <[vroot +:+ "S " := form]> dict in
  c ← char_at vroot (-1);
  if Ascii.eqb c "E" then
    Ok (<[slice_to vroot (-1) +:+ "ING " := form]>
          (<[vroot +:+ "D " := form]> dict))
  else
    Ok (<[vroot +:+ "ING " := form]> (<[vroot +:+ "ED " := form]> dict)).

(** A pattern line: the [try] block with its [except ValueError].  [verb]
    has had [_ ] replaced by a blank. *)
Definition read_pattern (verb code : string) (rd : verb_reader)
  : result verb_reader :=
  let targ := partition (slice_from verb 1) "*" in
  match make_phrase_list (rd_VerbDict rd) (lstrip targ.1.1) with
  | inl word => Ok (log_warning (synset_warning word) rd)
  | inr highpat =>
      let highpat := reverse highpat in
      let lowphrase := rstrip targ.2 in
      let lowpat :=
        if slen lowphrase =? 0 then inr []
        else
          match make_phrase_list (rd_VerbDict rd) (slice_from lowphrase 1)
          with
          | inl word => inl word
          | inr loclist => inr (slice_to targ.2 1 :: lslice_to loclist (-1))
          end in
      match lowpat with
      | inl word => Ok (log_warning (synset_warning word) rd)
      | inr lowpat =>
          match rd_VerbDict rd !! rd_theverb rd with
          | Some l =>
              Ok (set_VerbDict
                    (<[rd_theverb rd := l ++ [VPat highpat lowpat code]]>
                       (rd_VerbDict rd)) rd)
          | None => Raise KeyError
          end
      end
  end.

(** A member line of a synonym set, [line[0] == '+']. *)
Definition read_synset_member (set : string) (noplural : bool)
  (line : string) (rd : verb_reader) : result verb_reader :=
  let wordstr := strip (slice_from line 1) in
  single ← (if noplural then Ok true
            else c ← char_at wordstr (-1); Ok (Ascii.eqb c "_"));
  match rd_VerbDict rd !! set with
  | None => Raise KeyError
  | Some l =>
      if (single : bool) then
        Ok (set_VerbDict
              (<[set := l ++ [VStr (replace (strip wordstr) "_" " ")]]>
                 (rd_VerbDict rd)) rd)
      else
        let wordstr := replace wordstr "_" " " in
        plural ← make_plural wordstr;
        Ok (set_VerbDict
              (<[set := l ++ [VStr wordstr; VStr plural]]> (rd_VerbDict rd))
              rd)
  end.

(** The locals [verb] and [code] that the main loop takes from a line. *)
Definition line_verb (line : string) : string :=
  if contains line "[" then strip (partition line "[").1.1 +:+ " "
  else strip line +:+ " ".

Definition line_code (line : string) : string :=
  if contains line "[" then
    let after := (partition line "[").2 in
    slice_to after (find after "]" 0)
  else "".

(** One turn of the main loop for a non-empty [line]. *)
Definition read_verb_line (line : string) (rd : verb_reader)
  : result verb_reader :=
  let verb := line_verb line in
  let code := line_code line in
  if String.prefix "---" verb then
    Ok {| rd_VerbDict := rd_VerbDict rd; rd_theverb := rd_theverb rd;
          rd_newblock := true;
          rd_primarycode := Some (if 0 <? slen code then code else "---");
          rd_synset := None; rd_log := rd_log rd |}
  else if String.prefix "-" verb then
    if contains verb "{" then Ok rd
    else read_pattern (replace verb "_ " " ") code rd
  else if String.prefix "&" verb then
    c ← char_at verb (-2);
    let noplural := Ascii.eqb c "_" in
    let set := if noplural then slice_to verb (-2) else slice_to verb (-1) in
    Ok {| rd_VerbDict := <[set := []]> (rd_VerbDict rd);
          rd_theverb := rd_theverb rd; rd_newblock := rd_newblock rd;
          rd_primarycode := rd_primarycode rd;
          rd_synset := Some (set, noplural); rd_log := rd_log rd |}
  else
    curcode ← (if 0 <? slen code then Ok code
               else match rd_primarycode rd with
                    | Some c => Ok c
                    | None => Raise NameError
                    end);
    let theverb :=
      if rd_newblock rd then
        if contains verb "{" then
          strip (slice_to verb (find verb "{" 0)) +:+ " "
        else verb
      else rd_theverb rd in
    let dict :=
      if rd_newblock rd then
        <[theverb := [VBool true; VStr curcode]]> (rd_VerbDict rd)
      else rd_VerbDict rd in
    dict ← (if contains verb "_" then
              Ok (store_multi_word_verb verb theverb curcode dict)
            else if contains verb "{" then
              Ok (get_verb_forms verb theverb curcode dict)
            else make_verb_forms verb theverb curcode dict);
    Ok {| rd_VerbDict := dict; rd_theverb := theverb; rd_newblock := false;
          rd_primarycode := rd_primarycode rd; rd_synset := None;
          rd_log := rd_log rd |}.

(** The loops over the lines that [read_FIN_line] delivers.  After the
    head line of a synonym set the inner loop takes the lines that start
    with [+]; it indexes the line it is given, so the end of the file there
    raises [IndexError]. *)
Fixpoint read_verb_lines (lines : list string) (rd : verb_reader)
  : result verb_reader :=
  match lines with
  | [] =>
      match rd_synset rd with
      | Some _ => Raise IndexError
      | None => Ok rd
      end
  | line :: rest =>
      match rd_synset rd with
      | Some (set, noplural) =>
          if slen line =? 0 then Raise IndexError
          else if String.prefix "+" line then
            rd' ← read_synset_member set noplural line rd;
            read_verb_lines rest rd'
          else
            rd' ← read_verb_line line
                    {| rd_VerbDict := rd_VerbDict rd;
                       rd_theverb := rd_theverb rd;
                       rd_newblock := rd_newblock rd;
                       rd_primarycode := rd_primarycode rd;
                       rd_synset := None; rd_log := rd_log rd |};
            read_verb_lines rest rd'
      | None =>
          if slen line =? 0 then Ok rd
          else rd' ← read_verb_line line rd; read_verb_lines rest rd'
      end
  end.

(** [read_verb_dictionary], from the lines of the file to [VerbDict] and
    the warnings. *)
Definition read_verb_dictionary (lines : list string)
  (VerbDict : gmap string (list velem)) : result verb_reader :=
  read_verb_lines lines
    {| rd_VerbDict := VerbDict; rd_theverb := ""; rd_newblock := false;
       rd_primarycode := None; rd_synset := None; rd_log := [] |}.

(** ** Predicates used in the statements *)

(** An event whose source and target codes differ. *)
Definition distinct_ends (e : event) : Prop := ev_src e <> ev_tar e.

(** The globals that a routine leaves as they were; [codelist],
    [StoryEventList] and the output are not among them. *)
Definition same_inputs (st st' : state) : Prop :=
  ParseList st' = ParseList st /\ UpperSeq st' = UpperSeq st /\
  LowerSeq st' = LowerSeq st /\ CodedEvents st' = CodedEvents st /\
  SentenceID st' = SentenceID st /\ SentenceLoc st' = SentenceLoc st /\
  EventCode st' = EventCode st /\ SourceLoc st' = SourceLoc st /\
  TargetLoc st' = TargetLoc st /\ IsPassive st' = IsPassive st.

Definition keeps {A : Type} (c : M A) : Prop :=
  forall st, same_inputs st (c st).2.

(** A token sequence in which every open marker [(L] is closed by a later
    [~L] with the same label and the phrases nest; [stack] holds the labels
    that are open, innermost first. *)
Fixpoint well_nested (stack : list string) (pl : list string) : bool :=
  match pl with
  | [] => match stack with [] => true | _ :: _ => false end
  | EmptyString :: rest => well_nested stack rest
  | String c label :: rest =>
      if Ascii.eqb c "(" then well_nested (label :: stack) rest
      else if Ascii.eqb c "~" then
        match stack with
        | top :: stack' => String.eqb label top && well_nested stack' rest
        | [] => false
        end
      else well_nested stack rest
  end.









(** A code as the dictionaries hold it: no compound separator, no compound
    marker, and no primer that would start a root or text field. *)
Definition plain_code (G : PETRglobals) (c : string) : Prop :=
  contains c "/" = false /\ contains c "(NEC" = false /\
  contains c (CodePrimer G) = false.

(** The extra fields of an event whose two codes are plain. *)
Definition no_fields (G : PETRglobals) : list (option string) :=
  (if WriteActorRoot G then [None; None] else []) ++
  (if WriteActorText G then [None; None] else []).

Definition plain_event (G : PETRglobals) (src tar code : string) : event :=
  {| ev_src := src; ev_tar := tar; ev_code := code; ev_more := no_fields G |}.

(** The two clean-up passes at the end of [make_event_strings]. *)
Definition finish_events (G : PETRglobals) (coded : list event)
  : list event :=
  let coded := if RequireDyad G then remove_null_coded coded else coded in
  remove_duplicates (length coded) coded.

(** ** Sample inputs *)

(** Options with every extra field off and the elision passes disabled. *)
Definition plain_options : PETRglobals :=
  {| CodePrimer := "=#="; RootPrimer := "=#=:"; TextPrimer := "=#=+";
     WriteActorRoot := false; WriteActorText := false; RequireDyad := true;
     NewActorLength := 0; CommaMin := 0; CommaMax := 0; CommaBMin := 0;
     CommaBMax := 0; CommaEMin := 0; CommaEMax := 0 |}.

(** The globals at a verb between one coded entity on each side, with the
    events of an earlier sentence still in [StoryEventList]. *)
Definition meeting_state : state :=
  {| ParseList := [];
     UpperSeq := ["~NE"; "WASHINGTON"; "(NE<2>USA"];
     LowerSeq := ["(NE<9>RUS"; "MOSCOW"; "~NE"];
     CodedEvents := [];
     StoryEventList :=
       [StoryHeader "AFP0001_01";
        StoryEvent {| ev_src := "FRA"; ev_tar := "DEU"; ev_code := "040";
                      ev_more := [] |}];
     SentenceID := "AFP0001_02";
     SentenceLoc := "";
     EventCode := "057:058";
     SourceLoc := (2, true);
     TargetLoc := (0, false);
     IsPassive := false;
     codelist := [];
     stdout := [] |}.

(** A passive verb between a single source and a compound target. *)
Definition passive_state : state :=
  {| ParseList := [];
     UpperSeq := ["~NE"; "WASHINGTON"; "(NE<2>USA"];
     LowerSeq := ["(NEC1"; "(NE<9>RUS"; "MOSCOW"; "~NE"; "(NE<12>CHN";
                  "BEIJING"; "~NE"; "~NEC1"];
     CodedEvents := [];
     StoryEventList := [];
     SentenceID := "AFP0001_03";
     SentenceLoc := "";
     EventCode := "111";
     SourceLoc := (2, true);
     TargetLoc := (0, false);
     IsPassive := true;
     codelist := [];
     stdout := [] |}.

(** A verb between a single source and a compound target that names the
    source again. *)
Definition self_target_state (passive : bool) : state :=
  {| ParseList := [];
     UpperSeq := ["~NE"; "WASHINGTON"; "(NE<2>USA"];
     LowerSeq := ["(NEC1"; "(NE<9>RUS"; "MOSCOW"; "~NE"; "(NE<12>USA";
                  "AMERICA"; "~NE"; "~NEC1"];
     CodedEvents := [];
     StoryEventList := [];
     SentenceID := "AFP0001_04";
     SentenceLoc := "";
     EventCode := "111";
     SourceLoc := (2, true);
     TargetLoc := (0, false);
     IsPassive := passive;
     codelist := [];
     stdout := [] |}.

(** A small actor table and agent table. *)
Definition sample_ActorDict : gmap string (list (pattern Z)) :=
  {[ "ISRAELI" := [{| pat_code := 0; pat_conn := " "; pat_words := [] |}] ]}.

Definition sample_ActorCodes : list (list code_item) := [[Plain "ISRGOV"]].

Definition sample_AgentDict : gmap string (list (pattern string)) :=
  {[ "GOVERNMENT" :=
       [{| pat_code := "~GOV"; pat_conn := " "; pat_words := [] |}];
     "ARMY" :=
       [{| pat_code := "~MIL"; pat_conn := " "; pat_words := [] |}] ]}.



(** The split line of a parse in which the word before the second comma
    closes one phrase and the word after it opens another. *)
Definition comma_tokens : list string :=
  ["(ROOT"; "(S"; "(,"; ")"; "(A"; "w"; ")"; "(B"; "x"; "(,"; ")"; ")";
   "(."; "."; ")"; ")"; ")"].

(** The lines of an actor dictionary with a date restriction, and the code
    table they give. *)
Definition balkan_lines : list string :=
  ["YUGOSLAVIA [SRB]"; tab +:+ "[YUG <990101]"; "+FORMER_YUGOSLAVIA";
   "YUGOSLAVIA_ARMY [SRBMIL]"; "ZAGREB [HRV]"].

Definition balkan_codes : list (list code_item) :=
  [[Plain "SRB"; Before 145367 "YUG"]; [Plain "SRBMIL"]].





(** A list of patterns in which no pattern is longer than one before it. *)
Fixpoint by_len_desc {C : Type} (l : list (pattern C)) : Prop :=
  match l with
  | [] => True
  | p :: rest =>
      Forall (fun q => (pat_len q <= pat_len p)%nat) rest /\ by_len_desc rest
  end.



Definition council_pattern : pattern Z :=
  {| pat_code := 1; pat_conn := "_";
     pat_words := [("NATIONS", "_"); ("SECURITY", "_"); ("COUNCIL", " ")] |}.










(** Two readers that differ in the warnings logged at most, and two
    outcomes of the reader that do. *)
Definition same_tables (rd rd' : verb_reader) : Prop :=
  rd_VerbDict rd' = rd_VerbDict rd /\ rd_theverb rd' = rd_theverb rd /\
  rd_newblock rd' = rd_newblock rd /\ rd_primarycode rd' = rd_primarycode rd /\
  rd_synset rd' = rd_synset rd.

Definition same_outcome (r r' : result verb_reader) : Prop :=
  match r, r' with
  | Ok rd, Ok rd' => same_tables rd rd'
  | Raise e, Raise e' => e = e'
  | _, _ => False
  end.


(** A verb block with a synonym set, a pattern that names a set not yet
    defined, and a pattern that names the defined one. *)
Definition verb_lines : list string :=
  ["&MONEY"; "+CASH_"; "--- ACCUSE [110]"; "ACCUSE";
   "- * OF &CRIME [112]"; "- * OF STEALING &MONEY [113]"; "BLAME [111]"].


(** ** Further routines of the coder and of the dictionary input *)

(** [str(n)] for an integer. *)
Definition str (n : Z) : string := pretty n.

Definition set_UpperSeq (v : list string) (st : state) : state :=
  {| ParseList := ParseList st; UpperSeq := v; LowerSeq := LowerSeq st;
     CodedEvents := CodedEvents st; StoryEventList := StoryEventList st;
     SentenceID := SentenceID st; SentenceLoc := SentenceLoc st;
     EventCode := EventCode st; SourceLoc := SourceLoc st;
     TargetLoc := TargetLoc st; IsPassive := IsPassive st;
     codelist := codelist st; stdout := stdout st |}.

Definition set_LowerSeq (v : list string) (st : state) : state :=
  {| ParseList := ParseList st; UpperSeq := UpperSeq st; LowerSeq := v;
     CodedEvents := CodedEvents st; StoryEventList := StoryEventList st;
     SentenceID := SentenceID st; SentenceLoc := SentenceLoc st;
     EventCode := EventCode st; SourceLoc := SourceLoc st;
     TargetLoc := TargetLoc st; IsPassive := IsPassive st;
     codelist := codelist st; stdout := stdout st |}.

Definition set_SourceLoc (v : Z * bool) (st : state) : state :=
  {| ParseList := ParseList st; UpperSeq := UpperSeq st;
     LowerSeq := LowerSeq st;
     CodedEvents := CodedEvents st; StoryEventList := StoryEventList st;
     SentenceID := SentenceID st; SentenceLoc := SentenceLoc st;
     EventCode := EventCode st; SourceLoc := v;
     TargetLoc := TargetLoc st; IsPassive := IsPassive st;
     codelist := codelist st; stdout := stdout st |}.

Definition set_TargetLoc (v : Z * bool) (st : state) : state :=
  {| ParseList := ParseList st; UpperSeq := UpperSeq st;
     LowerSeq := LowerSeq st;
     CodedEvents := CodedEvents st; StoryEventList := StoryEventList st;
     SentenceID := SentenceID st; SentenceLoc := SentenceLoc st;
     EventCode := EventCode st; SourceLoc := SourceLoc st;
     TargetLoc := v; IsPassive := IsPassive st;
     codelist := codelist st; stdout := stdout st |}.

(** *** The sequences around a verb: [get_upper_seq], [get_lower_seq] *)

(** The item that stands for an entity in a sequence,
    [ParseList[kword] + '<' + str(kword) + '>' + code]. *)
Definition ne_item (tok : string) (kword : Z) (code : string) : string :=
  tok +:+ "<" +:+ str kword +:+ ">" +:+ code.

(** [UpperSeq.pop()] followed by the append of the entity item. *)
Definition pop_code_push_item (tok : string) (kword : Z) : M unit :=
  fun st =>
    match reverse (UpperSeq st) with
    | [] => (Raise IndexError, st)
    | code :: r =>
        (Ok tt, set_UpperSeq (reverse r ++ [ne_item tok kword code]) st)
    end.

(** The loop of [get_upper_seq]; [n] bounds the turns left before [kword]
    falls below zero, where the routine raises. *)
Fixpoint upper_seq_loop (ParseStart : Z) (n : nat) (kword : Z) : M unit :=
  if ParseStart <=? kword then
    let* tok := lift (fun st => nth_py (ParseList st) kword) in
    if contains tok "~," then ret tt
    else
      let* _ :=
        (if String.eqb "(NE" tok then pop_code_push_item tok kword
         else if contains tok "NEC" then
           modify (fun st => set_UpperSeq (UpperSeq st ++ [tok]) st)
         else if contains tok "~NE" then
           modify (fun st => set_UpperSeq (UpperSeq st ++ [tok]) st)
         else
           let* c := lift (fun _ => char_at tok 0) in
           if negb (Ascii.eqb c "(") && negb (Ascii.eqb c "~") then
             modify (fun st => set_UpperSeq (UpperSeq st ++ [tok]) st)
           else ret tt) in
      if kword - 1 <? 0 then
        raise_ParseList_error "Bounds underflow in get_upper_seq()"
      else match n with
           | O => raise_ParseList_error "Bounds underflow in get_upper_seq()"
           | S n' => upper_seq_loop ParseStart n' (kword - 1)
           end
  else ret tt.

(** [get_upper_seq].  [ParseStart] is a global that [read_TreeBank] sets; it
    is an argument here. *)
Definition get_upper_seq (ParseStart kword : Z) : M unit :=
  let* _ := modify (set_UpperSeq []) in
  upper_seq_loop ParseStart (Z.to_nat kword) kword.

(** The loop of [get_lower_seq]; [n] bounds the turns left before [kword]
    reaches the length of [ParseList], where the routine raises. *)
Fixpoint lower_seq_loop (endtag : string) (n : nat) (kword : Z) : M unit :=
  let* tok := lift (fun st => nth_py (ParseList st) kword) in
  if contains tok endtag then ret tt
  else
    let* kword :=
      (if String.eqb "(NE" tok then
         let* code := lift (fun st => nth_py (ParseList st) (kword + 1)) in
         let* _ :=
           modify (fun st =>
                     set_LowerSeq (LowerSeq st ++ [ne_item tok kword code])
                       st) in
         ret (kword + 1)
       else if contains tok "NEC" then
         let* _ := modify (fun st => set_LowerSeq (LowerSeq st ++ [tok]) st) in
         ret kword
       else if contains tok "~NE" then
         let* _ := modify (fun st => set_LowerSeq (LowerSeq st ++ [tok]) st) in
         ret kword
       else
         let* c := lift (fun _ => char_at tok 0) in
         if negb (Ascii.eqb c "(") && negb (Ascii.eqb c "~") then
           let* _ :=
             modify (fun st => set_LowerSeq (LowerSeq st ++ [tok]) st) in
           ret kword
         else ret kword) in
    let* len := lift (fun st => Ok (llen (ParseList st))) in
    if len <=? kword + 1 then
      raise_ParseList_error "Bounds overflow in get_lower_seq()"
    else match n with
         | O => raise_ParseList_error "Bounds overflow in get_lower_seq()"
         | S n' => lower_seq_loop endtag n' (kword + 1)
         end.

Definition get_lower_seq (kword : Z) (endtag : string) : M unit :=
  let* _ := modify (set_LowerSeq []) in
  let* len := lift (fun st => Ok (llen (ParseList st))) in
  lower_seq_loop endtag (Z.to_nat (len - kword)) kword.

(** [make_check_sequences] *)
Definition make_check_sequences (ParseStart verbloc : Z) (endtag : string)
  : M unit :=
  let* _ := get_upper_seq ParseStart (verbloc - 1) in
  get_lower_seq (verbloc + 1) endtag.

(** *** Source and target: [find_source], [find_target] *)

(** A loop [while kseq >= 0] that returns at the first item that passes
    [test]; [rseq] holds the items at [kseq], [kseq - 1], ..., [0]. *)
Fixpoint scan_down (test : string -> bool) (rseq : list string) (kseq : Z)
  : option Z :=
  match rseq with
  | [] => None
  | w :: rest => if test w then Some kseq else scan_down test rest (kseq - 1)
  end.

(** A loop [while kseq < len(seq)] that returns at the first item that
    passes [test]; [seq] holds the items from [kseq] on. *)
Fixpoint scan_up (test : Z -> string -> bool) (seq : list string) (kseq : Z)
  : option Z :=
  match seq with
  | [] => None
  | w :: rest => if test kseq w then Some kseq
                 else scan_up test rest (kseq + 1)
  end.

(** An entity that is a compound or carries a code other than the null
    code. *)
Definition coded_entity (w : string) : bool :=
  contains w "(NEC" || (contains w "(NE" && negb (contains w ">---")).

Definition find_source : M unit :=
  let* useq := lift (fun st => Ok (UpperSeq st)) in
  match scan_down coded_entity (reverse useq) (llen useq - 1) with
  | Some kseq => modify (set_SourceLoc (kseq, true))
  | None =>
      match scan_down (fun w => contains w "(NE") (reverse useq)
              (llen useq - 1) with
      | Some kseq => modify (set_SourceLoc (kseq, true))
      | None => ret tt
      end
  end.

Section Target.

Variable G : PETRglobals.

Definition find_target : M unit :=
  let* src := lift (fun st => Ok (SourceLoc st)) in
  let* srccodelist := get_loccodes G src in
  let srccode :=
    if llen srccodelist =? 1 then ">" +:+ default "" (head srccodelist)
    else ">>>>" in
  let* lseq := lift (fun st => Ok (LowerSeq st)) in
  let* useq := lift (fun st => Ok (UpperSeq st)) in
  let* src := lift (fun st => Ok (SourceLoc st)) in
  let coded_other (_ : Z) (w : string) :=
    contains w "(NE" && negb (contains w ">---") &&
    negb (contains w srccode) in
  match scan_up coded_other lseq 0 with
  | Some kseq => modify (set_TargetLoc (kseq, false))
  | None =>
      match scan_up (fun _ w => contains w "(NE" && contains w ">---")
              lseq 0 with
      | Some kseq => modify (set_TargetLoc (kseq, false))
      | None =>
          match scan_up coded_other useq 0 with
          | Some kseq => modify (set_TargetLoc (kseq, true))
          | None =>
              match scan_up
                      (fun kseq w => contains w "(NE" && contains w ">---" &&
                                     negb (kseq =? src.1)) useq 0 with
              | Some kseq => modify (set_TargetLoc (kseq, true))
              | None => ret tt
              end
          end
      end
  end.

End Target.

(** *** Passive voice: [check_passive] of [check_verbs] *)

(** The search for the auxiliary verb, from [ka] down to [kitem]; [n] bounds
    the turns. *)
Fixpoint passive_auxiliary (n : nat) (pl : list string) (kitem ka ppvloc : Z)
  : result Z :=
  match n with
  | O => Ok 0
  | S n' =>
      if kitem <? ka then
        tok ← nth_py pl ka;
        if contains tok "~VB" then
          prev ← nth_py pl (ka - 1);
          if mem prev ["WAS"; "IS"; "BEEN"; "WAS"] then Ok (ppvloc - 1)
          else passive_auxiliary n' pl kitem (ka - 1) ppvloc
        else passive_auxiliary n' pl kitem (ka - 1) ppvloc
      else Ok 0
  end.

(** [check_passive]: the location of the verb, or zero.  [None] stands for
    the exception [CheckVerbsError], which [check_verbs] traps to skip the
    verb. *)
Definition check_passive (pl : list string) (kitem : Z)
  : result (option Z) :=
  tok ← nth_py pl kitem;
  match index_from pl ("~" +:+ slice_from tok 1) 0 with
  | Raise _ => Ok None
  | Ok cpendtag =>
      if mem "(VBN" (lslice pl (kitem + 3) cpendtag) then
        ppvloc ← index_from pl "~VBN" (kitem + 3);
        if negb (mem "BY" (lslice pl (ppvloc + 3) cpendtag)) then Ok (Some 0)
        else
          pv ← passive_auxiliary (Z.to_nat (ppvloc - 3 - kitem)) pl kitem
                 (ppvloc - 3) ppvloc;
          Ok (Some pv)
      else Ok (Some 0)
  end.

(** *** Lines of an input file: [read_FIN_line] *)

(** The input stream: the lines of the file that are not read yet, and the
    line counter. *)
Record fin : Type := {
  FIN : list string;
  FINnline : Z
}.

(** [line = FIN.readline()] followed by [FINnline += 1]; at the end of the
    file the line is the empty string. *)
Definition readline (f : fin) : string * fin :=
  match FIN f with
  | [] => ("", {| FIN := []; FINnline := FINnline f + 1 |})
  | line :: rest => (line, {| FIN := rest; FINnline := FINnline f + 1 |})
  end.

Definition newline : string := String (ascii_of_nat 10) EmptyString.

(** [s.rfind(sub)] *)
Fixpoint rfind_go (sub s : string) (i : nat) : option nat :=
  match s with
  | EmptyString => if String.prefix sub s then Some i else None
  | String _ s' =>
      match rfind_go sub s' (S i) with
      | Some j => Some j
      | None => if String.prefix sub s then Some i else None
      end
  end.

Definition rfind (s sub : string) : Z :=
  match rfind_go sub s 0 with
  | Some i => Z.of_nat i
  | None => -1
  end.

(** The lines that the loop skips at once. *)
Definition skipped_line (line : string) : bool :=
  String.eqb (slice line 0 1) "#" || String.eqb (slice line 0 1) newline ||
  String.eqb (slice line 0 2) "<!" || (slen (strip line) =? 0).

(** The loop [while '-->' not in line]: at the end of the file every line
    read is empty, and the loop does not end; [None] stands for that. *)
Fixpoint skip_comment (n : nat) (line : string) (f : fin) : option fin :=
  if contains line "-->" then Some f
  else match n with
       | O => None
       | S n' => let (line, f) := readline f in skip_comment n' line f
       end.

(** The main loop; [n] bounds the lines that are left to read. *)
Fixpoint read_FIN_loop (n : nat) (line : string) (f : fin)
  : option (string * fin) :=
  if slen line =? 0 then Some (line, f)
  else
    match n with
    | O => None
    | S n' =>
        if skipped_line line then
          let (line, f) := readline f in read_FIN_loop n' line f
        else
          let line := if contains line " #"
                      then slice_to line (rfind line " #") else line in
          match
            (if contains line "<!--" then
               if contains line "-->" then
                 let pline := partition line "<!--" in
                 Some (pline.1.1 +:+
                       slice_from pline.2 (find pline.2 "-->" 0 + 3), f)
               else
                 f ← skip_comment (S (length (FIN f))) line f;
                 Some (readline f)
             else Some (line, f))
          with
          | None => None
          | Some (line, f) =>
              if 0 <? slen (strip line) then Some (line, f)
              else let (line, f) := readline f in read_FIN_loop n' line f
          end
    end.

(** [read_FIN_line]: the line returned and the stream after it; [None] when
    the call does not return. *)
Definition read_FIN_line (f : fin) : option (string * fin) :=
  let (line, f') := readline f in
  read_FIN_loop (S (length (FIN f))) line f'.

(** *** Agent dictionary input: [read_agent_dictionary] *)

(** The dictionary, the substitution sets, and the local [plural], which
    is unbound until a line sets it.  The warnings that the routine logs
    are left out. *)
Record agent_reader : Type := {
  ag_AgentDict : gmap string (list (pattern string));
  ag_subdict : gmap string (list string);
  ag_plural : option string
}.

(** [define_marker] *)
Definition define_marker (line : string) (subdict : gmap string (list string))
  : gmap string (list string) :=
  let bang := find line "!" 0 in
  if (find (slice_from line (bang + 1)) "!" 0 <? 0) ||
     (find (slice_from line bang) "=" 0 <? 0)
  then subdict
  else
    let ka := bang + 1 in
    let marker := slice line ka (find line "!" ka) in
    let loclist := strip (slice_from line (find line "=" ka + 1)) in
    <[marker := map strip (split_char "," loclist)]> subdict.

(** The loop of [store_marker] over the substitutes. *)
Fixpoint store_substitutes (before after code : string)
  (substs : list string) (dict : gmap string (list (pattern string)))
  : result (gmap string (list (pattern string))) :=
  match substs with
  | [] => Ok dict
  | subst :: rest =>
      dict ← store_phrase code (before +:+ subst +:+ after) dict;
      store_substitutes before after code rest dict
  end.

(** [store_marker] *)
Definition store_marker (agent code : string)
  (subdict : gmap string (list string))
  (dict : gmap string (list (pattern string)))
  : result (gmap string (list (pattern string))) :=
  if find (slice_from agent (find agent "!" 0 + 1)) "!" 0 <? 0 then Ok dict
  else
    let part := partition agent "!" in
    let part2 := partition part.2 "!" in
    match subdict !! part2.1.1 with
    | None => Ok dict
    | Some substs => store_substitutes part.1.1 part2.2 code substs dict
    end.

(** One turn of the main loop for a non-empty [line]. *)
Definition read_agent_line (line : string) (rd : agent_reader)
  : result agent_reader :=
  if contains line "!" && contains line "=" then
    Ok {| ag_AgentDict := ag_AgentDict rd;
          ag_subdict := define_marker line (ag_subdict rd);
          ag_plural := ag_plural rd |}
  else if negb (contains line "[") then Ok rd
  else
    let part := partition line "[" in
    let code := strip (partition part.2 "]").1.1 in
    let agent := strip part.1.1 +:+ " " in
    if negb (contains part.1.1 "!") && contains part.1.1 "{" &&
       negb (contains part.1.1 "}")
    then Ok rd
    else
      step ←
        (if contains part.1.1 "!" then
           dict ← store_marker agent code (ag_subdict rd) (ag_AgentDict rd);
           Ok (dict, agent, ag_plural rd)
         else if contains part.1.1 "{" then
           let brace := find part.1.1 "{" 0 in
           Ok (ag_AgentDict rd,
               strip (slice_to part.1.1 brace) +:+ " ",
               Some (strip (slice part.1.1 (brace + 1)
                              (find part.1.1 "}" 0))))
         else
           c ← char_at agent (-2);
           Ok (ag_AgentDict rd, agent,
               Some (if Ascii.eqb "Y" c then slice_to agent (-2) +:+ "IES"
                     else if Ascii.eqb "S" c then slice_to agent (-1) +:+ "ES"
                     else slice_to agent (-1) +:+ "S")));
      let '(dict, agent, plural) := step in
      dict ← store_phrase code agent dict;
      match plural with
      | None => Raise NameError
      | Some plur =>
          dict ← (if 0 <? slen plur then store_phrase code (plur +:+ " ") dict
                  else Ok dict);
          Ok {| ag_AgentDict := dict; ag_subdict := ag_subdict rd;
                ag_plural := plural |}
      end.

Fixpoint read_agent_lines (lines : list string) (rd : agent_reader)
  : result agent_reader :=
  match lines with
  | [] => Ok rd
  | line :: rest =>
      if slen line =? 0 then Ok rd
      else rd' ← read_agent_line line rd; read_agent_lines rest rd'
  end.

(** [read_agent_dictionary], from the lines of the file to [AgentDict]. *)
Definition read_agent_dictionary (lines : list string)
  (AgentDict : gmap string (list (pattern string)))
  : result (gmap string (list (pattern string))) :=
  rd ← read_agent_lines lines
         {| ag_AgentDict := AgentDict; ag_subdict := ∅; ag_plural := None |};
  Ok (sort_by_len <$> ag_AgentDict rd).

(** *** Discard phrases: [read_discard_list] *)

(** The entry that one line of the discard file adds to [DiscardList]. *)
Definition discard_entry (line : string) : string :=
  let line := if contains line "#" then slice_to line (find line "#" 0)
              else line in
  let targ := strip line in
  let targ := if startswith targ "+" then "+ " +:+ slice_from targ 1
              else " " +:+ targ in
  upper targ.

(** [read_discard_list] over the lines that [read_FIN_line] delivers; the
    empty line is the end of the file. *)
Fixpoint read_discard_list (lines : list string) (DiscardList : list string)
  : list string :=
  match lines with
  | [] => DiscardList
  | line :: rest =>
      if 0 <? slen line then
        read_discard_list rest (DiscardList ++ [discard_entry line])
      else DiscardList
  end.

(** *** Issues: [get_issues] *)

(** The search for [code] in [issues]: the count of the first entry with
    the code grows by one, and a code that is not found is added with the
    count one. *)
Fixpoint count_issue (code : string) (issues : list (string * Z))
  : list (string * Z) :=
  match issues with
  | [] => [(code, 1)]
  | (c, n) :: rest =>
      if String.eqb code c then (c, n + 1) :: rest
      else (c, n) :: count_issue code rest
  end.

Fixpoint get_issues_loop (sent : string) (IssueCodes : list string)
  (targets : list (string * Z)) (issues : list (string * Z))
  : result (list (string * Z)) :=
  match targets with
  | [] => Ok issues
  | target :: rest =>
      if contains sent target.1 then
        code ← nth_py IssueCodes target.2;
        c ← char_at code 0;
        if Ascii.eqb c "~" then Ok []
        else get_issues_loop sent IssueCodes rest (count_issue code issues)
      else get_issues_loop sent IssueCodes rest issues
  end.

(** [get_issues]: the list of [[code, count]]. *)
Definition get_issues (SentenceText : string) (IssueList : list (string * Z))
  (IssueCodes : list string) : result (list (string * Z)) :=
  get_issues_loop (upper SentenceText) IssueCodes IssueList [].

(** ** Further predicates used in the statements *)

(** The [try] block of [dstr_to_ordate]: the year, month and day that the
    string holds. *)
Definition date_fields (datestring : string) : result (Z * Z * Z) :=
  if 7 <? slen datestring then
    year ← int_or_DateError (slice_to datestring 4);
    month ← int_or_DateError (slice datestring 4 6);
    day ← int_or_DateError (slice datestring 6 8);
    Ok (year, month, day)
  else
    year ← int_or_DateError (slice_to datestring 2);
    let year := if year <=? 30 then year + 2000 else year + 1900 in
    month ← int_or_DateError (slice datestring 2 4);
    day ← int_or_DateError (slice datestring 4 6);
    Ok (year, month, day).

(** The day after [(year, month, day)] in the Gregorian calendar. *)
Definition next_day (ymd : Z * Z * Z) : Z * Z * Z :=
  let '(year, month, day) := ymd in
  if day <? last_day year month then (year, month, day + 1)
  else if month <? 12 then (year, month + 1, 1)
  else (year + 1, 1, 1).

(** A date of the Gregorian calendar. *)
Definition calendar_date (ymd : Z * Z * Z) : Prop :=
  let '(year, month, day) := ymd in
  1 <= month <= 12 /\ 1 <= day <= last_day year month.

(** A discard target that is matched as a stem: not empty, and no
    underscore at its end. *)
Definition stem_target (target : string) : Prop :=
  exists c, char_at target (-1) = Ok c /\ c <> "_"%char.

(** A target with the [+] prefix that occurs in the sentence, and one
    without the prefix that does. *)
Definition story_hit (sent target : string) : Prop :=
  char_at target 0 = Ok "+"%char /\ contains sent (slice_from target 1) = true.

Definition sentence_hit (sent target : string) : Prop :=
  char_at target 0 <> Ok "+"%char /\ contains sent target = true.

(** [k] is the last position of [seq] whose item passes [test]. *)
Definition last_passing (test : string -> bool) (seq : list string) (k : Z)
  : Prop :=
  0 <= k /\
  (exists w, seq !! Z.to_nat k = Some w /\ test w = true) /\
  forall j w, (Z.to_nat k < j)%nat -> seq !! j = Some w -> test w = false.

(** The table that [balkan_lines] gives. *)
Definition balkan_dict : gmap string (list (pattern Z)) :=
  {[ "YUGOSLAVIA" :=
       [{| pat_code := 1; pat_conn := "_"; pat_words := [("ARMY", " ")] |};
        {| pat_code := 0; pat_conn := " "; pat_words := [] |}];
     "FORMER" :=
       [{| pat_code := 0; pat_conn := "_";
           pat_words := [("YUGOSLAVIA", " ")] |}];
     "ZAGREB" := [{| pat_code := 2; pat_conn := " "; pat_words := [] |}] ]}.

(** The phrase of a primary line of the actor dictionary. *)
Definition primary_phrase (line : string) : string :=
  strip (if contains line "[" then partition line "["
         else partition line ";").1.1 +:+ " ".

(** An item of [UpperSeq] or [LowerSeq] made from [ParseList]: the item of
    an entity, a marker of an entity or of a compound, or a token that is
    no marker. *)
Definition seq_item (pl : list string) (x : string) : Prop :=
  (exists k code, nth_py pl k = Ok "(NE" /\ x = ne_item "(NE" k code) \/
  (x ∈ pl /\
   (contains x "NEC" = true \/ contains x "~NE" = true \/
    exists c, char_at x 0 = Ok c /\ c <> "("%char /\ c <> "~"%char)).

(** A routine started in a state that satisfies [P] ends in a state that
    satisfies [Q] of its result, or raises in a state that satisfies [E]. *)
Definition triple {A : Type} (P : state -> Prop) (c : M A)
  (Q : A -> state -> Prop) (E : state -> Prop) : Prop :=
  forall st, P st ->
    match c st with
    | (Ok a, st') => Q a st'
    | (Raise _, st') => E st'
    end.

(** The sequences hold items made from the parse [pl] only. *)
Definition upper_items (pl : list string) (st : state) : Prop :=
  ParseList st = pl /\ Forall (seq_item pl) (UpperSeq st).

Definition lower_items (pl : list string) (st : state) : Prop :=
  upper_items pl st /\ Forall (seq_item pl) (LowerSeq st).

(** A parse with one entity on each side of the verb, and the globals that
    hold it before the sequences are made. *)
Definition sample_parse : list string :=
  ["(ROOT"; "(S"; "(NE"; "USA"; "WASHINGTON"; "~NE"; "(VP"; "(VBD"; "MET";
   "~VBD"; "(NE"; "RUS"; "MOSCOW"; "~NE"; "~VP"; "(."; "."; "~."; "~S";
   "~ROOT"].

(** The lines of an agent dictionary with a substitution set. *)
Definition agent_lines : list string :=
  ["!PERSON! = MAN, MEN, WOMAN"; "ARMY [~MIL]"; "POLICE {POLICE} [~COP]";
   "SECRETARY_OF_STATE {} [~GOV]"; "!PERSON!_IN_BLACK [~ELI]"].

(** A passive verb phrase. *)
Definition passive_parse : list string :=
  ["(ROOT"; "(S"; "(NE"; "---"; "REBELS"; "~NE"; "(VP"; "(VBD"; "WAS";
   "~VBD"; "(VP"; "(VBN"; "ATTACKED"; "~VBN"; "(PP"; "(IN"; "BY"; "~IN";
   "(NE"; "---"; "TROOPS"; "~NE"; "~PP"; "~VP"; "~VP"; "(."; "."; "~.";
   "~S"; "~ROOT"].

Definition parsed_state : state :=
  {| ParseList := sample_parse; UpperSeq := []; LowerSeq := [];
     CodedEvents := []; StoryEventList := []; SentenceID := "AFP0001_02";
     SentenceLoc := ""; EventCode := "040"; SourceLoc := (-1, true);
     TargetLoc := (-1, true); IsPassive := false; codelist := [];
     stdout := [] |}.

(** The sum of the counts of a list of issues, and the targets of
    [IssueList] that occur in a sentence. *)
Definition total_count (issues : list (string * Z)) : Z :=
  foldr (fun issue acc => issue.2 + acc) 0 issues.

Definition matching_targets (sent : string) (IssueList : list (string * Z))
  : list (string * Z) :=
  filter (fun target => contains sent target.1 = true) IssueList.

(** The phrase that a noun list stands for: every word followed by its
    connector. *)
Definition join_noun_list (nounlist : list (string * string)) : string :=
  foldr (fun wc acc => wc.1 +:+ wc.2 +:+ acc) "" nounlist.

(** A phrase with a blank added when it does not end in a connector. *)
Fixpoint close_phrase (s : string) : string :=
  match s with
  | EmptyString => EmptyString
  | String c EmptyString =>
      if Ascii.eqb c " " || Ascii.eqb c "_" then s else String c " "
  | String c rest => String c (close_phrase rest)
  end.

(** Every phrase stored in [dict] is stored in [dict'] under the same
    key. *)
Definition dict_included {C : Type} (dict dict' : gmap string (list (pattern C)))
  : Prop :=
  forall key l p, dict !! key = Some l -> p ∈ l ->
                  exists l', dict' !! key = Some l' /\ p ∈ l'.

(** * Properties *)

(** ** Event assembly *)

Section AssemblyFacts.

Variable G : PETRglobals.

Lemma add_location_empty f : add_location "" f = f.
Proof.
  unfold add_location. rewrite andb_false_r. reflexivity.
Qed.

Lemma make_events_targets_appends ispassive codestar :
  forall srclist codeevt coded coded',
    make_events_targets G "" ispassive srclist codestar codeevt coded
      = Some coded' ->
    exists added, coded' = coded ++ added /\ Forall distinct_ends added.
Proof.
  induction codestar as [|thistar rest IH]; intros srclist codeevt coded coded'.
  - simpl. intros [= <-]. exists []. rewrite app_nil_r. auto.
  - simpl. destruct (contains thistar "(NEC"); [discriminate|].
    rewrite add_location_empty.
    destruct (String.eqb_spec srclist.1.1 (extract_code_fields G thistar).1.1)
      as [Heq|Hne]; simpl.
    + apply IH.
    + intros H. apply IH in H as (added & -> & Hall).
      eexists (_ :: added). rewrite <- app_assoc. split; [reflexivity|].
      constructor; [|exact Hall].
      unfold distinct_ends. destruct ispassive; simpl; congruence.
Qed.

Lemma make_events_appends ispassive codessrc :
  forall codestar codeevt coded,
    make_events G "" ispassive codessrc codestar codeevt coded = [] \/
    exists added,
      make_events G "" ispassive codessrc codestar codeevt coded
        = coded ++ added /\ Forall distinct_ends added.
Proof.
  induction codessrc as [|thissrc rest IH]; intros codestar codeevt coded.
  - right. exists []. simpl. rewrite app_nil_r. auto.
  - simpl. destruct (contains thissrc "(NEC"); [left; reflexivity|].
    destruct (make_events_targets G "" ispassive _ codestar codeevt coded)
      as [coded'|] eqn:Ht; [|left; reflexivity].
    apply make_events_targets_appends in Ht as (added & -> & Hall).
    destruct (IH codestar codeevt (coded ++ added)) as [->|(more & -> & Hmore)].
    + left; reflexivity.
    + right. exists (added ++ more). rewrite app_assoc. split; [reflexivity|].
      apply Forall_app; auto.
Qed.

End AssemblyFacts.

(** *** What [get_loccodes] leaves unchanged *)

Lemma same_inputs_refl st : same_inputs st st.
Proof. repeat split. Qed.

Lemma same_inputs_trans st1 st2 st3 :
  same_inputs st1 st2 -> same_inputs st2 st3 -> same_inputs st1 st3.
Proof.
  unfold same_inputs. intros H1 H2. destruct_and!.
  repeat split; congruence.
Qed.

Lemma keeps_ret {A : Type} (a : A) : keeps (ret a).
Proof. intros st. apply same_inputs_refl. Qed.

Lemma keeps_raise {A : Type} e : keeps (raise (A := A) e).
Proof. intros st. apply same_inputs_refl. Qed.

Lemma keeps_lift {A : Type} (f : state -> result A) : keeps (lift f).
Proof. intros st. apply same_inputs_refl. Qed.

Lemma keeps_bind {A B : Type} (c : M A) (k : A -> M B) :
  keeps c -> (forall a, keeps (k a)) -> keeps (bindM c k).
Proof.
  intros Hc Hk st. unfold bindM. specialize (Hc st).
  destruct (c st) as [[a|e] st']; simpl in *; [|exact Hc].
  eapply same_inputs_trans; [exact Hc|apply Hk].
Qed.

Lemma keeps_modify (f : state -> state) :
  (forall st, same_inputs st (f st)) -> keeps (modify f).
Proof. intros Hf st. apply Hf. Qed.

Lemma keeps_if {A : Type} (b : bool) (c1 c2 : M A) :
  keeps c1 -> keeps c2 -> keeps (if b then c1 else c2).
Proof. destruct b; auto. Qed.

Lemma same_inputs_codelist v st : same_inputs st (set_codelist v st).
Proof. repeat split. Qed.

Lemma same_inputs_story v st : same_inputs st (set_StoryEventList v st).
Proof. repeat split. Qed.

Lemma same_inputs_stdout v st : same_inputs st (set_stdout v st).
Proof. repeat split. Qed.

Create HintDb keeps.
#[local] Hint Resolve keeps_ret keeps_raise keeps_lift keeps_modify keeps_if
  same_inputs_refl same_inputs_codelist same_inputs_story same_inputs_stdout
  : keeps.

Ltac keeps_step :=
  lazymatch goal with
  | |- keeps (bindM _ _) => apply keeps_bind; [|intros ?]
  | |- keeps (if _ then _ else _) => apply keeps_if
  | |- keeps (raise_ParseList_error _) => apply keeps_raise
  | |- keeps (modify _) => apply keeps_modify; intros ?
  | |- same_inputs ?st (if _ then _ else _) => case_match
  | _ => solve [auto with keeps]
  end.

Section Frame.

Variable G : PETRglobals.

Lemma add_code_keeps neloc isupperseq : keeps (add_code G neloc isupperseq).
Proof. unfold add_code. repeat keeps_step. Qed.

Lemma nec_upper_keeps n : forall ka, keeps (nec_upper G n ka).
Proof.
  induction n as [|n IH]; intros ka; simpl; repeat keeps_step;
    auto using add_code_keeps.
Qed.

Lemma nec_lower_keeps n : forall ka, keeps (nec_lower G n ka).
Proof.
  induction n as [|n IH]; intros ka; simpl; repeat keeps_step;
    auto using add_code_keeps.
Qed.

Lemma get_loccodes_keeps thisloc : keeps (get_loccodes G thisloc).
Proof.
  unfold get_loccodes. repeat keeps_step.
  - intros st.
    destruct (nth_py (UpperSeq st) thisloc.1); [|apply same_inputs_refl].
    case_match; [apply nec_upper_keeps|apply add_code_keeps].
  - intros st.
    destruct (nth_py (LowerSeq st) thisloc.1); [|apply same_inputs_refl].
    eapply same_inputs_trans;
      [|case_match; [apply nec_lower_keeps|apply add_code_keeps]].
    repeat split.
Qed.

End Frame.

(** *** Strings: a code split at the first colon *)

Lemma count_char_nonneg c s : 0 <= count_char c s.
Proof.
  induction s as [|d s IH]; [simpl; lia|].
  change (count_char c (String d s))
    with ((if Ascii.eqb c d then 1 else 0) + count_char c s).
  destruct (Ascii.eqb c d); lia.
Qed.

Lemma substring_all s : substring 0 (String.length s) s = s.
Proof. induction s as [|c s IH]; simpl; [reflexivity|]. now rewrite IH. Qed.

Lemma substring_app_l s t : substring 0 (String.length s) (s +:+ t) = s.
Proof.
  induction s as [|c s IH]; simpl.
  - destruct t; reflexivity.
  - now rewrite IH.
Qed.

Lemma substring_app_r s t :
  substring (String.length s) (String.length t) (s +:+ t) = t.
Proof.
  induction s as [|c s IH]; simpl; [apply substring_all|exact IH].
Qed.

Lemma string_length_app s t :
  String.length (s +:+ t) = (String.length s + String.length t)%nat.
Proof. induction s as [|c s IH]; simpl; [reflexivity|]. now rewrite IH. Qed.

Lemma prefix_empty s : String.prefix "" s = true.
Proof. destruct s; reflexivity. Qed.

Lemma find_go_colon f r : forall i,
  count_char ":" f = 0 ->
  find_go ":" (f +:+ ":" +:+ r) i = Some (i + String.length f)%nat.
Proof.
  induction f as [|c f IH]; intros i H.
  - rewrite Nat.add_0_r.
    change (find_go ":" ("" +:+ ":" +:+ r) i)
      with (if (if ascii_dec ":" ":" then String.prefix "" r else false)
            then Some i else find_go ":" r (S i)).
    destruct (ascii_dec ":" ":") as [_|Hne]; [|contradiction].
    now rewrite prefix_empty.
  - change (count_char ":" (String c f))
      with ((if Ascii.eqb ":" c then 1 else 0) + count_char ":" f) in H.
    pose proof (count_char_nonneg ":" f).
    assert (Hc : ":"%char <> c).
    { intros <-. rewrite Ascii.eqb_refl in H. lia. }
    assert (Hf : count_char ":" f = 0) by (destruct (Ascii.eqb ":" c); lia).
    change (find_go ":" (String c f +:+ ":" +:+ r) i)
      with (if String.prefix ":" (String c (f +:+ ":" +:+ r)) then Some i
            else find_go ":" (f +:+ ":" +:+ r) (S i)).
    change (String.prefix ":" (String c (f +:+ ":" +:+ r)))
      with (if ascii_dec ":" c then String.prefix "" (f +:+ ":" +:+ r)
            else false).
    destruct (ascii_dec ":" c) as [Heq|_]; [contradiction|].
    rewrite IH by lia. f_equal. simpl. lia.
Qed.

Lemma clamp_inside n i : 0 <= i <= n -> clamp n i = i.
Proof. intros H. unfold clamp. destruct (Z.ltb_spec i 0); lia. Qed.

Lemma slen_app s t : slen (s +:+ t) = slen s + slen t.
Proof. unfold slen. rewrite string_length_app. lia. Qed.

Lemma slen_nonneg s : 0 <= slen s.
Proof. unfold slen. lia. Qed.

Lemma slice_to_app s t : slice_to (s +:+ t) (slen s) = s.
Proof.
  pose proof (slen_nonneg s). pose proof (slen_nonneg t).
  unfold slice_to, slice. rewrite slen_app, !clamp_inside by lia.
  rewrite Z.sub_0_r. unfold slen. rewrite Nat2Z.id. apply substring_app_l.
Qed.

Lemma slice_from_app s t : slice_from (s +:+ t) (slen s) = t.
Proof.
  pose proof (slen_nonneg s). pose proof (slen_nonneg t).
  unfold slice_from, slice. rewrite slen_app, !clamp_inside by lia.
  replace (slen s + slen t - slen s) with (slen t) by lia.
  unfold slen. rewrite !Nat2Z.id. apply substring_app_r.
Qed.

Lemma app_assoc_string s t u : (s +:+ t) +:+ u = s +:+ t +:+ u.
Proof.
  induction s as [|c s IH]; [reflexivity|].
  change (String c ((s +:+ t) +:+ u) = String c (s +:+ t +:+ u)).
  now rewrite IH.
Qed.

Lemma find_colon f r :
  count_char ":" f = 0 -> find (f +:+ ":" +:+ r) ":" 0 = slen f.
Proof.
  intros H. unfold find. pose proof (slen_nonneg (f +:+ ":" +:+ r)).
  destruct (Z.ltb_spec (slen (f +:+ ":" +:+ r)) 0); [lia|].
  rewrite clamp_inside by lia. change (Z.to_nat 0) with 0%nat.
  rewrite Nat.sub_0_r, substring_all, find_go_colon by exact H. reflexivity.
Qed.

Lemma contains_colon f r :
  count_char ":" f = 0 -> contains (f +:+ ":" +:+ r) ":" = true.
Proof.
  intros H. unfold contains. rewrite find_colon by exact H.
  apply Z.leb_le. apply slen_nonneg.
Qed.

Lemma partition_colon f r :
  count_char ":" f = 0 -> partition (f +:+ ":" +:+ r) ":" = (f, ":", r).
Proof.
  intros H. unfold partition. rewrite find_colon by exact H.
  pose proof (slen_nonneg f).
  destruct (Z.ltb_spec (slen f) 0); [lia|].
  rewrite slice_to_app. f_equal.
  rewrite <- app_assoc_string, <- slen_app. apply slice_from_app.
Qed.

(** *** Self-references *)

Section SelfReference.

Variable G : PETRglobals.

Lemma Forall_filter_keeps {A : Type} (Q P : A -> Prop)
  `{forall x, Decision (P x)} (l : list A) :
  Forall Q l -> Forall Q (filter P l).
Proof.
  rewrite !Forall_forall. intros H' x Hx. apply H'.
  eapply list_subseteq_filter. exact Hx.
Qed.

Lemma remove_duplicates_Forall (Q : event -> Prop) n :
  forall coded, Forall Q coded -> Forall Q (remove_duplicates n coded).
Proof.
  induction n as [|n IH]; intros coded H; [destruct coded; exact H|].
  destruct coded as [|e rest]; simpl; [constructor|].
  inversion H; subst. constructor; [assumption|].
  apply IH. apply Forall_filter_keeps. assumption.
Qed.

Lemma remove_null_coded_Forall (Q : event -> Prop) coded :
  Forall Q coded -> Forall Q (remove_null_coded coded).
Proof. intros H. apply Forall_filter_keeps. exact H. Qed.

Lemma make_events_Forall (Q : event -> Prop) ispassive src tar codeevt coded :
  (forall e, distinct_ends e -> Q e) ->
  Forall Q coded ->
  Forall Q (make_events G "" ispassive src tar codeevt coded).
Proof.
  intros HQ H.
  destruct (make_events_appends G ispassive src tar codeevt coded)
    as [->|(added & -> & Hadd)]; [constructor|].
  apply Forall_app. split; [exact H|].
  eapply Forall_impl; [exact Hadd|exact HQ].
Qed.

(** No event that [make_event_strings] adds has its source code equal to
    its target code: every event in [CodedEvents] after the call either was
    there before the call or has two different codes. *)
Lemma make_event_strings_no_self_reference (st : state) :
  Forall (fun e => e ∈ CodedEvents st \/ distinct_ends e)
    (CodedEvents (make_event_strings G st).2).
Proof.
  set (Q := fun e => e ∈ CodedEvents st \/ distinct_ends e).
  assert (Hold : forall st', CodedEvents st' = CodedEvents st ->
                             Forall Q (CodedEvents st')).
  { intros st' ->. apply Forall_forall. intros e He. left. exact He. }
  assert (HQ : forall e, distinct_ends e -> Q e) by (intros e He; right; exact He).
  unfold make_event_strings.
  unfold bindM at 1. unfold lift at 1.
  unfold bindM at 1.
  pose proof (get_loccodes_keeps G (SourceLoc st) st) as K1.
  destruct (get_loccodes G (SourceLoc st) st) as [[srccodes|e1] st1] eqn:E1;
    simpl in K1; [|apply Hold, K1].
  unfold bindM at 1. unfold lift at 1.
  unfold bindM at 1.
  pose proof (get_loccodes_keeps G (TargetLoc st1) st1) as K2.
  destruct (get_loccodes G (TargetLoc st1) st1) as [[tarcodes|e2] st2] eqn:E2;
    simpl in K2.
  2:{ apply Hold. simpl. unfold same_inputs in *. destruct_and!. congruence. }
  assert (H2 : CodedEvents st2 = CodedEvents st).
  { unfold same_inputs in *. destruct_and!. congruence. }
  unfold bindM at 1. unfold modify at 1.
  destruct (_ || _); [apply Hold; exact H2|].
  unfold bindM, lift, modify, ret. simpl.
  destruct (contains (EventCode st2) ":"); simpl;
    destruct (RequireDyad G); simpl;
    apply remove_duplicates_Forall;
    try apply remove_null_coded_Forall;
    repeat apply make_events_Forall; auto.
Qed.
End SelfReference.

(** *** Symmetric event codes *)

Section Symmetric.

Variable G : PETRglobals.

Lemma expand_plain_code c :
  contains c "/" = false -> expand_compound_codes [c] = [c].
Proof.
  intros H. unfold expand_compound_codes. simpl. rewrite H. reflexivity.
Qed.

Lemma extract_plain_code c :
  contains c (CodePrimer G) = false -> extract_code_fields G c = (c, None, None).
Proof. intros H. unfold extract_code_fields. rewrite H. reflexivity. Qed.

Lemma make_events_plain_pair a b codeevt coded :
  plain_code G a -> plain_code G b -> a <> b ->
  make_events G "" false [a] [b] codeevt coded
    = coded ++ [plain_event G a b codeevt].
Proof.
  intros (_ & Ha & Hpa) (_ & Hb & Hpb) Hab.
  simpl. rewrite Ha, Hb, !add_location_empty, !extract_plain_code by assumption.
  simpl. destruct (String.eqb_spec a b) as [Heq|_]; [contradiction|].
  reflexivity.
Qed.

Opaque make_events.

(** C2. A symmetric event code [forward:reverse] applied to one plain
    source code [a] and one plain target code [b], different from each other
    and from the null code, without passive voice, adds exactly the two
    events [(a, b, forward)] and [(b, a, reverse)]; on an empty event list
    these two are the result. *)
Theorem symmetric_code_split (st st1 st2 : state) (a b forward reverse : string) :
  IsPassive st = false ->
  EventCode st = forward +:+ ":" +:+ reverse ->
  count_char ":" forward = 0 ->
  get_loccodes G (SourceLoc st) st = (Ok [a], st1) ->
  get_loccodes G (TargetLoc st) st1 = (Ok [b], st2) ->
  plain_code G a -> plain_code G b ->
  a <> b -> a <> "---" -> b <> "---" ->
  CodedEvents (make_event_strings G st).2
    = finish_events G (CodedEvents st ++ [plain_event G a b forward;
                                          plain_event G b a reverse]) /\
  (CodedEvents st = [] ->
   CodedEvents (make_event_strings G st).2
     = [plain_event G a b forward; plain_event G b a reverse]).
Proof.
  intros Hpas Hcode Hfwd E1 E2 Ha Hb Hab Ha0 Hb0.
  pose proof (get_loccodes_keeps G (SourceLoc st) st) as K1.
  rewrite E1 in K1. simpl in K1.
  pose proof (get_loccodes_keeps G (TargetLoc st) st1) as K2.
  rewrite E2 in K2. simpl in K2.
  unfold same_inputs in K1, K2. destruct_and!.
  assert (Hrun : CodedEvents (make_event_strings G st).2
                 = finish_events G (CodedEvents st ++
                     [plain_event G a b forward; plain_event G b a reverse])).
  { unfold make_event_strings.
    unfold bindM at 1. unfold lift at 1. unfold bindM at 1. rewrite E1.
    unfold bindM at 1. unfold lift at 1. unfold bindM at 1.
    replace (TargetLoc st1) with (TargetLoc st) by congruence. rewrite E2.
    rewrite !expand_plain_code by apply Ha || apply Hb.
    unfold bindM, lift, modify, ret. simpl.
    replace (EventCode st2) with (forward +:+ ":" +:+ reverse) by congruence.
    rewrite contains_colon, partition_colon by exact Hfwd.
    destruct (String.eqb_spec a "---") as [?|_]; [contradiction|].
    destruct (String.eqb_spec b "---") as [?|_]; [contradiction|].
    simpl.
    replace (IsPassive st2) with false by congruence.
    rewrite !make_events_plain_pair by auto.
    replace (CodedEvents st2) with (CodedEvents st) by congruence.
    rewrite <- app_assoc. simpl.
    unfold finish_events. destruct (RequireDyad G); reflexivity. }
  split; [exact Hrun|].
  intros Hnil. rewrite Hrun, Hnil. unfold finish_events. simpl.
  assert (Hne : plain_event G a b forward <> plain_event G b a reverse).
  { intros [= ? ?]. contradiction. }
  assert (Hkeep : remove_null_coded [plain_event G a b forward;
                                     plain_event G b a reverse]
                  = [plain_event G a b forward; plain_event G b a reverse]).
  { unfold remove_null_coded. simpl.
    rewrite !filter_cons, filter_nil. simpl.
    destruct (String.eqb_spec a "---") as [?|_]; [contradiction|].
    destruct (String.eqb_spec b "---") as [?|_]; [contradiction|].
    simpl. repeat case_decide; try reflexivity; contradiction. }
  destruct (RequireDyad G); rewrite ?Hkeep; simpl;
    rewrite filter_cons, filter_nil; case_decide; try reflexivity; contradiction.
Qed.

Transparent make_events.

End Symmetric.

Lemma symmetric_code_split_witness :
  CodedEvents (make_event_strings plain_options meeting_state).2
    = [plain_event plain_options "USA" "RUS" "057";
       plain_event plain_options "RUS" "USA" "058"].
Proof.
  refine (proj2 (symmetric_code_split plain_options meeting_state _ _
                   "USA" "RUS" "057" "058" _ _ _ _ _ _ _ _ _ _) eq_refl);
    [reflexivity | reflexivity | reflexivity
    | vm_compute; reflexivity | vm_compute; reflexivity
    | repeat split | repeat split
    | discriminate | discriminate | discriminate].
Defined.

(** *** Passive voice *)

(** C1. With passive voice, a source [USA] and a compound target that
    yields [RUS] and [CHN], [make_event_strings] adds [(RUS, USA)] and then
    [(CHN, RUS)]: the exchange made for the first pair stays in the local
    [srclist], so the second pair does not carry the code of the source
    locator as its target. *)
Theorem passive_swap_stale_source :
  CodedEvents (make_event_strings plain_options passive_state).2
    = [plain_event plain_options "RUS" "USA" "111";
       plain_event plain_options "CHN" "RUS" "111"].
Proof. vm_compute. reflexivity. Qed.

(** With a single target code the exchange is the one expected: the event
    runs from the target code to the source code. *)
Lemma passive_swap_single_pair (G : PETRglobals) a b codeevt coded :
  plain_code G a -> plain_code G b -> a <> b ->
  make_events G "" true [a] [b] codeevt coded
    = coded ++ [plain_event G b a codeevt].
Proof.
  intros (_ & Ha & Hpa) (_ & Hb & Hpb) Hab.
  simpl. rewrite Ha, Hb, !add_location_empty by assumption.
  rewrite !extract_plain_code by assumption.
  simpl. destruct (String.eqb_spec a b) as [Heq|_]; [contradiction|].
  reflexivity.
Qed.

(** C7. With the source [USA] and a compound target that yields [RUS] and
    [USA], the pair of [USA] with itself is skipped in the active voice: the
    one event is [(USA, RUS)].  In the passive voice it is not skipped: the
    exchange made for the first pair has left [RUS] in the local [srclist],
    the comparison of the second pair is made with it, and the pair of
    equal codes adds the event [(USA, RUS)] after [(RUS, USA)]. *)
Theorem passive_self_reference_not_skipped :
  (get_loccodes plain_options (2, true) (self_target_state true)).1
    = Ok ["USA"] /\
  (get_loccodes plain_options (0, false) (self_target_state true)).1
    = Ok ["RUS"; "USA"] /\
  CodedEvents (make_event_strings plain_options (self_target_state false)).2
    = [plain_event plain_options "USA" "RUS" "111"] /\
  CodedEvents (make_event_strings plain_options (self_target_state true)).2
    = [plain_event plain_options "RUS" "USA" "111";
       plain_event plain_options "USA" "RUS" "111"] /\
  make_events plain_options "" true ["USA"] ["RUS"; "USA"] "111" []
    = [plain_event plain_options "RUS" "USA" "111";
       plain_event plain_options "USA" "RUS" "111"].
Proof. vm_compute. repeat split. Qed.

(** *** The per-story event list *)

(** C9. [get_loccodes] empties [StoryEventList]: called for the source
    locator of [meeting_state], it returns the code list and leaves the
    list of the story, which held a header and an event, empty. *)
Theorem get_loccodes_clears_story_events :
  StoryEventList meeting_state
    = [StoryHeader "AFP0001_01";
       StoryEvent {| ev_src := "FRA"; ev_tar := "DEU"; ev_code := "040";
                     ev_more := [] |}] /\
  (get_loccodes plain_options (2, true) meeting_state).1 = Ok ["USA"] /\
  StoryEventList (get_loccodes plain_options (2, true) meeting_state).2 = [] /\
  StoryEventList (get_loccodes plain_options (0, false) meeting_state).2
    = [StoryHeader "AFP0001_02"].
Proof. vm_compute. repeat split. Qed.

(** *** Composite codes *)

(** C3. For the phrase [ISRAELI GOVERNMENT ARMY] the actor code is
    [ISRGOV] and the agents found are [~GOV] and [~MIL]; the block [GOV] is
    present already, the loop is left there, and [MIL] is never added. *)
Theorem duplicate_agent_ends_composition :
  find_agents sample_AgentDict ["ISRAELI"; "GOVERNMENT"; "ARMY"]
    = ["~GOV"; "~MIL"] /\
  check_NEphrase plain_options sample_ActorDict sample_ActorCodes
    sample_AgentDict 0 ["ISRAELI"; "GOVERNMENT"; "ARMY"] = Ok (Some "ISRGOV") /\
  check_NEphrase plain_options sample_ActorDict sample_ActorCodes
    sample_AgentDict 0 ["ISRAELI"; "ARMY"; "GOVERNMENT"]
    = Ok (Some "ISRGOVMIL").
Proof. vm_compute. repeat split. Qed.

(** *** Discards *)

(** C10. A discard phrase with the trailing underscore that matches the
    last words of the text makes [check_discards] index the text one place
    past its end: the call raises [IndexError] and returns no
    classification. *)
Theorem check_discards_fails_at_end_of_text :
  check_discards "Troops entered the capital" [" CAPITAL_"]
    = Raise IndexError /\
  check_discards "Troops entered the capital." [" CAPITAL_"]
    = Ok (1, " CAPITAL_").
Proof. vm_compute. split; reflexivity. Qed.

(** ** Indexing *)

Lemma nth_py_lookup {A : Type} (l : list A) (k : Z) (x : A) :
  0 <= k -> l !! Z.to_nat k = Some x -> nth_py l k = Ok x.
Proof.
  intros Hk Hx. unfold nth_py. pose proof (lookup_lt_Some _ _ _ Hx) as Hlt.
  destruct (Z.ltb_spec k 0); [lia |].
  destruct (Z.leb_spec 0 k); [| lia].
  destruct (Z.ltb_spec k (llen l)); [| unfold llen in *; lia].
  cbn [andb]. rewrite Hx. reflexivity.
Qed.

Lemma nth_py_inv {A : Type} (l : list A) (k : Z) (x : A) :
  0 <= k -> nth_py l k = Ok x -> l !! Z.to_nat k = Some x.
Proof.
  intros Hk. unfold nth_py. destruct (Z.ltb_spec k 0); [lia |].
  destruct (_ && _); [| discriminate].
  destruct (l !! Z.to_nat k); [| discriminate]. congruence.
Qed.

Lemma index_go_found x l : forall i0 i,
  index_go x l i0 = Some i -> (i0 <= i)%nat /\ l !! (i - i0)%nat = Some x.
Proof.
  induction l as [| y l IH]; intros i0 i; [discriminate |].
  cbn [index_go]. destruct (String.eqb_spec x y) as [-> | _].
  - intros [= <-]. rewrite Nat.sub_diag. auto.
  - intros H. apply IH in H as [Hle Hx]. split; [lia |].
    replace (i - i0)%nat with (S (i - S i0)) by lia. exact Hx.
Qed.

Lemma index_from_found l x start i :
  index_from l x start = Ok i -> 0 <= i /\ nth_py l i = Ok x.
Proof.
  unfold index_from.
  destruct (index_go x (drop _ l) _) as [j |] eqn:Hj; [| discriminate].
  intros [= <-]. split; [lia |].
  apply index_go_found in Hj as [Hle Hx]. rewrite lookup_drop in Hx.
  apply nth_py_lookup; [lia |]. rewrite Nat2Z.id.
  rewrite <- Hx. f_equal. lia.
Qed.

(** ** The balance of the token sequence *)

Lemma char_at_cons c t : char_at (String c t) 0 = Ok c.
Proof.
  unfold char_at. change (0 <? 0) with false. cbv iota zeta.
  assert (H : (0 <? slen (String c t)) = true).
  { apply Z.ltb_lt. unfold slen. simpl. lia. }
  rewrite H. reflexivity.
Qed.

Lemma char_at_empty : char_at "" 0 = Raise IndexError.
Proof. reflexivity. Qed.
















(** *** What [check_commas] deletes *)








(** *** Whole commas *)


















Section CommasNested.

Variable G : PETRglobals.



End CommasNested.





(** The condition on the commas cannot be dropped.  In [comma_tokens] the
    two comma phrases hold no word; the normalizer accepts the sentence,
    the two deletions of a dangling comma take three tokens each, [(, ~, (A]
    and [(, ~, ~B], the counts stay equal, and the sequence that is handed
    on closes [A] inside [S] and leaves [B] open. *)
Lemma elision_accepts_mismatched_nesting :
  read_TreeBank_final comma_tokens
    = Ok ["(ROOT"; "(S"; "(,"; "~,"; "(A"; "w"; "~A"; "(B"; "x"; "(,"; "~,";
          "~B"; "(."; "."; "~."; "~S"; "~ROOT"] /\
  normalize_and_elide plain_options comma_tokens
    = Ok ["(ROOT"; "(S"; "w"; "~A"; "(B"; "x"; "(."; "."; "~."; "~S"; "~ROOT"] /\
  well_nested []
    ["(ROOT"; "(S"; "w"; "~A"; "(B"; "x"; "(."; "."; "~."; "~S"; "~ROOT"]
    = false.
Proof. vm_compute. repeat split. Qed.

(** ** Date restrictions *)

(** The reader turns the restriction line of [balkan_lines] into the
    before-date item of [balkan_codes]. *)
Lemma balkan_lines_read :
  (tables ← read_actor_dictionary plain_options balkan_lines ∅ [];
   Ok tables.2) = Ok balkan_codes.
Proof. vm_compute. reflexivity. Qed.


Section Restrictions.

Variable G : PETRglobals.
Hypothesis Hroot : WriteActorRoot G = false.

Implicit Types (d : Z) (item : code_item) (pre post items : list code_item).







End Restrictions.




(** ** The order of the patterns under a key *)

Section Sorting.

Context {C : Type}.
Implicit Types (p q : pattern C) (l : list (pattern C)).


Lemma insert_by_len_perm p l : insert_by_len p l ≡ₚ p :: l.
Proof.
  induction l as [|q l IH]; simpl; [reflexivity|].
  destruct (pat_len p <? pat_len q)%nat; [|reflexivity].
  rewrite IH. apply Permutation_swap.
Qed.

Lemma sort_by_len_perm l : sort_by_len l ≡ₚ l.
Proof.
  induction l as [|p l IH]; simpl; [reflexivity|].
  rewrite insert_by_len_perm, IH. reflexivity.
Qed.

Lemma insert_by_len_desc p l :
  by_len_desc l -> by_len_desc (insert_by_len p l).
Proof.
  induction l as [|q l IH]; simpl; [auto|]. intros [Hq Hl].
  destruct (Nat.ltb_spec (pat_len p) (pat_len q)) as [Hlt|Hge]; simpl.
  - split; [|auto]. rewrite insert_by_len_perm.
    constructor; [lia|exact Hq].
  - split; [|auto]. constructor; [exact Hge|].
    eapply Forall_impl; [exact Hq|]. simpl. intros r Hr. lia.
Qed.

Lemma sort_by_len_desc l : by_len_desc (sort_by_len l).
Proof.
  induction l as [|p l IH]; simpl; [exact I|].
  now apply insert_by_len_desc.
Qed.





End Sorting.




(** ** Verb dictionary input *)

(** The sample dictionary is read to the end: the pattern that names
    [&CRIME] leaves a warning and nothing else, the pattern after it is
    stored under its verb. *)
Lemma verb_lines_read :
  (rd ← read_verb_dictionary verb_lines ∅;
   Ok (rd_log rd, rd_VerbDict rd !! "ACCUSE "))
    = Ok (["Synset &CRIME has not been defined; pattern skipped"],
          Some [VBool true; VStr "110";
                VPat [] [" "; "OF"; " "; "STEALING"; " "; "&MONEY"] "113"]).
Proof. vm_compute. reflexivity. Qed.

Section VerbReader.

Implicit Types (dict : gmap string (list velem)) (rd : verb_reader).




Lemma same_tables_refl rd : same_tables rd rd.
Proof. repeat split. Qed.

Lemma same_outcome_refl r : same_outcome r r.
Proof. destruct r; simpl; [apply same_tables_refl | reflexivity]. Qed.









End VerbReader.


(** * Further properties *)

Lemma dstr_to_ordate_fields s :
  dstr_to_ordate s =
  ymd ← date_fields s;
  let '(year, month, day) := ymd in
  if day <=? 0 then Raise DateError
  else if last_day year month <? day then Raise DateError
  else
    let adj := if month <? 3 then 1 else 0 in
    let yr := year + 4800 - adj in
    let mo := month + 12 * adj - 3 in
    let ordate := day + (153 * mo + 2) / 5 + 365 * yr in
    let ordate := ordate + (yr / 4 - yr / 100 + yr / 400 - 32045) in
    Ok (ordate - 2305813).
Proof. reflexivity. Qed.

Lemma last_day_cases y m :
  last_day y m = 28 \/ last_day y m = 29 \/ last_day y m = 30 \/
  last_day y m = 31.
Proof.
  unfold last_day.
  repeat match goal with |- context [if ?b then _ else _] => destruct b end;
    lia.
Qed.

(** X1. [dstr_to_ordate] counts days: when a date string holds a date of the
    Gregorian calendar and a second string holds the day after it, whether
    in the same month, in the next month or in the next year, the ordinal
    date of the second is the ordinal date of the first plus one. *)
Theorem consecutive_days_consecutive_ordinals (s s' : string)
  (ymd : Z * Z * Z) :
  date_fields s = Ok ymd -> calendar_date ymd ->
  date_fields s' = Ok (next_day ymd) ->
  exists n, dstr_to_ordate s = Ok n /\ dstr_to_ordate s' = Ok (n + 1).
Proof.
  intros Hs Hcal Hs'. destruct ymd as [[y m] d].
  rewrite !dstr_to_ordate_fields, Hs, Hs'. clear Hs Hs'.
  destruct Hcal as [Hm Hd]. cbn [mbind result_bind].
  unfold next_day.
  assert (Hmonths : m = 1 \/ m = 2 \/ m = 3 \/ m = 4 \/ m = 5 \/ m = 6 \/
                    m = 7 \/ m = 8 \/ m = 9 \/ m = 10 \/ m = 11 \/ m = 12)
    by lia.
  destruct (Z.ltb_spec d (last_day y m)) as [Hlt | Hge].
  - destruct (Z.leb_spec d 0); [lia |].
    destruct (Z.ltb_spec (last_day y m) d); [lia |].
    destruct (Z.leb_spec (d + 1) 0); [lia |].
    destruct (Z.ltb_spec (last_day y m) (d + 1)); [lia |].
    eexists; split; [reflexivity |]. f_equal. lia.
  - assert (d = last_day y m) as -> by lia. clear Hge Hd.
    destruct (Z.leb_spec (last_day y m) 0);
      [pose proof (last_day_cases y m); lia |].
    rewrite Z.ltb_irrefl.
    eexists; split; [reflexivity |].
    destruct Hmonths as [-> | [-> | [-> | [-> | [-> | [-> | [-> | [-> | [-> |
                        [-> | [-> | ->]]]]]]]]]]];
      unfold last_day in *;
      repeat first
        [ match goal with
          | |- context [Z.eqb ?a ?b] =>
              destruct (Z.eqb_spec a b); try lia
          | |- context [Z.ltb ?a ?b] =>
              destruct (Z.ltb_spec a b); try lia
          | |- context [Z.leb ?a ?b] =>
              destruct (Z.leb_spec a b); try lia
          end
        | progress cbn [orb] ];
      f_equal; Z.div_mod_to_equations; lia.
Qed.

Lemma consecutive_days_consecutive_ordinals_witness :
  exists n, dstr_to_ordate "19991231" = Ok n /\
            dstr_to_ordate "20000101" = Ok (n + 1).
Proof.
  apply (consecutive_days_consecutive_ordinals "19991231" "20000101"
           (1999, 12, 31)).
  - reflexivity.
  - unfold calendar_date, last_day. simpl. lia.
  - reflexivity.
Defined.

Lemma is_digit_not_space c : is_digit c = true -> is_space c = false.
Proof.
  destruct c as [[] [] [] [] [] [] [] []]; intros H; try discriminate H;
    reflexivity.
Qed.

Lemma int_digits_digit c rest acc prev :
  is_digit c = true ->
  int_digits (String c rest) acc prev =
  int_digits rest (10 * acc + digit_value c) true.
Proof. intros H. cbn [int_digits]. rewrite H. reflexivity. Qed.

Lemma py_int_two_digits a b :
  is_digit a = true -> is_digit b = true ->
  py_int (String a (String b "")) = Some (10 * digit_value a + digit_value b).
Proof.
  intros Ha Hb. pose proof (is_digit_not_space b Hb) as Hsb.
  pose proof (is_digit_not_space a Ha) as Hsa.
  unfold py_int, strip. cbn [rstrip]. rewrite Hsb. cbn [lstrip].
  rewrite Hsa.
  destruct a as [[] [] [] [] [] [] [] []]; try discriminate Ha;
    cbv beta iota;
    rewrite !int_digits_digit by (reflexivity || assumption);
    reflexivity.
Qed.

Lemma py_int_four_digits c1 c2 a b :
  is_digit c1 = true -> is_digit c2 = true ->
  is_digit a = true -> is_digit b = true ->
  py_int (String c1 (String c2 (String a (String b "")))) =
  Some (1000 * digit_value c1 + 100 * digit_value c2 +
        (10 * digit_value a + digit_value b)).
Proof.
  intros H1 H2 Ha Hb. pose proof (is_digit_not_space b Hb) as Hsb.
  pose proof (is_digit_not_space c1 H1) as Hs1.
  unfold py_int, strip. cbn [rstrip]. rewrite Hsb. cbn [lstrip].
  rewrite Hs1.
  destruct c1 as [[] [] [] [] [] [] [] []]; try discriminate H1;
    cbv beta iota;
    rewrite !int_digits_digit by (reflexivity || assumption);
    cbn [int_digits]; f_equal; lia.
Qed.

(** X2. A date string of six or seven characters that starts with two digits
    [yy] has the ordinal date of the same string with [20] put in front when
    [yy <= 30], and with [19] put in front otherwise. *)
Theorem two_digit_year_window (a b : ascii) (rest : string) :
  is_digit a = true -> is_digit b = true -> 4 <= slen rest <= 5 ->
  dstr_to_ordate (String a (String b rest)) =
  dstr_to_ordate
    ((if 10 * digit_value a + digit_value b <=? 30 then "20" else "19")
     +:+ String a (String b rest)).
Proof.
  intros Ha Hb Hlen.
  unfold slen in Hlen.
  assert (Hshape : exists c3 c4 c5 c6 tail,
             rest = String c3 (String c4 (String c5 (String c6 tail))) /\
             (tail = "" \/ exists c7, tail = String c7 "")).
  { destruct rest as [| c3 [| c4 [| c5 [| c6 [| c7 [| c8 rest]]]]]];
      cbn [String.length] in Hlen; try lia.
    - exists c3, c4, c5, c6, "". eauto.
    - exists c3, c4, c5, c6, (String c7 ""). eauto. }
  destruct Hshape as (c3 & c4 & c5 & c6 & tail & -> & Htail).
  assert (Hshort : (7 <? slen (String a (String b (String c3 (String c4
                     (String c5 (String c6 tail))))))) = false).
  { destruct Htail as [-> | [c7 ->]]; reflexivity. }
  assert (Hlong : forall d1 d2, (7 <? slen (String d1 (String d2 (String a
                     (String b (String c3 (String c4
                     (String c5 (String c6 tail))))))))) = true).
  { intros. destruct Htail as [-> | [c7 ->]]; reflexivity. }
  assert (Hyy : slice_to (String a (String b (String c3 (String c4
                     (String c5 (String c6 tail)))))) 2 =
                String a (String b "")).
  { destruct Htail as [-> | [c7 ->]]; reflexivity. }
  assert (Hmm : slice (String a (String b (String c3 (String c4
                     (String c5 (String c6 tail)))))) 2 4 =
                String c3 (String c4 "")).
  { destruct Htail as [-> | [c7 ->]]; reflexivity. }
  assert (Hdd : slice (String a (String b (String c3 (String c4
                     (String c5 (String c6 tail)))))) 4 6 =
                String c5 (String c6 "")).
  { destruct Htail as [-> | [c7 ->]]; reflexivity. }
  assert (Hyyyy : forall d1 d2, slice_to (String d1 (String d2 (String a
                     (String b (String c3 (String c4
                     (String c5 (String c6 tail)))))))) 4 =
                String d1 (String d2 (String a (String b "")))).
  { intros. destruct Htail as [-> | [c7 ->]]; reflexivity. }
  assert (Hmm' : forall d1 d2, slice (String d1 (String d2 (String a
                     (String b (String c3 (String c4
                     (String c5 (String c6 tail)))))))) 4 6 =
                String c3 (String c4 "")).
  { intros. destruct Htail as [-> | [c7 ->]]; reflexivity. }
  assert (Hdd' : forall d1 d2, slice (String d1 (String d2 (String a
                     (String b (String c3 (String c4
                     (String c5 (String c6 tail)))))))) 6 8 =
                String c5 (String c6 "")).
  { intros. destruct Htail as [-> | [c7 ->]]; reflexivity. }
  set (s := String a (String b (String c3 (String c4
              (String c5 (String c6 tail)))))) in *.
  assert (Hfields : forall d1 d2 century,
             is_digit d1 = true -> is_digit d2 = true ->
             century = 1000 * digit_value d1 + 100 * digit_value d2 ->
             date_fields (String d1 (String d2 s)) =
             (month ← int_or_DateError (String c3 (String c4 ""));
              day ← int_or_DateError (String c5 (String c6 ""));
              Ok (century + (10 * digit_value a + digit_value b),
                  month, day))).
  { intros d1 d2 century H1 H2 ->. unfold date_fields. subst s.
    rewrite Hlong, Hyyyy, Hmm', Hdd'.
    replace (int_or_DateError (String d1 (String d2 (String a (String b "")))))
      with (Ok (A := Z) (1000 * digit_value d1 + 100 * digit_value d2 +
                  (10 * digit_value a + digit_value b)))
      by (unfold int_or_DateError;
          rewrite (py_int_four_digits d1 d2 a b H1 H2 Ha Hb); reflexivity).
    reflexivity. }
  assert (Hshortfields :
             date_fields s =
             (month ← int_or_DateError (String c3 (String c4 ""));
              day ← int_or_DateError (String c5 (String c6 ""));
              Ok ((if 10 * digit_value a + digit_value b <=? 30
                   then 2000 else 1900) +
                  (10 * digit_value a + digit_value b), month, day))).
  { unfold date_fields. rewrite Hshort, Hyy, Hmm, Hdd.
    replace (int_or_DateError (String a (String b "")))
      with (Ok (A := Z) (10 * digit_value a + digit_value b))
      by (unfold int_or_DateError; rewrite (py_int_two_digits a b Ha Hb);
          reflexivity).
    cbn [mbind result_bind].
    destruct (10 * digit_value a + digit_value b <=? 30);
      rewrite (Z.add_comm _ (10 * digit_value a + digit_value b));
      reflexivity. }
  rewrite !dstr_to_ordate_fields, Hshortfields.
  destruct (10 * digit_value a + digit_value b <=? 30).
  - change ("20" +:+ s) with (String "2" (String "0" s)).
    rewrite (Hfields "2" "0" 2000)%char by reflexivity. reflexivity.
  - change ("19" +:+ s) with (String "1" (String "9" s)).
    rewrite (Hfields "1" "9" 1900)%char by reflexivity. reflexivity.
Qed.

Lemma two_digit_year_window_witness :
  dstr_to_ordate "090120" = dstr_to_ordate "20090120" /\
  dstr_to_ordate "510724" = dstr_to_ordate "19510724".
Proof.
  split.
  - apply (two_digit_year_window "0" "9" "0120"); [reflexivity .. |].
    unfold slen. simpl. lia.
  - apply (two_digit_year_window "5" "1" "0724"); [reflexivity .. |].
    unfold slen. simpl. lia.
Defined.

(** X3. [dstr_to_ordate] checks the day but not the month: a string whose
    month field is 13 and whose day is between 1 and 31 raises no
    [DateError]; its ordinal date is the one of the same day in January of
    the following year. *)
Theorem month_thirteen_is_next_january (s s' : string) (y d : Z) :
  date_fields s = Ok (y, 13, d) -> date_fields s' = Ok (y + 1, 1, d) ->
  1 <= d <= 31 ->
  exists n, dstr_to_ordate s = Ok n /\ dstr_to_ordate s' = Ok n.
Proof.
  intros Hs Hs' Hd. rewrite !dstr_to_ordate_fields, Hs, Hs'.
  cbn [mbind result_bind]. unfold last_day.
  change (13 =? 2) with false. change (1 =? 2) with false.
  change ((13 =? 4) || (13 =? 6) || (13 =? 9) || (13 =? 11)) with false.
  change ((1 =? 4) || (1 =? 6) || (1 =? 9) || (1 =? 11)) with false.
  cbv iota.
  destruct (Z.leb_spec d 0); [lia |].
  destruct (Z.ltb_spec 31 d); [lia |].
  eexists; split; [reflexivity |]. f_equal.
  change (13 <? 3) with false. change (1 <? 3) with true. cbv iota.
  replace (y + 1 + 4800 - 1) with (y + 4800 - 0) by lia.
  change (1 + 12 * 1 - 3) with 10. change (13 + 12 * 0 - 3) with 10.
  reflexivity.
Qed.

Lemma month_thirteen_is_next_january_witness :
  exists n, dstr_to_ordate "20101301" = Ok n /\
            dstr_to_ordate "20110101" = Ok n.
Proof.
  apply (month_thirteen_is_next_january "20101301" "20110101" 2010 1);
    [reflexivity | reflexivity | lia].
Defined.

(** ** Codes *)

Lemma append_not_empty s t : s <> "" -> s +:+ t <> "".
Proof. destruct s; [congruence | discriminate]. Qed.

(** X4. [get_actor_code] never returns the empty string: whatever the code
    table holds at the index, a returned code is not empty (the null code
    [---] stands for a missing or empty one). *)
Theorem get_actor_code_never_empty (G : PETRglobals)
  (ActorCodes : list (list code_item)) (SentenceOrdDate index : Z)
  (code : string) :
  get_actor_code G ActorCodes SentenceOrdDate index = Ok code -> code <> "".
Proof.
  unfold get_actor_code.
  destruct (nth_py ActorCodes index) as [items |]; [| discriminate].
  cbv zeta.
  match goal with
  | |- match ?c with _ => _ end = _ -> _ => destruct c as [thecode |]
  end; [| intros [= <-]; discriminate].
  destruct (String.eqb_spec thecode "") as [| Hne];
    [intros [= <-]; discriminate |].
  destruct (WriteActorRoot G).
  - destruct (last items) as [[] |]; try discriminate.
    intros [= <-]. apply append_not_empty. exact Hne.
  - intros [= <-]. exact Hne.
Qed.

Lemma get_actor_code_never_empty_witness :
  get_actor_code plain_options sample_ActorCodes 0 0 = Ok "ISRGOV" /\
  "ISRGOV" <> "".
Proof.
  split; [reflexivity |].
  apply (get_actor_code_never_empty plain_options sample_ActorCodes 0 0).
  reflexivity.
Defined.

Lemma get_loccodes_not_nil (G : PETRglobals) (thisloc : Z * bool)
  (st st' : state) (codes : list string) :
  get_loccodes G thisloc st = (Ok codes, st') -> codes <> [].
Proof.
  unfold get_loccodes.
  unfold bindM at 1. unfold modify at 1.
  unfold bindM at 1. unfold modify at 1.
  unfold bindM at 1.
  match goal with
  | |- (let (_, _) := ?c in _) = _ -> _ => destruct c as [[[] | e] st1]
  end; [| discriminate].
  unfold bindM, modify, lift.
  destruct (Z.eqb_spec (llen (codelist st1)) 0) as [Hz | Hnz].
  - intros [= <- _]. discriminate.
  - intros [= <- _]. intros Hnil. rewrite Hnil in Hnz. apply Hnz. reflexivity.
Qed.

(** X5. When [get_loccodes] returns, the list it returns is not empty; it is
    the global [codelist], and the parse, the two sequences, the coded
    events and the locations are as before the call. *)
Theorem get_loccodes_never_empty (G : PETRglobals) (thisloc : Z * bool)
  (st st' : state) (codes : list string) :
  get_loccodes G thisloc st = (Ok codes, st') ->
  exists code rest, codes = code :: rest /\
                    codes = codelist st' /\ same_inputs st st'.
Proof.
  intros H. pose proof (get_loccodes_not_nil _ _ _ _ _ H) as Hne.
  pose proof (get_loccodes_keeps G thisloc st) as Hkeep.
  rewrite H in Hkeep. cbn [snd] in Hkeep.
  destruct codes as [| code rest]; [congruence |].
  exists code, rest. split; [reflexivity |]. split; [| exact Hkeep].
  revert H. unfold get_loccodes.
  unfold bindM at 1. unfold modify at 1.
  unfold bindM at 1. unfold modify at 1.
  unfold bindM at 1.
  match goal with
  | |- (let (_, _) := ?c in _) = _ -> _ => destruct c as [[[] | e] st1]
  end; [| discriminate].
  unfold bindM, modify, lift. intros [= H1 H2]. rewrite <- H2.
  symmetry. exact H1.
Qed.

Lemma get_loccodes_never_empty_witness :
  exists code rest,
    ["USA"] = code :: rest /\
    ["USA"] = codelist (get_loccodes plain_options (2, true) meeting_state).2 /\
    same_inputs meeting_state
      (get_loccodes plain_options (2, true) meeting_state).2.
Proof.
  apply (get_loccodes_never_empty plain_options (2, true) meeting_state
           (get_loccodes plain_options (2, true) meeting_state).2).
  reflexivity.
Defined.

(** ** The clean-up passes of event assembly *)

Lemma split_char_not_nil c s : split_char c s <> [].
Proof.
  induction s as [| d s IH]; [discriminate |].
  cbn [split_char]. destruct (Ascii.eqb c d); [discriminate |].
  destruct (split_char c s); discriminate.
Qed.

Lemma expand_compound_loop_not_nil n : forall ka codes,
  codes <> [] -> expand_compound_loop n ka codes <> [].
Proof.
  induction n as [| n IH]; intros ka codes Hne; [exact Hne |].
  cbn [expand_compound_loop]. apply IH.
  destruct (codes !! ka) as [c |] eqn:Hc; [| exact Hne].
  destruct (contains c "/"); [| exact Hne].
  intros Hnil. apply app_eq_nil in Hnil as [_ Hnil].
  apply app_eq_nil in Hnil as [Hnil _].
  exact (split_char_not_nil _ _ Hnil).
Qed.

Lemma expand_compound_codes_not_nil codes :
  codes <> [] -> (llen (expand_compound_codes codes) =? 0) = false.
Proof.
  intros Hne. apply Z.eqb_neq. unfold llen.
  pose proof (expand_compound_loop_not_nil (length codes) 0 codes Hne) as H.
  unfold expand_compound_codes.
  destruct (expand_compound_loop (length codes) 0 codes);
    [congruence | cbn [length]; lia].
Qed.

Lemma remove_duplicates_elem n : forall coded e,
  e ∈ remove_duplicates n coded -> e ∈ coded.
Proof.
  induction n as [| n IH]; intros coded e; [destruct coded; auto |].
  destruct coded as [| e0 rest]; [auto |].
  cbn [remove_duplicates]. rewrite !elem_of_cons.
  intros [-> | Hin]; [left; reflexivity | right].
  apply IH in Hin. apply list_elem_of_filter in Hin. tauto.
Qed.

Lemma remove_duplicates_NoDup n : forall coded,
  (length coded <= n)%nat -> NoDup (remove_duplicates n coded).
Proof.
  induction n as [| n IH]; intros coded Hlen.
  - destruct coded; [constructor | cbn [length] in Hlen; lia].
  - destruct coded as [| e rest]; [constructor |].
    cbn [remove_duplicates]. constructor.
    + intros Hin. apply remove_duplicates_elem in Hin.
      apply list_elem_of_filter in Hin as [Hne _]. congruence.
    + apply IH. cbn [length] in Hlen.
      pose proof (length_filter (fun e' => e <> e') rest). lia.
Qed.

(** The state of [make_event_strings] before the clean-up passes, when the
    call returns. *)
Lemma make_event_strings_finishes (G : PETRglobals) (st st' : state) :
  make_event_strings G st = (Ok tt, st') ->
  exists coded,
    CodedEvents st' = finish_events G coded.
Proof.
  unfold make_event_strings.
  unfold bindM at 1. unfold lift at 1.
  unfold bindM at 1.
  destruct (get_loccodes G (SourceLoc st) st) as [[srccodes | e1] st1] eqn:E1;
    [| discriminate].
  unfold bindM at 1. unfold lift at 1.
  unfold bindM at 1.
  destruct (get_loccodes G (TargetLoc st1) st1) as [[tarcodes | e2] st2] eqn:E2;
    [| discriminate].
  apply get_loccodes_not_nil in E1, E2.
  unfold bindM at 1. unfold modify at 1.
  rewrite !expand_compound_codes_not_nil by assumption.
  cbn [orb].
  unfold bindM, lift, modify, ret, finish_events.
  destruct (contains (EventCode _) ":"); cbn;
    destruct (RequireDyad G); cbn; intros [= <-]; cbn;
    eexists; reflexivity.
Qed.

(** X6. When [make_event_strings] returns, [CodedEvents] holds no event
    twice. *)
Theorem make_event_strings_no_duplicates (G : PETRglobals) (st st' : state) :
  make_event_strings G st = (Ok tt, st') -> NoDup (CodedEvents st').
Proof.
  intros H. apply make_event_strings_finishes in H as [coded ->].
  unfold finish_events. apply remove_duplicates_NoDup. lia.
Qed.

Lemma make_event_strings_no_duplicates_witness :
  NoDup (CodedEvents (make_event_strings plain_options meeting_state).2).
Proof.
  apply (make_event_strings_no_duplicates plain_options meeting_state).
  vm_compute. reflexivity.
Defined.

(** X7. Under [RequireDyad], when [make_event_strings] returns, no event in
    [CodedEvents] has the null code [---] as its source or as its target. *)
Theorem make_event_strings_requires_dyad (G : PETRglobals) (st st' : state) :
  RequireDyad G = true ->
  make_event_strings G st = (Ok tt, st') ->
  Forall (fun e => ev_src e <> "---" /\ ev_tar e <> "---") (CodedEvents st').
Proof.
  intros HG H. apply make_event_strings_finishes in H as [coded ->].
  unfold finish_events. rewrite HG.
  apply remove_duplicates_Forall. unfold remove_null_coded.
  apply Forall_forall. intros e He.
  apply list_elem_of_filter in He as [He _].
  apply negb_true_iff, orb_false_iff in He as [Hs Ht].
  split; intros Heq; rewrite Heq in *; discriminate.
Qed.

Lemma make_event_strings_requires_dyad_witness :
  Forall (fun e => ev_src e <> "---" /\ ev_tar e <> "---")
    (CodedEvents (make_event_strings plain_options meeting_state).2).
Proof.
  apply (make_event_strings_requires_dyad plain_options meeting_state);
    vm_compute; reflexivity.
Defined.

(** ** Searching a string *)

Lemma prefix_app sub post : String.prefix sub (sub +:+ post) = true.
Proof.
  induction sub as [| c sub IH]; [apply prefix_empty |].
  replace (String c sub +:+ post) with (String c (sub +:+ post))
    by reflexivity.
  cbn [String.prefix].
  destruct (ascii_dec c c); [exact IH | contradiction].
Qed.

Lemma prefix_split sub : forall s,
  String.prefix sub s = true -> exists post, s = sub +:+ post.
Proof.
  induction sub as [| c sub IH]; intros s H.
  - exists s. reflexivity.
  - destruct s as [| d s]; [discriminate |].
    cbn [String.prefix] in H. destruct (ascii_dec c d) as [-> |]; [| discriminate].
    apply IH in H as [post ->]. exists post. reflexivity.
Qed.

Lemma find_go_found sub : forall s i j,
  find_go sub s i = Some j ->
  exists pre post, s = pre +:+ sub +:+ post /\ j = (i + String.length pre)%nat.
Proof.
  induction s as [| c s IH]; intros i j.
  - cbn [find_go]. destruct (String.prefix sub "") eqn:Hp; [| discriminate].
    intros [= <-]. apply prefix_split in Hp as [post Hp].
    exists "", post. split; [exact Hp | cbn; lia].
  - cbn [find_go]. destruct (String.prefix sub (String c s)) eqn:Hp.
    + intros [= <-]. apply prefix_split in Hp as [post Hp].
      exists "", post. split; [exact Hp | cbn; lia].
    + intros H. apply IH in H as (pre & post & -> & ->).
      exists (String c pre), post. split; [reflexivity | cbn; lia].
Qed.

Lemma find_go_complete sub post : forall pre i,
  exists j, find_go sub (pre +:+ sub +:+ post) i = Some j.
Proof.
  induction pre as [| c pre IH]; intros i.
  - exists i. change ("" +:+ sub +:+ post) with (sub +:+ post).
    destruct (sub +:+ post) eqn:E; cbn [find_go];
      rewrite <- E, prefix_app; reflexivity.
  - change (String c pre +:+ sub +:+ post)
      with (String c (pre +:+ sub +:+ post)).
    cbn [find_go].
    destruct (String.prefix sub (String c (pre +:+ sub +:+ post)));
      [exists i; reflexivity | apply IH].
Qed.

Lemma find_from_start s sub :
  find s sub 0 = match find_go sub s 0 with
                 | Some i => Z.of_nat i
                 | None => -1
                 end.
Proof.
  unfold find. pose proof (slen_nonneg s).
  destruct (Z.ltb_spec (slen s) 0); [lia |].
  rewrite clamp_inside by lia. change (Z.to_nat 0) with 0%nat.
  rewrite Nat.sub_0_r, substring_all. reflexivity.
Qed.

Lemma contains_app pre sub post : contains (pre +:+ sub +:+ post) sub = true.
Proof.
  unfold contains. rewrite find_from_start.
  destruct (find_go_complete sub post pre 0) as [j ->].
  apply Z.leb_le. lia.
Qed.

Lemma contains_found s sub :
  contains s sub = true ->
  exists pre post, s = pre +:+ sub +:+ post /\ find s sub 0 = slen pre.
Proof.
  unfold contains. rewrite find_from_start.
  destruct (find_go sub s 0) as [j |] eqn:Hj; [| intros H; discriminate H].
  intros _. apply find_go_found in Hj as (pre & post & -> & ->).
  exists pre, post. split; [reflexivity |]. unfold slen. lia.
Qed.

Lemma find_negative s sub : contains s sub = false -> (find s sub 0 <? 0) = true.
Proof.
  unfold contains. intros H. apply Z.leb_gt in H. apply Z.ltb_lt. exact H.
Qed.

(** ** Discard phrases *)

Lemma upper_char_idem c : upper_char (upper_char c) = upper_char c.
Proof. destruct c as [[] [] [] [] [] [] [] []]; reflexivity. Qed.

Lemma upper_idem s : upper (upper s) = upper s.
Proof.
  induction s as [| c s IH]; [reflexivity |].
  cbn [upper]. rewrite upper_char_idem, IH. reflexivity.
Qed.

(** X8. [check_discards] does not depend on the case of the sentence text:
    the text and its upper-case form give the same result. *)
Theorem check_discards_ignores_case (SentenceText : string)
  (DiscardList : list string) :
  check_discards (upper SentenceText) DiscardList =
  check_discards SentenceText DiscardList.
Proof. unfold check_discards. rewrite upper_idem. reflexivity. Qed.

Lemma stem_target_first target :
  stem_target target -> exists c, char_at target 0 = Ok c.
Proof.
  intros [c [Hc _]]. destruct target as [| d target].
  - discriminate Hc.
  - exists d. apply char_at_cons.
Qed.

Lemma discard_scan_stems (plus : bool) (sent : string)
  (targets : list string) :
  Forall stem_target targets ->
  let hit (t : string) :=
    if plus then story_hit sent t else sentence_hit sent t in
  (exists t, t ∈ targets /\ hit t /\
             discard_scan plus sent targets = Ok (Some t)) \/
  (discard_scan plus sent targets = Ok None /\
   forall t, t ∈ targets -> ~ hit t).
Proof.
  intros Hall hit. induction Hall as [| target rest Hstem _ IH].
  - right. split; [reflexivity |]. intros t Ht. inversion Ht.
  - pose proof (stem_target_first _ Hstem) as [c0 Hc0].
    destruct Hstem as [clast [Hclast Hne]].
    assert (Hus : Ascii.eqb clast "_" = false)
      by (apply Ascii.eqb_neq; exact Hne).
    cbn [discard_scan]. rewrite Hc0. cbn [mbind result_bind].
    assert (Hskip :
      ~ hit target ->
      (exists t, t ∈ rest /\ hit t /\
                 discard_scan plus sent rest = Ok (Some t)) \/
      (discard_scan plus sent rest = Ok None /\
       forall t, t ∈ rest -> ~ hit t) ->
      (exists t, t ∈ target :: rest /\ hit t /\
                 discard_scan plus sent rest = Ok (Some t)) \/
      (discard_scan plus sent rest = Ok None /\
       forall t, t ∈ target :: rest -> ~ hit t)).
    { intros Hno [(t & Hin & Hhit & Heq) | [Heq Hnone]].
      - left. exists t. split; [right; exact Hin | auto].
      - right. split; [exact Heq |]. intros t Ht.
        apply elem_of_cons in Ht as [-> | Ht]; auto. }
    destruct (Bool.eqb (Ascii.eqb c0 "+") plus) eqn:Hplus.
    + rewrite Hclast. cbn [mbind result_bind]. rewrite Hus.
      apply Bool.eqb_prop in Hplus.
      destruct (0 <=? find sent (if plus then slice_from target 1 else target) 0)
        eqn:Hloc.
      * left. exists target. split; [left |]. split; [| reflexivity].
        unfold hit. destruct plus.
        -- apply Ascii.eqb_eq in Hplus. subst c0. split; assumption.
        -- apply Ascii.eqb_neq in Hplus. split; [| exact Hloc].
           rewrite Hc0. congruence.
      * apply Hskip; [| exact IH]. unfold hit. destruct plus.
        -- intros [_ H]. unfold contains in H. congruence.
        -- intros [_ H]. unfold contains in H. congruence.
    + apply Hskip; [| exact IH]. unfold hit.
      apply Bool.eqb_false_iff in Hplus. destruct plus.
      * intros [H _]. rewrite Hc0 in H. injection H as ->.
        apply Hplus. reflexivity.
      * intros [H _]. apply H. rewrite Hc0. f_equal.
        destruct (Ascii.eqb_spec c0 "+"); [assumption | congruence].
Qed.

(** X9. When no discard target is empty or ends with an underscore,
    [check_discards] raises nothing and returns [[2, t]] for a target [t]
    with the [+] prefix that occurs in the upper-case text, else [[1, t]]
    for a target without the prefix that occurs in it and then no target
    with the prefix occurs, else [[0, '']] and then no target occurs. *)
Theorem check_discards_classifies (SentenceText : string)
  (DiscardList : list string) :
  Forall stem_target DiscardList ->
  let sent := upper SentenceText in
  (exists t, check_discards SentenceText DiscardList = Ok (2, t) /\
             t ∈ DiscardList /\ story_hit sent t) \/
  (exists t, check_discards SentenceText DiscardList = Ok (1, t) /\
             t ∈ DiscardList /\ sentence_hit sent t /\
             forall u, u ∈ DiscardList -> ~ story_hit sent u) \/
  (check_discards SentenceText DiscardList = Ok (0, "") /\
   forall u, u ∈ DiscardList ->
             ~ story_hit sent u /\ ~ sentence_hit sent u).
Proof.
  intros Hall sent. unfold check_discards. fold sent.
  destruct (discard_scan_stems true sent DiscardList Hall)
    as [(t & Hin & Hhit & ->) | [-> Hnostory]]; cbn [mbind result_bind].
  - left. exists t. auto.
  - right.
    destruct (discard_scan_stems false sent DiscardList Hall)
      as [(t & Hin & Hhit & ->) | [-> Hnosent]]; cbn [mbind result_bind].
    + left. exists t. auto.
    + right. split; [reflexivity |]. intros u Hu. split; auto.
Qed.

Lemma check_discards_classifies_witness :
  exists indic t,
    check_discards "Troops entered the capital." [" CAPITAL"; "+ SPORTS"]
    = Ok (indic, t).
Proof.
  destruct (check_discards_classifies "Troops entered the capital."
              [" CAPITAL"; "+ SPORTS"]) as [(t & H & _) | [(t & H & _) | [H _]]].
  - repeat constructor; eexists; (split; [reflexivity | discriminate]).
  - exists 2, t. exact H.
  - exists 1, t. exact H.
  - exists 0, "". exact H.
Defined.

Lemma upper_cons c s : upper (String c s) = String (upper_char c) (upper s).
Proof. reflexivity. Qed.

(** X10. [read_discard_list] keeps the form of [DiscardList]: when every
    entry is in upper case and starts with a blank or with [+] and a
    blank, every entry of the list it returns is of that form too. *)
Theorem read_discard_list_entries (lines : list string)
  (DiscardList : list string) :
  let entry t :=
    (startswith t " " = true \/ startswith t "+ " = true) /\ upper t = t in
  Forall entry DiscardList ->
  Forall entry (read_discard_list lines DiscardList).
Proof.
  intros entry. revert DiscardList.
  induction lines as [| line rest IH]; intros DiscardList Hall; [exact Hall |].
  cbn [read_discard_list]. destruct (0 <? slen line); [| exact Hall].
  apply IH. apply Forall_app. split; [exact Hall |].
  constructor; [| constructor].
  unfold entry, discard_entry. cbv zeta.
  match goal with
  | |- context [strip ?l] => generalize (strip l)
  end.
  intros targ. rewrite upper_idem. split; [| reflexivity].
  destruct (startswith targ "+").
  - right. change (upper ("+ " +:+ slice_from targ 1))
      with ("+ " +:+ upper (slice_from targ 1)).
    apply prefix_app.
  - left. change (upper (" " +:+ targ)) with (" " +:+ upper targ).
    apply prefix_app.
Qed.

Lemma read_discard_list_entries_witness :
  Forall (fun t => (startswith t " " = true \/ startswith t "+ " = true) /\
                   upper t = t)
    (read_discard_list ["capital_ # the city"; "+world cup"] [" RIOT"]).
Proof.
  apply (read_discard_list_entries ["capital_ # the city"; "+world cup"]
           [" RIOT"]).
  repeat constructor.
Defined.

(** ** Entity resolution *)

Section Resolution.

Variable G : PETRglobals.
Variable ActorDict : gmap string (list (pattern Z)).
Variable ActorCodes : list (list code_item).
Variable AgentDict : gmap string (list (pattern string)).
Variable SentenceOrdDate : Z.

Lemma find_actor_unknown nephrase :
  Forall (fun w => ActorDict !! w = None) nephrase ->
  find_actor G ActorDict ActorCodes SentenceOrdDate nephrase = Ok "".
Proof.
  induction 1 as [| w rest Hw _ IH]; [reflexivity |].
  cbn [find_actor]. rewrite Hw. cbn [mbind result_bind].
  change (0 <? slen "") with false. exact IH.
Qed.

Lemma find_agents_unknown nephrase :
  Forall (fun w => AgentDict !! w = None) nephrase ->
  find_agents AgentDict nephrase = [].
Proof.
  induction 1 as [| w rest Hw _ IH]; [reflexivity |].
  cbn [find_agents]. rewrite Hw. exact IH.
Qed.

(** X11. A phrase none of whose words is a key of [ActorDict] or of
    [AgentDict] is not coded: [check_NEphrase] returns [[False]]. *)
Theorem check_NEphrase_unknown_words (nephrase : list string) :
  Forall (fun w => ActorDict !! w = None /\ AgentDict !! w = None) nephrase ->
  check_NEphrase G ActorDict ActorCodes AgentDict SentenceOrdDate nephrase
  = Ok None.
Proof.
  intros H. unfold check_NEphrase.
  rewrite find_actor_unknown by (eapply Forall_impl; [exact H | intros ? [? ?]; assumption]).
  cbn [mbind result_bind].
  rewrite find_agents_unknown by (eapply Forall_impl; [exact H | intros ? [? ?]; assumption]).
  reflexivity.
Qed.

Lemma append_empty_r s : s +:+ "" = s.
Proof.
  induction s as [| c s IH]; [reflexivity |].
  replace (String c s +:+ "") with (String c (s +:+ "")) by reflexivity.
  now rewrite IH.
Qed.

Lemma assemble_code_extends agentlist : forall actorcode code,
  assemble_code agentlist actorcode = Ok code ->
  exists pre post, code = pre +:+ actorcode +:+ post.
Proof.
  induction agentlist as [| agentcode rest IH]; intros actorcode code.
  - intros [= <-]. exists "", "".
    change ("" +:+ actorcode +:+ "") with (actorcode +:+ "").
    now rewrite append_empty_r.
  - cbn [assemble_code]. destruct (char_at agentcode 0) as [c |]; [| discriminate].
    cbn [mbind result_bind].
    destruct (code_present _ _ _ _).
    + intros [= <-]. exists "", "".
    change ("" +:+ actorcode +:+ "") with (actorcode +:+ "").
    now rewrite append_empty_r.
    + destruct (Ascii.eqb c "~"); intros H; apply IH in H as (pre & post & ->).
      * exists pre, (slice_from agentcode 1 +:+ post).
        now rewrite app_assoc_string.
      * exists (pre +:+ slice_to agentcode (-1)), post.
        now rewrite !app_assoc_string.
Qed.

(** X12. With [WriteActorRoot] off, the code that [check_NEphrase] returns
    for a phrase in which an actor was found holds the actor's code as it
    is: agent codes are only put in front of it or after it. *)
Theorem agents_extend_actor_code (nephrase : list string)
  (actorcode code : string) :
  WriteActorRoot G = false ->
  find_actor G ActorDict ActorCodes SentenceOrdDate nephrase = Ok actorcode ->
  actorcode <> "" ->
  check_NEphrase G ActorDict ActorCodes AgentDict SentenceOrdDate nephrase
  = Ok (Some code) ->
  exists pre post, code = pre +:+ actorcode +:+ post.
Proof.
  intros HG Hactor Hne. unfold check_NEphrase. rewrite Hactor, HG.
  cbn [mbind result_bind].
  assert (Hlen : (slen actorcode =? 0) = false).
  { apply Z.eqb_neq. unfold slen. destruct actorcode; [congruence | cbn; lia]. }
  rewrite Hlen.
  destruct (llen (find_agents AgentDict nephrase) =? 0).
  - intros [= <-]. exists "", "".
    change ("" +:+ actorcode +:+ "") with (actorcode +:+ "").
    now rewrite append_empty_r.
  - destruct (assemble_code _ actorcode) as [c |] eqn:Hc; [| discriminate].
    cbn [mbind result_bind]. intros [= <-].
    eapply assemble_code_extends. exact Hc.
Qed.

End Resolution.

Lemma check_NEphrase_unknown_words_witness :
  check_NEphrase plain_options sample_ActorDict sample_ActorCodes
    sample_AgentDict 0 ["THE"; "OLD"; "BRIDGE"] = Ok None.
Proof.
  apply (check_NEphrase_unknown_words plain_options sample_ActorDict
           sample_ActorCodes sample_AgentDict 0 ["THE"; "OLD"; "BRIDGE"]).
  repeat constructor.
Defined.

Lemma agents_extend_actor_code_witness :
  exists pre post, "ISRGOVMIL" = pre +:+ "ISRGOV" +:+ post.
Proof.
  apply (agents_extend_actor_code plain_options sample_ActorDict
           sample_ActorCodes sample_AgentDict 0 ["ISRAELI"; "ARMY"]
           "ISRGOV" "ISRGOVMIL").
  - reflexivity.
  - vm_compute. reflexivity.
  - discriminate.
  - vm_compute. reflexivity.
Defined.

(** ** The code table of the actor dictionary *)

Section CodeTable.

Variable G : PETRglobals.

Lemma read_actor_line_index line rd rd' :
  rd_codeindex rd = llen (rd_ActorCodes rd) ->
  read_actor_line G line rd = Ok rd' ->
  rd_codeindex rd' = llen (rd_ActorCodes rd').
Proof.
  intros Hinv. unfold read_actor_line.
  destruct (String.prefix tab line).
  { destruct (read_date_restriction line); intros [= <-]; exact Hinv. }
  destruct (String.prefix "+" line).
  { destruct (store_phrase _ _ _); [| discriminate].
    cbn [mbind result_bind]. intros [= <-]. exact Hinv. }
  destruct (0 <? llen (rd_curlist rd)).
  - destruct (if WriteActorRoot G then _ else _) as [curlist |];
      [| discriminate].
    cbn [mbind result_bind].
    destruct (store_phrase _ _ _); [| discriminate].
    cbn [mbind result_bind]. intros [= <-]. reflexivity.
  - cbn [mbind result_bind].
    destruct (store_phrase _ _ _); [| discriminate].
    cbn [mbind result_bind]. intros [= <-]. exact Hinv.
Qed.

Lemma read_actor_lines_index lines : forall rd rd',
  rd_codeindex rd = llen (rd_ActorCodes rd) ->
  read_actor_lines G lines rd = Ok rd' ->
  rd_codeindex rd' = llen (rd_ActorCodes rd').
Proof.
  induction lines as [| line rest IH]; intros rd rd' Hinv.
  - intros [= <-]. exact Hinv.
  - cbn [read_actor_lines].
    destruct (slen line =? 0); [intros [= <-]; exact Hinv |].
    destruct (contains line "---STOP---"); [intros [= <-]; exact Hinv |].
    destruct (read_actor_line G line rd) as [rd1 |] eqn:H1; [| discriminate].
    cbn [mbind result_bind]. apply IH.
    eapply read_actor_line_index; eassumption.
Qed.

Lemma read_actor_lines_app lines rest : forall rd,
  Forall (fun l => 0 < slen l /\ contains l "---STOP---" = false) lines ->
  read_actor_lines G (lines ++ rest) rd =
  (rd' ← read_actor_lines G lines rd; read_actor_lines G rest rd').
Proof.
  induction lines as [| line lines IH]; intros rd Hall; [reflexivity |].
  apply Forall_cons in Hall as [[Hlen Hstop] Hall].
  cbn [app read_actor_lines]. rewrite Hstop.
  destruct (Z.eqb_spec (slen line) 0); [lia |].
  destruct (read_actor_line G line rd) as [rd1 |]; [| reflexivity].
  cbn [mbind result_bind]. apply IH. exact Hall.
Qed.

Lemma nth_py_at_length {A : Type} (l : list A) :
  nth_py l (llen l) = Raise IndexError.
Proof.
  unfold nth_py. assert (0 <= llen l) by (unfold llen; lia).
  destruct (Z.ltb_spec (llen l) 0); [lia |].
  rewrite Z.ltb_irrefl, andb_false_r. reflexivity.
Qed.

(** X13. The codes of the last entry of an actor dictionary never reach
    [ActorCodes]: when the last line read is a primary line, the phrase it
    stores under its first word carries the index [len(ActorCodes)], and
    [get_actor_code] raises [NameError] at that index. *)
Theorem last_actor_unresolvable (lines : list string) (line : string)
  (ActorDict dict : gmap string (list (pattern Z)))
  (ActorCodes codes : list (list code_item)) (SentenceOrdDate : Z)
  (key conn : string) (words : list (string * string)) :
  Forall (fun l => 0 < slen l /\ contains l "---STOP---" = false)
    (lines ++ [line]) ->
  String.prefix tab line = false -> String.prefix "+" line = false ->
  make_noun_list (primary_phrase line) = (key, conn) :: words ->
  read_actor_dictionary G (lines ++ [line]) ActorDict ActorCodes
  = Ok (dict, codes) ->
  (exists l, dict !! key = Some l /\
             {| pat_code := llen codes; pat_conn := conn;
                pat_words := words |} ∈ l) /\
  get_actor_code G codes SentenceOrdDate (llen codes) = Raise NameError.
Proof.
  intros Hall Htab Hplus Hnoun. unfold read_actor_dictionary.
  apply Forall_app in Hall as [Hall Hline].
  apply Forall_cons in Hline as [[Hlen Hstop] _].
  rewrite read_actor_lines_app by exact Hall.
  destruct (read_actor_lines G lines _) as [rd1 |] eqn:H1; [| discriminate].
  apply read_actor_lines_index in H1; [| reflexivity].
  cbn [mbind result_bind read_actor_lines]. rewrite Hstop.
  destruct (Z.eqb_spec (slen line) 0); [lia |].
  destruct (read_actor_line G line rd1) as [rd2 |] eqn:H2; [| discriminate].
  cbn [mbind result_bind]. intros [= <- <-].
  split; [| unfold get_actor_code; now rewrite nth_py_at_length].
  pose proof (read_actor_line_index _ _ _ H1 H2) as Hinv.
  revert H2. unfold read_actor_line. rewrite Htab, Hplus.
  match goal with
  | |- (?stored ≫= _) = _ -> _ =>
      destruct stored as [[[codes' codeindex'] curlist'] |]; [| discriminate]
  end.
  cbn [mbind result_bind].
  fold (primary_phrase line).
  unfold store_phrase. rewrite Hnoun. cbn [mbind result_bind].
  intros [= <-]. cbn [rd_ActorDict rd_ActorCodes rd_codeindex] in *.
  rewrite lookup_fmap, lookup_insert_eq. cbn [fmap option_fmap option_map].
  eexists. split; [reflexivity |].
  rewrite sort_by_len_perm. apply elem_of_app. right.
  rewrite Hinv. apply list_elem_of_singleton. reflexivity.
Qed.

End CodeTable.

Lemma last_actor_unresolvable_witness :
  (exists l, balkan_dict !! "ZAGREB" = Some l /\
             {| pat_code := llen balkan_codes; pat_conn := " ";
                pat_words := [] |} ∈ l) /\
  get_actor_code plain_options balkan_codes 0 (llen balkan_codes)
  = Raise NameError.
Proof.
  apply (last_actor_unresolvable plain_options (take 4 balkan_lines)
           "ZAGREB [HRV]" ∅ balkan_dict [] balkan_codes 0 "ZAGREB" " " []).
  - repeat constructor.
  - reflexivity.
  - reflexivity.
  - vm_compute. reflexivity.
  - vm_compute. reflexivity.
Defined.

(** ** Source and target *)

Lemma scan_down_last test seq :
  match scan_down test (reverse seq) (llen seq - 1) with
  | Some k => last_passing test seq k
  | None => Forall (fun w => test w = false) seq
  end.
Proof.
  induction seq as [| x seq IH] using rev_ind; [constructor |].
  rewrite reverse_app. cbn [reverse app scan_down].
  change (reverse [x]) with [x]. cbn [app scan_down].
  unfold llen. rewrite length_app. cbn [length].
  replace (Z.of_nat (length seq + 1) - 1) with (Z.of_nat (length seq)) by lia.
  destruct (test x) eqn:Hx.
  - split; [lia |]. rewrite Nat2Z.id. split.
    + exists x. split; [| exact Hx].
      rewrite lookup_app_r by lia. now rewrite Nat.sub_diag.
    + intros j w Hj Hlook. apply lookup_lt_Some in Hlook.
      rewrite length_app in Hlook. cbn [length] in Hlook. lia.
  - unfold llen in IH.
    replace (Z.of_nat (length seq) - 1 - 0) with (Z.of_nat (length seq) - 1)
      by lia.
    destruct (scan_down test (reverse seq) (Z.of_nat (length seq) - 1))
      as [k |].
    + destruct IH as (Hk & (w & Hw & Htest) & Hlater).
      split; [exact Hk |]. split.
      * exists w. split; [| exact Htest].
        rewrite lookup_app_l; [exact Hw |]. eapply lookup_lt_Some, Hw.
      * intros j w' Hj Hlook.
        destruct (Nat.lt_ge_cases j (length seq)) as [Hlt | Hge].
        -- rewrite lookup_app_l in Hlook by exact Hlt. eauto.
        -- rewrite lookup_app_r in Hlook by exact Hge.
           destruct (j - length seq)%nat; [| discriminate].
           injection Hlook as <-. exact Hx.
    + apply Forall_app. split; [exact IH |]. repeat constructor. exact Hx.
Qed.

(** X14. [find_source] raises nothing and changes [SourceLoc] only: it sets
    it to the last position of [UpperSeq] that holds a compound or a coded
    entity; when there is none, to the last position that holds an entity;
    and when there is no entity it leaves the globals as they are. *)
Theorem find_source_selects (st : state) :
  (find_source st).1 = Ok tt /\
  ((exists k, last_passing coded_entity (UpperSeq st) k /\
              (find_source st).2 = set_SourceLoc (k, true) st) \/
   (Forall (fun w => coded_entity w = false) (UpperSeq st) /\
    exists k, last_passing (fun w => contains w "(NE") (UpperSeq st) k /\
              (find_source st).2 = set_SourceLoc (k, true) st) \/
   (Forall (fun w => contains w "(NE" = false) (UpperSeq st) /\
    (find_source st).2 = st)).
Proof.
  unfold find_source, bindM, lift.
  pose proof (scan_down_last coded_entity (UpperSeq st)) as H1.
  pose proof (scan_down_last (fun w => contains w "(NE") (UpperSeq st)) as H2.
  destruct (scan_down coded_entity _ _) as [k |].
  - split; [reflexivity |]. left. exists k. split; [exact H1 | reflexivity].
  - destruct (scan_down (fun w => contains w "(NE") _ _) as [k |].
    + split; [reflexivity |]. right. left. split; [exact H1 |].
      exists k. split; [exact H2 | reflexivity].
    + split; [reflexivity |]. right. right. split; [exact H2 | reflexivity].
Qed.

Lemma scan_up_found test seq : forall k0 k,
  scan_up test seq k0 = Some k ->
  k0 <= k /\ exists w, seq !! Z.to_nat (k - k0) = Some w /\ test k w = true.
Proof.
  induction seq as [| x seq IH]; intros k0 k; [discriminate |].
  cbn [scan_up]. destruct (test k0 x) eqn:Hx.
  - intros [= <-]. split; [lia |]. exists x. rewrite Z.sub_diag. auto.
  - intros H. apply IH in H as (Hle & w & Hw & Ht).
    split; [lia |]. exists w. split; [| exact Ht].
    replace (Z.to_nat (k - k0)) with (S (Z.to_nat (k - (k0 + 1)))) by lia.
    exact Hw.
Qed.

Section SourceCode.

Variable G : PETRglobals.

(** The code list of a single entity in [UpperSeq]: the entity carries the
    null code, or the list holds the code that follows [>] in the item. *)
Lemma get_loccodes_single_upper st st1 k pre post codes :
  WriteActorText G = false ->
  nth_py (UpperSeq st) k = Ok (pre +:+ ">" +:+ post) ->
  find (pre +:+ ">" +:+ post) ">" 0 = slen pre ->
  contains (pre +:+ ">" +:+ post) "(NEC" = false ->
  get_loccodes G (k, true) st = (Ok codes, st1) ->
  post = "---" \/ codes = [post].
Proof.
  intros HG Hw Hfind Hnec.
  unfold get_loccodes.
  unfold bindM at 1. unfold modify at 1.
  unfold bindM at 1. unfold modify at 1.
  unfold bindM at 1. cbn [fst snd].
  change (UpperSeq (set_codelist [] (set_StoryEventList [] st)))
    with (UpperSeq st).
  rewrite Hw, Hnec.
  unfold add_code. unfold bindM at 1. unfold lift at 1.
  change (UpperSeq (set_codelist [] (set_StoryEventList [] st)))
    with (UpperSeq st).
  rewrite Hw, Hfind.
  assert (Hcode : slice_from (pre +:+ ">" +:+ post) (slen pre + 1) = post).
  { rewrite <- app_assoc_string.
    replace (slen pre + 1) with (slen (pre +:+ ">"))
      by (rewrite slen_app; reflexivity).
    apply slice_from_app. }
  rewrite Hcode.
  destruct (String.eqb_spec post "---") as [-> | Hne]; cbn [negb].
  - intros _. left. reflexivity.
  - unfold bindM at 1. unfold modify at 1.
    unfold bindM at 1. unfold lift at 1.
    rewrite HG. cbn [andb]. unfold ret.
    unfold bindM at 1. unfold modify at 1. cbn [codelist set_codelist app].
    change (llen [post] =? 0) with false. cbv iota.
    unfold bindM, lift. cbn [codelist set_codelist].
    intros [= <- _]. right. reflexivity.
Qed.

(** X15. With [WriteActorText] off and the source a single entity of
    [UpperSeq], [find_target] leaves [SourceLoc] as it is and either leaves
    [TargetLoc] as it is or sets it to the position of an entity other than
    the source. *)
Theorem find_target_not_source (st st' : state) (k : Z) (w : string) :
  WriteActorText G = false ->
  SourceLoc st = (k, true) -> 0 <= k ->
  nth_py (UpperSeq st) k = Ok w ->
  contains w "(NEC" = false -> contains w ">" = true ->
  find_target G st = (Ok tt, st') ->
  SourceLoc st' = SourceLoc st /\
  (TargetLoc st' = TargetLoc st \/
   TargetLoc st' <> SourceLoc st' /\
   exists w', nth_py (if (TargetLoc st').2 then UpperSeq st'
                      else LowerSeq st') (TargetLoc st').1 = Ok w' /\
              contains w' "(NE" = true).
Proof.
  intros HG Hsrc Hk Hw Hnec Hgt.
  unfold find_target. unfold bindM at 1. unfold lift at 1.
  unfold bindM at 1. rewrite Hsrc.
  pose proof (get_loccodes_keeps G (k, true) st) as Hkeep.
  destruct (get_loccodes G (k, true) st) as [[codes | e] st1] eqn:Hcodes;
    [| discriminate].
  cbn [snd] in Hkeep. unfold same_inputs in Hkeep.
  destruct Hkeep as (_ & HU & HL & _ & _ & _ & _ & HS & HT & _).
  apply contains_found in Hgt as (pre & post & -> & Hfind).
  pose proof (get_loccodes_single_upper _ _ _ _ _ _ HG Hw Hfind Hnec Hcodes)
    as Hcode.
  set (w := pre +:+ ">" +:+ post) in *.
  unfold bindM, lift. rewrite HS, Hsrc. cbn [fst].
  set (srccode := if llen codes =? 1 then ">" +:+ default "" (head codes)
                  else ">>>>").
  assert (Hself : (contains w "(NE" && negb (contains w ">---") &&
                   negb (contains w srccode)) = false).
  { destruct Hcode as [-> | ->].
    - replace w with (pre +:+ ">---" +:+ "") by reflexivity.
      rewrite (contains_app pre ">---" ""). rewrite andb_false_r. reflexivity.
    - subst srccode. change (llen [post] =? 1) with true. cbv iota.
      change (default "" (head [post])) with post.
      replace w with (pre +:+ (">" +:+ post) +:+ "")
        by (rewrite append_empty_r; reflexivity).
      rewrite (contains_app pre (">" +:+ post) ""). apply andb_false_r. }
  match goal with
  | |- match ?s with _ => _ end _ = _ -> _ =>
      destruct s as [kt |] eqn:H1
  end.
  { intros [= <-]. unfold modify. cbn.
    split; [congruence |]. right.
    split; [rewrite HS, Hsrc; congruence |].
    apply scan_up_found in H1 as (H0 & wt & Hwt & Htest).
    rewrite Z.sub_0_r in Hwt. exists wt.
    split; [apply nth_py_lookup; assumption |].
    apply andb_prop in Htest as [Htest _].
    apply andb_prop in Htest as [Htest _]. exact Htest. }
  match goal with
  | |- match ?s with _ => _ end _ = _ -> _ =>
      destruct s as [kt |] eqn:H2
  end.
  { intros [= <-]. unfold modify. cbn.
    split; [congruence |]. right.
    split; [rewrite HS, Hsrc; congruence |].
    apply scan_up_found in H2 as (H0 & wt & Hwt & Htest).
    rewrite Z.sub_0_r in Hwt. exists wt.
    split; [apply nth_py_lookup; assumption |].
    apply andb_prop in Htest as [Htest _]. exact Htest. }
  match goal with
  | |- match ?s with _ => _ end _ = _ -> _ =>
      destruct s as [kt |] eqn:H3
  end.
  { intros [= <-]. unfold modify. cbn.
    split; [congruence |]. right.
    apply scan_up_found in H3 as (H0 & wt & Hwt & Htest).
    rewrite Z.sub_0_r in Hwt. split.
    - rewrite HS, Hsrc. intros [= ->].
      rewrite HU in Hwt. apply nth_py_inv in Hw; [| exact Hk].
      rewrite Hw in Hwt. injection Hwt as <-. congruence.
    - exists wt. split; [apply nth_py_lookup; assumption |].
      apply andb_prop in Htest as [Htest _].
      apply andb_prop in Htest as [Htest _]. exact Htest. }
  match goal with
  | |- match ?s with _ => _ end _ = _ -> _ =>
      destruct s as [kt |] eqn:H4
  end.
  { intros [= <-]. unfold modify. cbn.
    split; [congruence |]. right.
    apply scan_up_found in H4 as (H0 & wt & Hwt & Htest).
    rewrite Z.sub_0_r in Hwt.
    apply andb_prop in Htest as [Htest Hother].
    apply andb_prop in Htest as [Htest _]. split.
    - rewrite HS, Hsrc. intros [= ->].
      rewrite Z.eqb_refl in Hother. discriminate.
    - exists wt. split; [apply nth_py_lookup; assumption | exact Htest]. }
  intros [= <-]. split; [congruence |]. left. exact HT.
Qed.

End SourceCode.

Lemma find_target_not_source_witness :
  SourceLoc (find_target plain_options
               (set_TargetLoc (-1, true) meeting_state)).2 = (2, true) /\
  TargetLoc (find_target plain_options
               (set_TargetLoc (-1, true) meeting_state)).2 = (0, false).
Proof.
  destruct (find_target_not_source plain_options
              (set_TargetLoc (-1, true) meeting_state)
              (find_target plain_options
                 (set_TargetLoc (-1, true) meeting_state)).2
              2 "(NE<2>USA") as [Hsrc _].
  - reflexivity.
  - reflexivity.
  - lia.
  - reflexivity.
  - reflexivity.
  - reflexivity.
  - vm_compute. reflexivity.
  - split; [exact Hsrc | vm_compute; reflexivity].
Defined.

(** ** The sequences around a verb *)

Lemma count_char_cons c d s :
  count_char c (String d s) = (if Ascii.eqb c d then 1 else 0) + count_char c s.
Proof. reflexivity. Qed.

Lemma count_char_app c s t :
  count_char c (s +:+ t) = count_char c s + count_char c t.
Proof.
  induction s as [| d s IH]; [reflexivity |].
  replace (String d s +:+ t) with (String d (s +:+ t)) by reflexivity.
  rewrite !count_char_cons, IH. lia.
Qed.

Lemma find_go_char c f r : forall i,
  count_char c f = 0 ->
  find_go (String c "") (f +:+ String c r) i = Some (i + String.length f)%nat.
Proof.
  induction f as [| d f IH]; intros i H.
  - rewrite Nat.add_0_r. change ("" +:+ String c r) with (String c r).
    cbn [find_go String.prefix].
    destruct (ascii_dec c c); [| contradiction].
    now rewrite prefix_empty.
  - rewrite count_char_cons in H. pose proof (count_char_nonneg c f).
    destruct (Ascii.eqb_spec c d) as [| Hne]; [lia |].
    replace (String d f +:+ String c r) with (String d (f +:+ String c r))
      by reflexivity.
    cbn [find_go String.prefix].
    destruct (ascii_dec c d); [contradiction |].
    rewrite IH by lia. f_equal. cbn [String.length]. lia.
Qed.

Lemma find_char c f r :
  count_char c f = 0 -> find (f +:+ String c r) (String c "") 0 = slen f.
Proof.
  intros H. rewrite find_from_start, find_go_char by exact H. reflexivity.
Qed.

Lemma pretty_N_char_not c n :
  is_digit c = false -> Ascii.eqb c (pretty_N_char n) = false.
Proof.
  intros Hc. apply Ascii.eqb_neq. intros ->.
  unfold pretty_N_char in Hc. repeat case_match; discriminate Hc.
Qed.

Lemma pretty_N_go_count c : forall x s,
  is_digit c = false ->
  count_char c (pretty_N_go x s) = count_char c s.
Proof.
  intros x s Hc. revert s.
  induction (N.lt_wf_0 x) as [x _ IH]. intros s.
  destruct (N.eq_dec x 0%N) as [-> | Hx]; [now rewrite pretty_N_go_0 |].
  rewrite pretty_N_go_step by lia.
  rewrite IH by (apply N.div_lt; lia).
  rewrite count_char_cons, pretty_N_char_not by exact Hc. lia.
Qed.

Lemma str_no_close k : count_char ">" (str k) = 0.
Proof.
  unfold str, pretty, pretty_Z.
  assert (Hpos : forall p : positive, count_char ">" (pretty p) = 0).
  { intros p. unfold pretty, pretty_positive, pretty, pretty_N.
    destruct (decide _); [reflexivity |].
    now rewrite pretty_N_go_count. }
  destruct k as [| p | p]; [reflexivity | apply Hpos |].
  rewrite count_char_app, Hpos. reflexivity.
Qed.

Lemma ne_item_shape kword code :
  ne_item "(NE" kword code = ("(NE<" +:+ str kword) +:+ ">" +:+ code.
Proof. unfold ne_item. rewrite app_assoc_string. reflexivity. Qed.

Section RoundTrip.

Variable G : PETRglobals.

(** X16. The item [(NE<k>code] that [get_upper_seq] builds for an entity
    gives its code back: with [WriteActorText] off and a code other than
    [---], [get_loccodes] at the item returns the list of that one code,
    whatever characters the code holds. *)
Theorem entity_item_round_trip (st : state) (i kword : Z) (code : string) :
  WriteActorText G = false ->
  nth_py (UpperSeq st) i = Ok (ne_item "(NE" kword code) ->
  contains (ne_item "(NE" kword code) "(NEC" = false ->
  code <> "---" ->
  (get_loccodes G (i, true) st).1 = Ok [code].
Proof.
  intros HG Hitem Hnec Hcode.
  pose proof (ne_item_shape kword code) as Hshape.
  assert (Hfind : find (("(NE<" +:+ str kword) +:+ ">" +:+ code) ">" 0
                  = slen ("(NE<" +:+ str kword)).
  { apply find_char. rewrite count_char_app, str_no_close. reflexivity. }
  rewrite Hshape in Hitem, Hnec.
  destruct (get_loccodes G (i, true) st) as [[codes | e] st1] eqn:Hget.
  - destruct (get_loccodes_single_upper G _ _ _ _ _ _ HG Hitem Hfind Hnec Hget)
      as [-> | ->]; [contradiction | reflexivity].
  - exfalso. revert Hget.
    unfold get_loccodes.
    unfold bindM at 1. unfold modify at 1.
    unfold bindM at 1. unfold modify at 1.
    unfold bindM at 1. cbn [fst snd].
    change (UpperSeq (set_codelist [] (set_StoryEventList [] st)))
      with (UpperSeq st).
    rewrite Hitem, Hnec.
    unfold add_code. unfold bindM at 1. unfold lift at 1.
    change (UpperSeq (set_codelist [] (set_StoryEventList [] st)))
      with (UpperSeq st).
    rewrite Hitem, Hfind.
    replace (slice_from (("(NE<" +:+ str kword) +:+ ">" +:+ code)
               (slen ("(NE<" +:+ str kword) + 1)) with code.
    + destruct (String.eqb_spec code "---"); [contradiction |]. cbn [negb].
      unfold bindM at 1. unfold modify at 1.
      unfold bindM at 1. unfold lift at 1.
      rewrite HG. cbn [andb]. unfold ret.
      unfold bindM at 1. unfold modify at 1. cbn [codelist set_codelist app].
      change (llen [code] =? 0) with false. cbv iota.
      unfold bindM, lift. discriminate.
    + symmetry. rewrite <- app_assoc_string.
      replace (slen ("(NE<" +:+ str kword) + 1)
        with (slen (("(NE<" +:+ str kword) +:+ ">"))
        by (rewrite slen_app; reflexivity).
      apply slice_from_app.
Qed.

End RoundTrip.

Lemma entity_item_round_trip_witness :
  (get_loccodes plain_options (2, true) meeting_state).1 = Ok ["USA"].
Proof.
  apply (entity_item_round_trip plain_options meeting_state 2 2 "USA");
    [reflexivity | reflexivity | reflexivity | discriminate].
Defined.

(** *** Rules for [triple] *)

Lemma triple_ret {A : Type} (P : state -> Prop) (a : A) Q E :
  (forall st, P st -> Q a st) -> triple P (ret a) Q E.
Proof. intros H st HP. apply H, HP. Qed.

Lemma triple_raise {A : Type} (P : state -> Prop) e (Q : A -> state -> Prop)
  (E : state -> Prop) :
  (forall st, P st -> E st) -> triple P (raise e) Q E.
Proof. intros H st HP. apply H, HP. Qed.

Lemma triple_lift {A : Type} (P : state -> Prop) (f : state -> result A)
  (E : state -> Prop) :
  (forall st, P st -> E st) ->
  triple P (lift f) (fun a st => P st /\ f st = Ok a) E.
Proof.
  intros H st HP. unfold lift. destruct (f st) eqn:Hf; auto.
Qed.

Lemma triple_modify (P : state -> Prop) (f : state -> state)
  (Q : unit -> state -> Prop) E :
  (forall st, P st -> Q tt (f st)) -> triple P (modify f) Q E.
Proof. intros H st HP. apply H, HP. Qed.

Lemma triple_bind {A B : Type} (P : state -> Prop) (c : M A) (k : A -> M B)
  (R : A -> state -> Prop) (Q : B -> state -> Prop) E :
  triple P c R E -> (forall a, triple (R a) (k a) Q E) ->
  triple P (bindM c k) Q E.
Proof.
  intros Hc Hk st HP. unfold bindM. specialize (Hc st HP).
  destruct (c st) as [[a | e] st']; [apply Hk, Hc | exact Hc].
Qed.

Lemma triple_pure {A : Type} (P : state -> Prop) (fact : Prop) (c : M A) Q E :
  (fact -> triple P c Q E) -> triple (fun st => P st /\ fact) c Q E.
Proof. intros H st [HP Hfact]. apply H; assumption. Qed.

Lemma triple_pre {A : Type} (P P' : state -> Prop) (c : M A) Q E :
  (forall st, P st -> P' st) -> triple P' c Q E -> triple P c Q E.
Proof. intros H Hc st HP. apply Hc, H, HP. Qed.

Lemma nth_py_elem {A : Type} (l : list A) (k : Z) (x : A) :
  nth_py l k = Ok x -> x ∈ l.
Proof.
  unfold nth_py. destruct (_ && _); [| discriminate].
  destruct (l !! _) eqn:H; [| discriminate].
  intros [= <-]. eapply list_elem_of_lookup_2. exact H.
Qed.

(** *** The items of the two sequences *)

Section Items.

Variable pl : list string.

Lemma seq_item_entity kword code :
  nth_py pl kword = Ok "(NE" -> seq_item pl (ne_item "(NE" kword code).
Proof. intros H. left. exists kword, code. auto. Qed.

Lemma seq_item_marker tok kword :
  nth_py pl kword = Ok tok ->
  contains tok "NEC" = true \/ contains tok "~NE" = true ->
  seq_item pl tok.
Proof.
  intros Htok H. right. split; [eapply nth_py_elem, Htok |].
  destruct H; auto.
Qed.

Lemma seq_item_token tok kword c :
  nth_py pl kword = Ok tok -> char_at tok 0 = Ok c ->
  negb (Ascii.eqb c "(") && negb (Ascii.eqb c "~") = true ->
  seq_item pl tok.
Proof.
  intros Htok Hc Hplain. right. split; [eapply nth_py_elem, Htok |].
  right. right. exists c. split; [exact Hc |].
  apply andb_prop in Hplain as [H1 H2].
  apply negb_true_iff in H1, H2.
  split; apply Ascii.eqb_neq; assumption.
Qed.

Lemma lower_items_push st x :
  lower_items pl st -> seq_item pl x ->
  lower_items pl (set_LowerSeq (LowerSeq st ++ [x]) st).
Proof.
  intros [[Hpl Hup] Hlow] Hx. repeat split; [exact Hpl | exact Hup |].
  apply Forall_app. split; [exact Hlow | constructor; [exact Hx | constructor]].
Qed.

Lemma upper_items_push st x :
  upper_items pl st -> seq_item pl x ->
  upper_items pl (set_UpperSeq (UpperSeq st ++ [x]) st).
Proof.
  intros [Hpl Hup] Hx. split; [exact Hpl |].
  apply Forall_app. split; [exact Hup | constructor; [exact Hx | constructor]].
Qed.

Lemma lower_items_parse st : lower_items pl st -> ParseList st = pl.
Proof. intros [[H _] _]. exact H. Qed.

Lemma upper_items_parse st : upper_items pl st -> ParseList st = pl.
Proof. intros [H _]. exact H. Qed.

Lemma lower_seq_loop_items endtag n : forall kword,
  triple (lower_items pl) (lower_seq_loop endtag n kword)
    (fun _ => lower_items pl) (lower_items pl).
Proof.
  assert (Hbody : forall (rec : Z -> M unit) kword,
    (forall kw, triple (lower_items pl) (rec kw)
                  (fun _ => lower_items pl) (lower_items pl)) ->
    triple (lower_items pl)
      (let* tok := lift (fun st => nth_py (ParseList st) kword) in
       if contains tok endtag then ret tt
       else
         let* kword :=
           (if String.eqb "(NE" tok then
              let* code :=
                lift (fun st => nth_py (ParseList st) (kword + 1)) in
              let* _ :=
                modify (fun st =>
                          set_LowerSeq
                            (LowerSeq st ++ [ne_item tok kword code]) st) in
              ret (kword + 1)
            else if contains tok "NEC" then
              let* _ :=
                modify (fun st => set_LowerSeq (LowerSeq st ++ [tok]) st) in
              ret kword
            else if contains tok "~NE" then
              let* _ :=
                modify (fun st => set_LowerSeq (LowerSeq st ++ [tok]) st) in
              ret kword
            else
              let* c := lift (fun _ => char_at tok 0) in
              if negb (Ascii.eqb c "(") && negb (Ascii.eqb c "~") then
                let* _ :=
                  modify (fun st =>
                            set_LowerSeq (LowerSeq st ++ [tok]) st) in
                ret kword
              else ret kword) in
         let* len := lift (fun st => Ok (llen (ParseList st))) in
         if len <=? kword + 1 then
           raise_ParseList_error "Bounds overflow in get_lower_seq()"
         else rec (kword + 1))
      (fun _ => lower_items pl) (lower_items pl)).
  { intros rec kword Hrec.
    eapply triple_bind; [apply triple_lift; auto |].
    intros tok. cbv beta.
    apply (triple_pre _ (fun st => lower_items pl st /\
                                   nth_py pl kword = Ok tok)).
    { intros st [Hst Htok]. split; [exact Hst |].
      rewrite <- (lower_items_parse _ Hst). exact Htok. }
    apply triple_pure. intros Htok.
    destruct (contains tok endtag); [apply triple_ret; auto |].
    eapply triple_bind with (R := fun _ => lower_items pl).
    - destruct (String.eqb_spec "(NE" tok) as [<- | _].
      + eapply triple_bind; [apply triple_lift; auto |].
        intros code. eapply triple_bind with (R := fun _ => lower_items pl);
          [| intros _; apply triple_ret; auto].
        apply triple_modify. intros st2 [Hst2 _].
        apply lower_items_push; [exact Hst2 |].
        apply seq_item_entity. exact Htok.
      + destruct (contains tok "NEC") eqn:Hnec.
        { eapply triple_bind with (R := fun _ => lower_items pl);
            [| intros _; apply triple_ret; auto].
          apply triple_modify. intros st2 Hst2.
          apply lower_items_push; [exact Hst2 |].
          eapply seq_item_marker; [exact Htok | left; exact Hnec]. }
        destruct (contains tok "~NE") eqn:Hcl.
        { eapply triple_bind with (R := fun _ => lower_items pl);
            [| intros _; apply triple_ret; auto].
          apply triple_modify. intros st2 Hst2.
          apply lower_items_push; [exact Hst2 |].
          eapply seq_item_marker; [exact Htok | right; exact Hcl]. }
        eapply triple_bind; [apply triple_lift; auto |].
        intros c. cbv beta.
        apply (triple_pure (lower_items pl) (char_at tok 0 = Ok c)).
        intros Hc.
        destruct (negb (Ascii.eqb c "(") && negb (Ascii.eqb c "~"))
          eqn:Hplain; [| apply triple_ret; auto].
        eapply triple_bind with (R := fun _ => lower_items pl);
          [| intros _; apply triple_ret; auto].
        apply triple_modify. intros st2 Hst2.
        apply lower_items_push; [exact Hst2 |].
        eapply seq_item_token; [exact Htok | exact Hc | exact Hplain].
    - intros kw.
      eapply triple_bind; [apply triple_lift; auto |].
      intros len. cbv beta.
      destruct (len <=? kw + 1).
      + apply triple_raise. tauto.
      + intros st2 [Hst2 _]. apply Hrec. exact Hst2. }
  induction n as [| n IH]; intros kword.
  - apply (Hbody (fun _ => raise_ParseList_error
                             "Bounds overflow in get_lower_seq()")).
    intros _. apply triple_raise. auto.
  - apply (Hbody (lower_seq_loop endtag n)). exact IH.
Qed.

Lemma upper_items_pop st code r x :
  upper_items pl st -> reverse (UpperSeq st) = code :: r -> seq_item pl x ->
  upper_items pl (set_UpperSeq (reverse r ++ [x]) st).
Proof.
  intros [Hpl Hup] Hrev Hx. split; [exact Hpl |].
  apply (f_equal reverse) in Hrev.
  rewrite reverse_involutive, reverse_cons in Hrev.
  cbn [UpperSeq set_UpperSeq]. rewrite Hrev in Hup.
  apply Forall_app in Hup as [Hr _].
  apply Forall_app. split; [exact Hr | constructor; [exact Hx | constructor]].
Qed.

Lemma upper_seq_loop_items ParseStart n : forall kword,
  triple (upper_items pl) (upper_seq_loop ParseStart n kword)
    (fun _ => upper_items pl) (upper_items pl).
Proof.
  assert (Hbody : forall (rec : Z -> M unit) kword,
    (forall kw, triple (upper_items pl) (rec kw)
                  (fun _ => upper_items pl) (upper_items pl)) ->
    triple (upper_items pl)
      (if ParseStart <=? kword then
         let* tok := lift (fun st => nth_py (ParseList st) kword) in
         if contains tok "~," then ret tt
         else
           let* _ :=
             (if String.eqb "(NE" tok then pop_code_push_item tok kword
              else if contains tok "NEC" then
                modify (fun st => set_UpperSeq (UpperSeq st ++ [tok]) st)
              else if contains tok "~NE" then
                modify (fun st => set_UpperSeq (UpperSeq st ++ [tok]) st)
              else
                let* c := lift (fun _ => char_at tok 0) in
                if negb (Ascii.eqb c "(") && negb (Ascii.eqb c "~") then
                  modify (fun st => set_UpperSeq (UpperSeq st ++ [tok]) st)
                else ret tt) in
           if kword - 1 <? 0 then
             raise_ParseList_error "Bounds underflow in get_upper_seq()"
           else rec (kword - 1)
       else ret tt)
      (fun _ => upper_items pl) (upper_items pl)).
  { intros rec kword Hrec.
    destruct (ParseStart <=? kword); [| apply triple_ret; auto].
    eapply triple_bind; [apply triple_lift; auto |].
    intros tok. cbv beta.
    apply (triple_pre _ (fun st => upper_items pl st /\
                                   nth_py pl kword = Ok tok)).
    { intros st [Hst Htok]. split; [exact Hst |].
      rewrite <- (upper_items_parse _ Hst). exact Htok. }
    apply triple_pure. intros Htok.
    destruct (contains tok "~,"); [apply triple_ret; auto |].
    eapply triple_bind with (R := fun _ => upper_items pl).
    - destruct (String.eqb_spec "(NE" tok) as [<- | _].
      + intros st Hst. unfold pop_code_push_item.
        destruct (reverse (UpperSeq st)) as [| code r] eqn:Hrev;
          [exact Hst |].
        eapply upper_items_pop; [exact Hst | exact Hrev |].
        apply seq_item_entity. exact Htok.
      + destruct (contains tok "NEC") eqn:Hnec.
        { apply triple_modify. intros st2 Hst2.
          apply upper_items_push; [exact Hst2 |].
          eapply seq_item_marker; [exact Htok | left; exact Hnec]. }
        destruct (contains tok "~NE") eqn:Hcl.
        { apply triple_modify. intros st2 Hst2.
          apply upper_items_push; [exact Hst2 |].
          eapply seq_item_marker; [exact Htok | right; exact Hcl]. }
        eapply triple_bind; [apply triple_lift; auto |].
        intros c. cbv beta.
        apply (triple_pure (upper_items pl) (char_at tok 0 = Ok c)).
        intros Hc.
        destruct (negb (Ascii.eqb c "(") && negb (Ascii.eqb c "~"))
          eqn:Hplain; [| apply triple_ret; auto].
        apply triple_modify. intros st2 Hst2.
        apply upper_items_push; [exact Hst2 |].
        eapply seq_item_token; [exact Htok | exact Hc | exact Hplain].
    - intros _. destruct (kword - 1 <? 0).
      + apply triple_raise. auto.
      + apply Hrec. }
  induction n as [| n IH]; intros kword.
  - apply (Hbody (fun _ => raise_ParseList_error
                             "Bounds underflow in get_upper_seq()")).
    intros _. apply triple_raise. auto.
  - apply (Hbody (upper_seq_loop ParseStart n)). exact IH.
Qed.

End Items.

(** X17. When [make_check_sequences] returns, [ParseList] is unchanged and
    every element of [UpperSeq] and of [LowerSeq] is the item of an entity
    that starts at an [(NE] of the parse, a token of the parse that holds
    [NEC] or [~NE], or a token of the parse that starts with neither [(]
    nor [~]. *)
Theorem make_check_sequences_items (ParseStart verbloc : Z) (endtag : string)
  (st st' : state) :
  make_check_sequences ParseStart verbloc endtag st = (Ok tt, st') ->
  ParseList st' = ParseList st /\
  Forall (seq_item (ParseList st)) (UpperSeq st') /\
  Forall (seq_item (ParseList st)) (LowerSeq st').
Proof.
  intros Hrun. set (pl := ParseList st).
  assert (Hupper : triple (fun s => ParseList s = pl)
                     (get_upper_seq ParseStart (verbloc - 1))
                     (fun _ => upper_items pl) (fun _ => True)).
  { unfold get_upper_seq.
    eapply triple_bind with (R := fun _ => upper_items pl).
    - apply triple_modify. intros s Hs. split; [exact Hs | constructor].
    - intros _ s Hs.
      pose proof (upper_seq_loop_items pl ParseStart
                    (Z.to_nat (verbloc - 1)) (verbloc - 1) s Hs) as H.
      destruct (upper_seq_loop _ _ _ s) as [[[] | e] s']; [exact H | exact I]. }
  assert (Hlower : triple (upper_items pl)
                     (get_lower_seq (verbloc + 1) endtag)
                     (fun _ => lower_items pl) (fun _ => True)).
  { unfold get_lower_seq.
    eapply triple_bind with (R := fun _ => lower_items pl).
    - apply triple_modify. intros s Hs. split; [exact Hs | constructor].
    - intros _.
      eapply triple_bind; [apply triple_lift; auto |].
      intros len s [Hs _].
      pose proof (lower_seq_loop_items pl endtag
                    (Z.to_nat (len - (verbloc + 1))) (verbloc + 1) s Hs) as H.
      destruct (lower_seq_loop _ _ _ s) as [[[] | e] s']; [exact H | exact I]. }
  pose proof (triple_bind _ _ (fun _ => get_lower_seq (verbloc + 1) endtag)
                _ _ _ Hupper (fun _ => Hlower) st eq_refl) as H.
  unfold make_check_sequences in Hrun. rewrite Hrun in H.
  destruct H as [[Hpl Hup] Hlow]. auto.
Qed.

Lemma make_check_sequences_items_witness :
  Forall (seq_item sample_parse) ["~NE"; "WASHINGTON"; "(NE<2>USA"] /\
  Forall (seq_item sample_parse) ["(NE<10>RUS"; "MOSCOW"; "~NE"].
Proof.
  refine (proj2 (make_check_sequences_items 2 8 "~VP" parsed_state
                   (set_LowerSeq ["(NE<10>RUS"; "MOSCOW"; "~NE"]
                      (set_UpperSeq ["~NE"; "WASHINGTON"; "(NE<2>USA"]
                         parsed_state)) _)).
  vm_compute. reflexivity.
Defined.

(** ** Issues *)

Lemma count_issue_keys code issues :
  (count_issue code issues).*1 =
  if bool_decide (code ∈ issues.*1) then issues.*1 else issues.*1 ++ [code].
Proof.
  induction issues as [| [c n] rest IH]; [reflexivity |].
  cbn [count_issue]. destruct (String.eqb_spec code c) as [-> | Hne].
  - cbn [fmap list_fmap fst]. rewrite bool_decide_eq_true_2; [reflexivity |].
    left.
  - cbn [fmap list_fmap fst] in *. rewrite IH.
    destruct (bool_decide (code ∈ rest.*1)) eqn:Hin.
    + apply bool_decide_eq_true_1 in Hin.
      rewrite bool_decide_eq_true_2; [reflexivity | right; exact Hin].
    + apply bool_decide_eq_false_1 in Hin.
      rewrite bool_decide_eq_false_2; [reflexivity |].
      intros H. apply elem_of_cons in H as [? | ?]; auto.
Qed.

Lemma count_issue_NoDup code issues :
  NoDup issues.*1 -> NoDup (count_issue code issues).*1.
Proof.
  intros H. rewrite count_issue_keys.
  destruct (bool_decide (code ∈ issues.*1)) eqn:Hin; [exact H |].
  apply bool_decide_eq_false_1 in Hin.
  apply NoDup_app. split; [exact H |]. split.
  - intros x Hx Hx'. apply list_elem_of_singleton in Hx'. subst x. auto.
  - apply NoDup_singleton.
Qed.

Lemma count_issue_positive code issues :
  Forall (fun issue => 1 <= issue.2) issues ->
  Forall (fun issue => 1 <= issue.2) (count_issue code issues).
Proof.
  induction 1 as [| [c n] rest Hn Hrest IH];
    [constructor; [cbn [snd]; lia | constructor] |].
  cbn [count_issue]. cbn [snd] in Hn.
  destruct (String.eqb code c); constructor; cbn [snd]; auto; lia.
Qed.

Lemma count_issue_total code issues :
  total_count (count_issue code issues) = total_count issues + 1.
Proof.
  induction issues as [| [c n] rest IH]; [reflexivity |].
  cbn [count_issue]. destruct (String.eqb code c).
  - unfold total_count. cbn [foldr snd]. lia.
  - unfold total_count in *. cbn [foldr snd]. rewrite IH. lia.
Qed.

Lemma get_issues_loop_tally sent IssueCodes targets : forall issues found,
  NoDup issues.*1 -> Forall (fun issue => 1 <= issue.2) issues ->
  get_issues_loop sent IssueCodes targets issues = Ok found ->
  NoDup found.*1 /\ Forall (fun issue => 1 <= issue.2) found /\
  (found = [] \/
   total_count found =
   total_count issues + llen (matching_targets sent targets)).
Proof.
  induction targets as [| target rest IH]; intros issues found Hnd Hpos.
  - intros [= <-]. split; [exact Hnd |]. split; [exact Hpos |].
    right. unfold matching_targets, llen. cbn. lia.
  - cbn [get_issues_loop]. unfold matching_targets.
    rewrite filter_cons.
    destruct (decide (contains sent target.1 = true)) as [Hin | Hout].
    + rewrite Hin. destruct (nth_py IssueCodes target.2) as [code |];
        [| discriminate].
      cbn [mbind result_bind].
      destruct (char_at code 0) as [c |]; [| discriminate].
      cbn [mbind result_bind].
      destruct (Ascii.eqb c "~").
      * intros [= <-]. split; [constructor |]. split; [constructor |].
        left. reflexivity.
      * intros H. apply IH in H as (H1 & H2 & H3);
          [| apply count_issue_NoDup; exact Hnd
           | apply count_issue_positive; exact Hpos].
        split; [exact H1 |]. split; [exact H2 |].
        destruct H3 as [-> | H3]; [left; reflexivity | right].
        rewrite H3, count_issue_total. unfold matching_targets, llen.
        cbn [length]. lia.
    + apply not_true_is_false in Hout. rewrite Hout. apply IH; assumption.
Qed.

(** X18. The list that [get_issues] returns names no code twice and every
    count in it is at least one; it is empty, or its counts add up to the
    number of entries of [IssueList] that occur in the upper-case text. *)
Theorem get_issues_tally (SentenceText : string)
  (IssueList : list (string * Z)) (IssueCodes : list string)
  (issues : list (string * Z)) :
  get_issues SentenceText IssueList IssueCodes = Ok issues ->
  NoDup issues.*1 /\ Forall (fun issue => 1 <= issue.2) issues /\
  (issues = [] \/
   total_count issues =
   llen (matching_targets (upper SentenceText) IssueList)).
Proof.
  unfold get_issues. intros H.
  apply get_issues_loop_tally in H; [exact H | constructor | constructor].
Qed.

Lemma get_issues_tally_witness :
  NoDup [("ENERGY", 2)].*1 /\
  Forall (fun issue : string * Z => 1 <= issue.2) [("ENERGY", 2)] /\
  ([("ENERGY", 2)] = [] \/
   total_count [("ENERGY", 2)] =
   llen (matching_targets
           (upper "Oil prices and oil exports fell; talks on trade")
           [(" OIL ", 2); (" TRADE ", 3); (" EXPORTS ", 2)])).
Proof.
  apply (get_issues_tally "Oil prices and oil exports fell; talks on trade"
           [(" OIL ", 2); (" TRADE ", 3); (" EXPORTS ", 2)]
           ["~"; "~~"; "ENERGY"; "TRADE"]).
  vm_compute. reflexivity.
Defined.

(** ** Phrase matching *)

Lemma phrase_match_loop_last frag : forall connector words last last',
  words <> [] ->
  phrase_match_loop connector (words ++ [last]) frag =
  phrase_match_loop connector (words ++ [last']) frag.
Proof.
  induction frag as [| w frag IH]; intros connector words last last' Hne.
  - destruct words; [contradiction | reflexivity].
  - destruct words as [| [word conn] words]; [contradiction |].
    cbn [app phrase_match_loop].
    destruct (String.eqb w word).
    + destruct words as [| next words]; [reflexivity |].
      cbn [app length]. rewrite !length_app. cbn [length].
      replace (S (length words + 1) <=? 1)%nat with false
        by (symmetry; apply Nat.leb_gt; lia).
      apply (IH conn (next :: words)). discriminate.
    + destruct (String.eqb connector "_"); [reflexivity |].
      apply (IH connector ((word, conn) :: words)). discriminate.
Qed.

(** X19. [actor_phrase_match] does not compare the last word of a pattern of
    three or more words: two patterns that differ in the last element
    only match the same phrases. *)
Theorem last_pattern_word_not_compared {C : Type} (code : C)
  (connector : string) (words : list (string * string))
  (last last' : string * string) (phrasefrag : list string) :
  words <> [] ->
  actor_phrase_match
    {| pat_code := code; pat_conn := connector;
       pat_words := words ++ [last] |} phrasefrag =
  actor_phrase_match
    {| pat_code := code; pat_conn := connector;
       pat_words := words ++ [last'] |} phrasefrag.
Proof.
  intros Hne. unfold actor_phrase_match. cbn [pat_words pat_conn].
  destruct words as [| [word conn] words]; [contradiction |].
  cbn [app].
  assert (Hloop : forall frag,
            phrase_match_loop connector (((word, conn) :: words) ++ [last])
              frag =
            phrase_match_loop connector (((word, conn) :: words) ++ [last'])
              frag)
    by (intros frag; apply phrase_match_loop_last; discriminate).
  cbn [app] in Hloop.
  destruct word, words, phrasefrag as [| w0 [| w1 rest]];
    try reflexivity; apply Hloop.
Qed.

Lemma last_pattern_word_not_compared_witness :
  actor_phrase_match council_pattern
    ["UNITED"; "NATIONS"; "SECURITY"; "FORCE"] =
  actor_phrase_match
    {| pat_code := 1; pat_conn := "_";
       pat_words := [("NATIONS", "_"); ("SECURITY", "_"); ("FORCE", " ")] |}
    ["UNITED"; "NATIONS"; "SECURITY"; "FORCE"].
Proof.
  apply (last_pattern_word_not_compared 1 "_"
           [("NATIONS", "_"); ("SECURITY", "_")] ("COUNCIL", " ")
           ("FORCE", " ") ["UNITED"; "NATIONS"; "SECURITY"; "FORCE"]).
  discriminate.
Defined.

(** ** Noun lists *)

Lemma find_go_shift sub s : forall i,
  find_go sub s i = (fun j => (j + i)%nat) <$> find_go sub s 0.
Proof.
  induction s as [| c s IH]; intros i; cbn [find_go].
  - destruct (String.prefix sub ""); reflexivity.
  - destruct (String.prefix sub (String c s)); [reflexivity |].
    rewrite (IH (S i)), (IH 1%nat).
    destruct (find_go sub s 0); cbn; [f_equal; lia | reflexivity].
Qed.

Lemma find_from done rest sub :
  find (done +:+ rest) sub (slen done) =
  match find_go sub rest 0 with
  | Some j => slen done + Z.of_nat j
  | None => -1
  end.
Proof.
  unfold find. rewrite slen_app.
  pose proof (slen_nonneg done). pose proof (slen_nonneg rest).
  destruct (Z.ltb_spec (slen done + slen rest) (slen done)); [lia |].
  rewrite clamp_inside by lia.
  replace (Z.to_nat (slen done)) with (String.length done)
    by (unfold slen; lia).
  rewrite string_length_app.
  replace (String.length done + String.length rest - String.length done)%nat
    with (String.length rest) by lia.
  rewrite substring_app_r, find_go_shift.
  destruct (find_go sub rest 0); cbn; [unfold slen; lia | reflexivity].
Qed.

Lemma find_go_char_none c s : forall i,
  count_char c s = 0 -> find_go (String c "") s i = None.
Proof.
  induction s as [| d s IH]; intros i H; [reflexivity |].
  rewrite count_char_cons in H. pose proof (count_char_nonneg c s).
  destruct (Ascii.eqb_spec c d); [lia |].
  cbn [find_go String.prefix]. destruct (ascii_dec c d); [contradiction |].
  apply IH. lia.
Qed.

Lemma find_go_char_later c d rest : forall w,
  count_char c w = 0 -> c <> d ->
  match find_go (String c "") (w +:+ String d rest) 0 with
  | Some j => (String.length w < j)%nat
  | None => True
  end.
Proof.
  induction w as [| e w IH]; intros Hw Hcd.
  - change ("" +:+ String d rest) with (String d rest).
    cbn [find_go String.prefix]. destruct (ascii_dec c d); [contradiction |].
    rewrite find_go_shift. destruct (find_go (String c "") rest 0); cbn; lia.
  - rewrite count_char_cons in Hw. pose proof (count_char_nonneg c w).
    destruct (Ascii.eqb_spec c e); [lia |].
    replace (String e w +:+ String d rest)
      with (String e (w +:+ String d rest)) by reflexivity.
    cbn [find_go String.prefix]. destruct (ascii_dec c e); [contradiction |].
    rewrite find_go_shift. specialize (IH ltac:(lia) Hcd).
    destruct (find_go (String c "") (w +:+ String d rest) 0); cbn in *; lia.
Qed.

Lemma sep_split rest :
  (count_char " " rest = 0 /\ count_char "_" rest = 0) \/
  exists w sep rest',
    rest = w +:+ String sep rest' /\
    count_char " " w = 0 /\ count_char "_" w = 0 /\
    (sep = " "%char \/ sep = "_"%char).
Proof.
  induction rest as [| c rest IH]; [left; split; reflexivity |].
  destruct (Ascii.eqb_spec " " c) as [<- | Hsp].
  { right. exists "", " "%char, rest. repeat split. left. reflexivity. }
  destruct (Ascii.eqb_spec "_" c) as [<- | Hun].
  { right. exists "", "_"%char, rest. repeat split. right. reflexivity. }
  assert (Hc : forall d, d <> c -> (if Ascii.eqb d c then 1 else 0) = 0)
    by (intros d Hd; destruct (Ascii.eqb_spec d c); [contradiction | reflexivity]).
  destruct IH as [[H1 H2] | (w & sep & rest' & -> & H1 & H2 & Hsep)].
  - left. rewrite !count_char_cons, H1, H2, !Hc by assumption. split; reflexivity.
  - right. exists (String c w), sep, rest'.
    rewrite !count_char_cons, H1, H2, !Hc by assumption. repeat split.
    exact Hsep.
Qed.

Lemma substring_middle a b c :
  substring (String.length a) (String.length b) (a +:+ b +:+ c) = b.
Proof.
  induction a as [| d a IH].
  - change ("" +:+ b +:+ c) with (b +:+ c). apply substring_app_l.
  - exact IH.
Qed.

Lemma slice_middle a b c :
  slice (a +:+ b +:+ c) (slen a) (slen a + slen b) = b.
Proof.
  pose proof (slen_nonneg a). pose proof (slen_nonneg b).
  pose proof (slen_nonneg c).
  unfold slice. rewrite !slen_app, !clamp_inside by lia.
  replace (slen a + slen b - slen a) with (slen b) by lia.
  unfold slen. rewrite !Nat2Z.id. apply substring_middle.
Qed.

Lemma slice_tail a b (hi : Z) :
  slen a + slen b <= hi -> slice (a +:+ b) (slen a) hi = b.
Proof.
  intros Hhi. pose proof (slen_nonneg a). pose proof (slen_nonneg b).
  unfold slice. rewrite !slen_app, clamp_inside by lia.
  unfold clamp. destruct (Z.ltb_spec hi 0); [lia |].
  rewrite Z.min_r by lia.
  replace (slen a + slen b - slen a) with (slen b) by lia.
  unfold slen. rewrite !Nat2Z.id. apply substring_app_r.
Qed.

Lemma make_noun_loop_past n nounst start :
  slen nounst <= start -> make_noun_loop n nounst start = [].
Proof.
  intros H. destruct n; [reflexivity |]. cbn [make_noun_loop].
  destruct (Z.ltb_spec start (slen nounst)); [lia | reflexivity].
Qed.

Lemma close_phrase_open rest :
  rest <> "" -> count_char " " rest = 0 -> count_char "_" rest = 0 ->
  close_phrase rest = rest +:+ " ".
Proof.
  induction rest as [| c rest IH]; [congruence |]. intros _.
  rewrite !count_char_cons.
  pose proof (count_char_nonneg " " rest).
  pose proof (count_char_nonneg "_" rest).
  intros Hsp Hun.
  assert (Hc : Ascii.eqb c " " || Ascii.eqb c "_" = false).
  { rewrite (Ascii.eqb_sym c " "), (Ascii.eqb_sym c "_").
    destruct (Ascii.eqb " " c); [lia |].
    destruct (Ascii.eqb "_" c); [lia | reflexivity]. }
  destruct rest as [| d rest].
  - cbn [close_phrase]. rewrite Hc. reflexivity.
  - change (close_phrase (String c (String d rest)))
      with (String c (close_phrase (String d rest))).
    rewrite IH; [reflexivity | discriminate | |];
      destruct (Ascii.eqb " " c), (Ascii.eqb "_" c); lia.
Qed.

Lemma close_phrase_sep sep rest' : forall w,
  sep = " "%char \/ sep = "_"%char ->
  close_phrase (w +:+ String sep rest') = w +:+ String sep (close_phrase rest').
Proof.
  intros w Hsep. induction w as [| e w IH].
  - change ("" +:+ String sep rest') with (String sep rest').
    destruct rest' as [| d rest']; [| reflexivity].
    cbn [close_phrase]. destruct Hsep as [-> | ->]; reflexivity.
  - replace (String e w +:+ String sep rest')
      with (String e (w +:+ String sep rest')) by reflexivity.
    destruct (w +:+ String sep rest') eqn:E.
    + destruct w; discriminate E.
    + change (close_phrase (String e (String a s)))
        with (String e (close_phrase (String a s))).
      rewrite IH. reflexivity.
Qed.

Lemma make_noun_loop_join n : forall done rest,
  (String.length rest <= n)%nat ->
  join_noun_list (make_noun_loop n (done +:+ rest) (slen done))
  = close_phrase rest.
Proof.
  induction n as [| n IH]; intros done rest Hlen.
  - destruct rest; [reflexivity | cbn [String.length] in Hlen; lia].
  - destruct rest as [| c0 rest0] eqn:Hrest.
    { rewrite make_noun_loop_past; [reflexivity |].
      rewrite append_empty_r. lia. }
    rewrite <- Hrest in *. assert (Hne : rest <> "") by (subst; discriminate).
    clear Hrest c0 rest0.
    cbn [make_noun_loop]. pose proof (slen_nonneg done) as Hd.
    assert (Hpos : 0 < slen rest)
      by (unfold slen; destruct rest; [congruence | cbn; lia]).
    rewrite slen_app.
    destruct (Z.ltb_spec (slen done) (slen done + slen rest)); [| lia].
    rewrite !find_from.
    destruct (sep_split rest)
      as [[Hsp Hun] | (w & sep & rest' & -> & Hsp & Hun & Hsep)].
    + rewrite !find_go_char_none by assumption.
      change (-1 =? -1) with true. cbv iota. rewrite Z.ltb_irrefl.
      unfold join_noun_list. cbn [foldr fst snd].
      rewrite slice_tail by lia.
      rewrite make_noun_loop_past by (rewrite slen_app; lia).
      cbn [foldr]. rewrite close_phrase_open by assumption. reflexivity.
    + pose proof (slen_nonneg w) as Hw.
      assert (Hnext : forall c : string,
        join_noun_list
          (make_noun_loop n (done +:+ w +:+ String sep rest')
             (slen done + slen w + 1)) = close_phrase rest').
      { intros _.
        replace (done +:+ w +:+ String sep rest')
          with ((done +:+ w +:+ String sep "") +:+ rest')
          by (rewrite !app_assoc_string; reflexivity).
        replace (slen done + slen w + 1)
          with (slen (done +:+ w +:+ String sep ""))
          by (rewrite !slen_app; change (slen (String sep "")) with 1; lia).
        apply IH. rewrite string_length_app in Hlen.
        cbn [String.length] in Hlen. lia. }
      assert (Hword : slice (done +:+ w +:+ String sep rest') (slen done)
                        (slen done + slen w) = w) by apply slice_middle.
      rewrite close_phrase_sep by exact Hsep.
      destruct Hsep as [-> | ->].
      * rewrite (find_go_char " " w rest' 0) by exact Hsp.
        pose proof (find_go_char_later "_" " " rest' w Hun ltac:(discriminate))
          as Hlater.
        cbn [Nat.add].
        replace (slen done + Z.of_nat (String.length w))
          with (slen done + slen w) by reflexivity.
        destruct (Z.eqb_spec (slen done + slen w) (-1)); [lia |].
        assert (Hnot : (match find_go "_" (w +:+ String " " rest') 0 with
                        | Some j => slen done + Z.of_nat j
                        | None => -1
                        end = -1 ->
                        False) \/
                       find_go "_" (w +:+ String " " rest') 0 = None).
        { destruct (find_go "_" (w +:+ String " " rest') 0);
            [left; lia | right; reflexivity]. }
        set (unfind :=
               if match find_go "_" (w +:+ String " " rest') 0 with
                  | Some j => slen done + Z.of_nat j
                  | None => -1
                  end =? -1
               then slen done + slen (w +:+ String " " rest') + 1
               else match find_go "_" (w +:+ String " " rest') 0 with
                    | Some j => slen done + Z.of_nat j
                    | None => -1
                    end).
        assert (Hun' : slen done + slen w < unfind).
        { subst unfind.
          destruct (find_go "_" (w +:+ String " " rest') 0) as [j |].
          - destruct (Z.eqb_spec (slen done + Z.of_nat j) (-1)); [lia |].
            unfold slen. lia.
          - change (-1 =? -1) with true. cbv iota. rewrite slen_app.
            pose proof (slen_nonneg (String " " rest')). lia. }
        destruct (Z.ltb_spec unfind (slen done + slen w)); [lia |].
        unfold join_noun_list. cbn [foldr fst snd].
        fold (join_noun_list
                (make_noun_loop n (done +:+ w +:+ String " " rest')
                   (slen done + slen w + 1))).
        rewrite Hword, (Hnext ""). reflexivity.
      * rewrite (find_go_char "_" w rest' 0) by exact Hun.
        pose proof (find_go_char_later " " "_" rest' w Hsp ltac:(discriminate))
          as Hlater.
        cbn [Nat.add].
        replace (slen done + Z.of_nat (String.length w))
          with (slen done + slen w) by reflexivity.
        destruct (Z.eqb_spec (slen done + slen w) (-1)); [lia |].
        set (spfind :=
               if match find_go " " (w +:+ String "_" rest') 0 with
                  | Some j => slen done + Z.of_nat j
                  | None => -1
                  end =? -1
               then slen done + slen (w +:+ String "_" rest') + 1
               else match find_go " " (w +:+ String "_" rest') 0 with
                    | Some j => slen done + Z.of_nat j
                    | None => -1
                    end).
        assert (Hsp' : slen done + slen w < spfind).
        { subst spfind.
          destruct (find_go " " (w +:+ String "_" rest') 0) as [j |].
          - destruct (Z.eqb_spec (slen done + Z.of_nat j) (-1)); [lia |].
            unfold slen. lia.
          - change (-1 =? -1) with true. cbv iota. rewrite slen_app.
            pose proof (slen_nonneg (String "_" rest')). lia. }
        destruct (Z.ltb_spec (slen done + slen w) spfind); [| lia].
        unfold join_noun_list. cbn [foldr fst snd].
        fold (join_noun_list
                (make_noun_loop n (done +:+ w +:+ String "_" rest')
                   (slen done + slen w + 1))).
        rewrite Hword, (Hnext ""). reflexivity.
Qed.

(** X20. [make_noun_list] loses nothing of a phrase: the words of the list,
    each followed by its connector, spell the phrase, with one blank added
    when the phrase does not end in a blank or an underscore; a phrase that
    ends in a blank is spelled as it is. *)
Theorem make_noun_list_round_trip (nounst : string) :
  join_noun_list (make_noun_list nounst) = close_phrase nounst /\
  join_noun_list (make_noun_list (nounst +:+ " ")) = nounst +:+ " ".
Proof.
  assert (H : forall s, join_noun_list (make_noun_list s) = close_phrase s).
  { intros s. unfold make_noun_list.
    apply (make_noun_loop_join (String.length s) "" s). lia. }
  split; [apply H |].
  rewrite H, close_phrase_sep by (left; reflexivity). reflexivity.
Qed.

(** ** Passive voice *)

Lemma index_go_first x l : forall i0 i,
  index_go x l i0 = Some i ->
  forall j, (j < i - i0)%nat -> l !! j <> Some x.
Proof.
  induction l as [| y l IH]; intros i0 i; [discriminate |].
  cbn [index_go]. destruct (String.eqb_spec x y) as [-> | Hne].
  - intros [= <-] j Hj. lia.
  - intros H [| j] Hj; cbn [lookup list_lookup].
    + intros [= ->]. contradiction.
    + pose proof (index_go_found _ _ _ _ H) as [Hle _].
      apply (IH _ _ H). lia.
Qed.

Lemma index_from_first l x start i :
  0 <= start -> index_from l x start = Ok i ->
  forall j, start <= j < i -> nth_py l j <> Ok x.
Proof.
  unfold index_from. intros Hstart.
  destruct (index_go x (drop _ l) _) as [k |] eqn:Hk; [| discriminate].
  intros [= <-] j Hj Hx.
  pose proof (index_go_found _ _ _ _ Hk) as [Hle _].
  apply nth_py_inv in Hx; [| lia].
  assert (Hc : clamp (llen l) start = start).
  { unfold clamp. destruct (Z.ltb_spec start 0); [lia |].
    apply lookup_lt_Some in Hx. unfold llen. lia. }
  rewrite Hc in Hk, Hle.
  apply (index_go_first _ _ _ _ Hk (Z.to_nat j - Z.to_nat start)%nat);
    [lia |].
  rewrite lookup_drop. rewrite <- Hx. f_equal. lia.
Qed.

Lemma passive_auxiliary_found n pl kitem ppvloc : forall ka pv,
  passive_auxiliary n pl kitem ka ppvloc = Ok pv ->
  pv = 0 \/
  (pv = ppvloc - 1 /\
   exists ka' tok aux,
     kitem < ka' <= ka /\ nth_py pl ka' = Ok tok /\
     contains tok "~VB" = true /\ nth_py pl (ka' - 1) = Ok aux /\
     (aux = "WAS" \/ aux = "IS" \/ aux = "BEEN")).
Proof.
  induction n as [| n IH]; intros ka pv; [intros [= <-]; left; reflexivity |].
  cbn [passive_auxiliary].
  destruct (Z.ltb_spec kitem ka) as [Hlt |]; [| intros [= <-]; left; reflexivity].
  assert (Hrec : passive_auxiliary n pl kitem (ka - 1) ppvloc = Ok pv ->
                 pv = 0 \/
                 (pv = ppvloc - 1 /\
                  exists ka' tok aux,
                    kitem < ka' <= ka /\ nth_py pl ka' = Ok tok /\
                    contains tok "~VB" = true /\
                    nth_py pl (ka' - 1) = Ok aux /\
                    (aux = "WAS" \/ aux = "IS" \/ aux = "BEEN"))).
  { intros H. apply IH in H as [-> | (-> & ka' & tok & aux & Hka & H)];
      [left; reflexivity | right].
    split; [reflexivity |]. exists ka', tok, aux. split; [lia | exact H]. }
  destruct (nth_py pl ka) as [tok |] eqn:Htok; [| discriminate].
  cbn [mbind result_bind].
  destruct (contains tok "~VB") eqn:Hvb; [| exact Hrec].
  destruct (nth_py pl (ka - 1)) as [aux |] eqn:Haux; [| discriminate].
  cbn [mbind result_bind].
  destruct (mem aux ["WAS"; "IS"; "BEEN"; "WAS"]) eqn:Hmem; [| exact Hrec].
  intros [= <-]. right. split; [reflexivity |].
  exists ka, tok, aux. split; [lia |]. repeat (split; [assumption |]).
  unfold mem in Hmem. cbn [existsb] in Hmem.
  repeat (apply orb_prop in Hmem as [Hmem | Hmem]);
    try (apply String.eqb_eq in Hmem; auto); discriminate.
Qed.

(** X21. When [check_passive] returns a location [pv > 0], the token at
    [pv + 1] closes a past participle (it is [~VBN]); the verb phrase that
    starts at [kitem] with the marker [tag] ends at [cpendtag], the first
    position of the list that holds the close marker of [tag]; a [(VBN]
    stands between [kitem + 3] and that end, and the word [BY] stands
    between the participle and that end, so inside the verb phrase; and
    between the start of the phrase and the participle a verb ends right
    after one of [WAS], [IS], [BEEN]. *)
Theorem check_passive_sound (pl : list string) (kitem pv : Z) :
  check_passive pl kitem = Ok (Some pv) -> 0 < pv ->
  nth_py pl (pv + 1) = Ok "~VBN" /\
  (exists tag cpendtag,
     nth_py pl kitem = Ok tag /\
     0 <= cpendtag /\ nth_py pl cpendtag = Ok ("~" +:+ slice_from tag 1) /\
     (forall j, 0 <= j < cpendtag ->
                nth_py pl j <> Ok ("~" +:+ slice_from tag 1)) /\
     mem "(VBN" (lslice pl (kitem + 3) cpendtag) = true /\
     mem "BY" (lslice pl (pv + 4) cpendtag) = true) /\
  exists ka tok aux,
    kitem < ka <= pv - 2 /\ nth_py pl ka = Ok tok /\
    contains tok "~VB" = true /\ nth_py pl (ka - 1) = Ok aux /\
    (aux = "WAS" \/ aux = "IS" \/ aux = "BEEN").
Proof.
  unfold check_passive.
  destruct (nth_py pl kitem) as [tok |] eqn:Htag; [| discriminate].
  cbn [mbind result_bind].
  destruct (index_from pl _ 0) as [cpendtag |] eqn:Hend; [| discriminate].
  destruct (mem "(VBN" _) eqn:Hvp; [| intros [= <-]; lia].
  destruct (index_from pl "~VBN" (kitem + 3)) as [ppvloc |] eqn:Hppv;
    [| discriminate].
  cbn [mbind result_bind].
  destruct (mem "BY" (lslice pl (ppvloc + 3) cpendtag)) eqn:Hby;
    cbn [negb]; [| intros [= <-]; lia].
  destruct (passive_auxiliary _ pl kitem (ppvloc - 3) ppvloc) as [r |] eqn:Haux;
    [| discriminate].
  cbn [mbind result_bind]. intros [= <-] Hpos.
  apply passive_auxiliary_found in Haux
    as [-> | (-> & ka & t & aux & Hka & H)]; [lia |].
  apply index_from_found in Hppv as [_ Hvbn].
  replace (ppvloc - 1 + 1) with ppvloc by lia.
  replace (ppvloc - 1 + 4) with (ppvloc + 3) by lia.
  split; [exact Hvbn |]. split.
  - exists tok, cpendtag. split; [reflexivity |].
    pose proof (index_from_first _ _ 0 _ ltac:(lia) Hend) as Hfirst.
    apply index_from_found in Hend as [Hge Hclose].
    split; [exact Hge |]. split; [exact Hclose |].
    split; [exact Hfirst |]. split; [exact Hvp | exact Hby].
  - exists ka, t, aux. split; [lia | exact H].
Qed.

Lemma check_passive_sound_witness :
  nth_py passive_parse (12 + 1) = Ok "~VBN" /\
  (exists tag cpendtag,
     nth_py passive_parse 6 = Ok tag /\
     0 <= cpendtag /\
     nth_py passive_parse cpendtag = Ok ("~" +:+ slice_from tag 1) /\
     (forall j, 0 <= j < cpendtag ->
                nth_py passive_parse j <> Ok ("~" +:+ slice_from tag 1)) /\
     mem "(VBN" (lslice passive_parse (6 + 3) cpendtag) = true /\
     mem "BY" (lslice passive_parse (12 + 4) cpendtag) = true) /\
  exists ka tok aux,
    6 < ka <= 12 - 2 /\ nth_py passive_parse ka = Ok tok /\
    contains tok "~VB" = true /\ nth_py passive_parse (ka - 1) = Ok aux /\
    (aux = "WAS" \/ aux = "IS" \/ aux = "BEEN").
Proof.
  apply (check_passive_sound passive_parse 6 12); [reflexivity | lia].
Defined.

(** ** Lines of an input file *)

(** The stream [f'] is what is left of [f] after some lines were read. *)
Lemma readline_advances f :
  FIN (readline f).2 `suffix_of` FIN f /\
  FINnline (readline f).2 = FINnline f + 1 /\
  (length (FIN (readline f).2) <= length (FIN f))%nat /\
  ((readline f).1 = "" \/
   (length (FIN (readline f).2) < length (FIN f))%nat) /\
  ((readline f).1 = "" \/ (readline f).1 ∈ FIN f).
Proof.
  unfold readline. destruct (FIN f) as [| line rest]; cbn.
  - repeat split; auto.
  - repeat split; [apply suffix_cons_r; reflexivity | lia | right; lia |].
    right. left.
Qed.

Lemma skip_comment_advances n : forall line f f',
  skip_comment n line f = Some f' ->
  FIN f' `suffix_of` FIN f /\ FINnline f <= FINnline f'.
Proof.
  induction n as [| n IH]; intros line f f'; cbn [skip_comment];
    destruct (contains line "-->");
    try (intros [= <-]; split; [reflexivity | lia]); [discriminate |].
  pose proof (readline_advances f) as (Hsuf & Hn & _).
  destruct (readline f) as [l f1]. cbn [fst snd] in *.
  intros H. apply IH in H as [H1 H2].
  split; [etransitivity; eassumption | lia].
Qed.

Lemma read_FIN_loop_content n : forall line f line' f',
  read_FIN_loop n line f = Some (line', f') ->
  (line' = "" \/ strip line' <> "") /\
  FIN f' `suffix_of` FIN f /\ FINnline f <= FINnline f'.
Proof.
  induction n as [| n IH]; intros line f line' f'; cbn [read_FIN_loop].
  - destruct (Z.eqb_spec (slen line) 0) as [Hz |]; [| discriminate].
    intros [= <- <-]. split; [| split; [reflexivity | lia]].
    left. unfold slen in Hz. destruct line; [reflexivity | cbn in Hz; lia].
  - destruct (Z.eqb_spec (slen line) 0) as [Hz |].
    { intros [= <- <-]. split; [| split; [reflexivity | lia]].
      left. unfold slen in Hz. destruct line; [reflexivity | cbn in Hz; lia]. }
    assert (Hnext : forall f1,
      FIN f1 `suffix_of` FIN f -> FINnline f <= FINnline f1 ->
      (let (l, f2) := readline f1 in read_FIN_loop n l f2) = Some (line', f') ->
      (line' = "" \/ strip line' <> "") /\
      FIN f' `suffix_of` FIN f /\ FINnline f <= FINnline f').
    { intros f1 Hsuf Hle.
      pose proof (readline_advances f1) as (Hsuf1 & Hn1 & _).
      destruct (readline f1) as [l f2]. cbn [fst snd] in *.
      intros H. apply IH in H as (H1 & H2 & H3).
      split; [exact H1 |].
      split; [| lia].
      transitivity (FIN f2); [exact H2 |].
      transitivity (FIN f1); assumption. }
    destruct (skipped_line line); [apply Hnext; [reflexivity | lia] |].
    cbv zeta.
    match goal with
    | |- match ?body with _ => _ end = _ -> _ =>
        assert (Hbody : forall l1 f1, body = Some (l1, f1) ->
                  FIN f1 `suffix_of` FIN f /\ FINnline f <= FINnline f1);
        [| destruct body as [[l1 f1] |]; [| discriminate];
           destruct (Hbody l1 f1 eq_refl) as [Hsuf Hle]]
    end.
    { intros l1 f1.
      destruct (contains _ "<!--"); [| intros [= _ <-]; split; [reflexivity | lia]].
      destruct (contains _ "-->"); [intros [= _ <-]; split; [reflexivity | lia] |].
      destruct (skip_comment _ _ f) as [f2 |] eqn:Hskip; [| discriminate].
      cbn [mbind option_bind]. apply skip_comment_advances in Hskip as [H1 H2].
      pose proof (readline_advances f2) as (Hsuf2 & Hn2 & _).
      intros [= Hr]. rewrite Hr in Hsuf2, Hn2. cbn [fst snd] in *.
      split; [etransitivity; eassumption | lia]. }
    destruct (Z.ltb_spec 0 (slen (strip l1))) as [Hpos |].
    + intros [= <- <-]. split; [| auto].
      right. intros Hs. rewrite Hs in Hpos. change (slen "") with 0 in Hpos.
      lia.
    + apply Hnext; assumption.
Qed.

(** X22. A line that [read_FIN_line] returns is empty, which is the end of
    the file, or holds a character that is not white space; the lines left
    in the stream are a final part of the lines before the call, and the
    line counter has grown. *)
Theorem read_FIN_line_content (f f' : fin) (line : string) :
  read_FIN_line f = Some (line, f') ->
  (line = "" \/ strip line <> "") /\
  FIN f' `suffix_of` FIN f /\ FINnline f < FINnline f'.
Proof.
  unfold read_FIN_line.
  pose proof (readline_advances f) as (Hsuf & Hn & _).
  destruct (readline f) as [l f1]. cbn [fst snd] in *.
  intros H. apply read_FIN_loop_content in H as (H1 & H2 & H3).
  split; [exact H1 |]. split; [etransitivity; eassumption | lia].
Qed.

Lemma read_FIN_line_content_witness :
  ("ACCUSE [110]" = "" \/ strip "ACCUSE [110]" <> "") /\
  [] `suffix_of` ["# actors" +:+ newline; newline;
                  "ACCUSE [110] # note" +:+ newline] /\
  0 < 3.
Proof.
  apply (read_FIN_line_content
           {| FIN := ["# actors" +:+ newline; newline;
                      "ACCUSE [110] # note" +:+ newline];
              FINnline := 0 |}
           {| FIN := []; FINnline := 3 |} "ACCUSE [110]").
  vm_compute. reflexivity.
Defined.

Lemma substring_split s : forall m,
  s = substring 0 m s +:+ substring m (String.length s - m) s.
Proof.
  induction s as [| c s IH]; intros m.
  - destruct m; reflexivity.
  - destruct m as [| m].
    + cbn [substring String.length Nat.sub].
      change ("" +:+ String c (substring 0 (String.length s) s))
        with (String c (substring 0 (String.length s) s)).
      now rewrite substring_all.
    + cbn [substring String.length Nat.sub].
      change (String c (substring 0 m s) +:+
              substring m (String.length s - m) s)
        with (String c (substring 0 m s +:+
                        substring m (String.length s - m) s)).
      now rewrite <- IH.
Qed.

Lemma contains_slice_to s sub k :
  contains s sub = false -> contains (slice_to s k) sub = false.
Proof.
  intros Hs. destruct (contains (slice_to s k) sub) eqn:Hk; [| reflexivity].
  apply contains_found in Hk as (pre & post & Heq & _).
  unfold slice_to, slice in Heq.
  assert (Hzero : clamp (slen s) 0 = 0)
    by (apply clamp_inside; pose proof (slen_nonneg s); lia).
  rewrite Hzero in Heq. change (Z.to_nat 0) with 0%nat in Heq.
  rewrite (substring_split s (Z.to_nat (clamp (slen s) k - 0))), Heq in Hs.
  rewrite !app_assoc_string in Hs.
  rewrite contains_app in Hs. discriminate.
Qed.

Lemma read_FIN_loop_returns n : forall line f,
  line = "" \/ (length (FIN f) < n)%nat ->
  contains line "<!--" = false ->
  Forall (fun l => contains l "<!--" = false) (FIN f) ->
  is_Some (read_FIN_loop n line f).
Proof.
  induction n as [| n IH]; intros line f Hfuel Hline Hall; cbn [read_FIN_loop].
  - destruct Hfuel as [-> | Hlt]; [eexists; reflexivity | lia].
  - destruct (slen line =? 0) eqn:Hz; [eexists; reflexivity |].
    assert (Hlt : (length (FIN f) < S n)%nat).
    { destruct Hfuel as [-> | Hlt]; [discriminate Hz | exact Hlt]. }
    assert (Hnext : is_Some (let (l, f2) := readline f in
                             read_FIN_loop n l f2)).
    { pose proof (readline_advances f) as (Hsuf & _ & _ & Hless & Hin).
      destruct (readline f) as [l f2]. cbn [fst snd] in *.
      apply IH.
      - destruct Hless as [-> | Hless]; [left; reflexivity | right; lia].
      - destruct Hin as [-> | Hin]; [reflexivity |].
        rewrite Forall_forall in Hall. apply Hall, Hin.
      - destruct Hsuf as [skipped Hsuf]. rewrite Hsuf in Hall.
        apply Forall_app in Hall as [_ Hall]. exact Hall. }
    destruct (skipped_line line); [exact Hnext |].
    cbv zeta.
    replace (contains (if contains line " #"
                       then slice_to line (rfind line " #") else line) "<!--")
      with false
      by (destruct (contains line " #");
          [symmetry; apply contains_slice_to |]; congruence).
    destruct (0 <? slen (strip _)); [eexists; reflexivity | exact Hnext].
Qed.

(** X23. On a file in which no line holds [<!--], [read_FIN_line] returns. *)
Theorem read_FIN_line_returns (f : fin) :
  Forall (fun l => contains l "<!--" = false) (FIN f) ->
  exists line f', read_FIN_line f = Some (line, f') /\
                  (line = "" \/ strip line <> "").
Proof.
  intros Hall. unfold read_FIN_line.
  pose proof (readline_advances f) as (Hsuf & _ & Hle & _ & Hin).
  destruct (readline f) as [l f1] eqn:Hread. cbn [fst snd] in *.
  destruct (read_FIN_loop_returns (S (length (FIN f))) l f1) as [[line f'] Hr].
  - right. lia.
  - destruct Hin as [-> | Hin]; [reflexivity |].
    rewrite Forall_forall in Hall. apply Hall, Hin.
  - destruct Hsuf as [skipped Hsuf]. rewrite Hsuf in Hall.
    apply Forall_app in Hall as [_ Hall]. exact Hall.
  - exists line, f'. split; [exact Hr |].
    apply read_FIN_loop_content in Hr as [Hr _]. exact Hr.
Qed.

Lemma read_FIN_line_returns_witness :
  exists line f',
    read_FIN_line
      {| FIN := ["# actors" +:+ newline; newline;
                 "ACCUSE [110] # note" +:+ newline];
         FINnline := 0 |} = Some (line, f') /\
    (line = "" \/ strip line <> "").
Proof.
  apply (read_FIN_line_returns
           {| FIN := ["# actors" +:+ newline; newline;
                      "ACCUSE [110] # note" +:+ newline];
              FINnline := 0 |}).
  repeat constructor.
Defined.

Lemma skip_comment_open n : forall line f,
  contains line "-->" = false ->
  Forall (fun l => contains l "-->" = false) (FIN f) ->
  skip_comment n line f = None.
Proof.
  induction n as [| n IH]; intros line f Hline Hall; cbn [skip_comment];
    rewrite Hline; [reflexivity |].
  pose proof (readline_advances f) as (Hsuf & _ & _ & _ & Hin).
  destruct (readline f) as [l f2]. cbn [fst snd] in *.
  apply IH.
  - destruct Hin as [-> | Hin]; [reflexivity |].
    rewrite Forall_forall in Hall. apply Hall, Hin.
  - destruct Hsuf as [skipped Hsuf]. rewrite Hsuf in Hall.
    apply Forall_app in Hall as [_ Hall]. exact Hall.
Qed.

(** X24. [read_FIN_line] does not return when a line that is not skipped
    opens a comment with [<!--] and neither that line nor a later one holds
    [-->]: the loop that looks for the end of the comment reads empty lines
    at the end of the file for ever. *)
Theorem read_FIN_line_open_comment (f : fin) (line : string)
  (rest : list string) :
  FIN f = line :: rest ->
  skipped_line line = false -> contains line " #" = false ->
  contains line "<!--" = true ->
  Forall (fun l => contains l "-->" = false) (line :: rest) ->
  read_FIN_line f = None /\
  forall n, skip_comment n line
              {| FIN := rest; FINnline := FINnline f + 1 |} = None.
Proof.
  intros Hf Hskip Hhash Hopen Hall.
  apply Forall_cons in Hall as [Hline Hrest].
  split; [| intros n; apply skip_comment_open; assumption].
  unfold read_FIN_line, readline. rewrite Hf. cbn [read_FIN_loop].
  assert (Hlen : (slen line =? 0) = false).
  { destruct line; [discriminate Hopen | reflexivity]. }
  rewrite Hlen, Hskip, Hhash. cbv zeta. rewrite Hopen, Hline.
  rewrite skip_comment_open by assumption. reflexivity.
Qed.

Lemma read_FIN_line_open_comment_witness :
  read_FIN_line
    {| FIN := ["ACCUSE <!-- old entry" +:+ newline; "BLAME" +:+ newline];
       FINnline := 0 |} = None.
Proof.
  refine (proj1 (read_FIN_line_open_comment
                   {| FIN := ["ACCUSE <!-- old entry" +:+ newline;
                              "BLAME" +:+ newline];
                      FINnline := 0 |}
                   ("ACCUSE <!-- old entry" +:+ newline)
                   ["BLAME" +:+ newline] _ _ _ _ _));
    try reflexivity.
  repeat constructor.
Defined.

(** ** The agent dictionary *)

Lemma dict_included_refl {C : Type} (dict : gmap string (list (pattern C))) :
  dict_included dict dict.
Proof. intros key l p Hl Hp. eauto. Qed.

Lemma dict_included_trans {C : Type}
  (d1 d2 d3 : gmap string (list (pattern C))) :
  dict_included d1 d2 -> dict_included d2 d3 -> dict_included d1 d3.
Proof.
  intros H12 H23 key l p Hl Hp.
  destruct (H12 key l p Hl Hp) as (l2 & Hl2 & Hp2). eauto.
Qed.

Lemma store_phrase_included {C : Type} (code : C) nounst
  (dict dict' : gmap string (list (pattern C))) :
  store_phrase code nounst dict = Ok dict' -> dict_included dict dict'.
Proof.
  unfold store_phrase.
  destruct (make_noun_list nounst) as [| [keyword conn] words]; [discriminate |].
  intros [= <-] key l p Hl Hp.
  destruct (decide (key = keyword)) as [-> | Hne].
  - rewrite lookup_insert_eq, Hl. eexists. split; [reflexivity |].
    apply elem_of_app. left. exact Hp.
  - rewrite lookup_insert_ne by congruence. eauto.
Qed.

Lemma store_substitutes_included before after code substs :
  forall dict dict',
    store_substitutes before after code substs dict = Ok dict' ->
    dict_included dict dict'.
Proof.
  induction substs as [| subst rest IH]; intros dict dict'.
  - intros [= <-]. apply dict_included_refl.
  - cbn [store_substitutes].
    destruct (store_phrase _ _ dict) as [d1 |] eqn:H1; [| discriminate].
    cbn [mbind result_bind]. intros H.
    eapply dict_included_trans;
      [eapply store_phrase_included, H1 | eapply IH, H].
Qed.

Lemma read_agent_line_included line rd rd' :
  read_agent_line line rd = Ok rd' ->
  dict_included (ag_AgentDict rd) (ag_AgentDict rd').
Proof.
  unfold read_agent_line.
  destruct (_ && _); [intros [= <-]; apply dict_included_refl |].
  destruct (negb _); [intros [= <-]; apply dict_included_refl |].
  cbv zeta.
  destruct (_ && _); [intros [= <-]; apply dict_included_refl |].
  match goal with
  | |- (?step ≫= _) = _ -> _ =>
      assert (Hstep : forall d a p, step = Ok (d, a, p) ->
                                    dict_included (ag_AgentDict rd) d);
      [| destruct step as [[[d a] p] |]; [| discriminate];
         specialize (Hstep d a p eq_refl)]
  end.
  { intros d a p. destruct (contains _ "!").
    - unfold store_marker.
      destruct (_ <? 0); [intros [= <- _ _]; apply dict_included_refl |].
      cbv zeta. destruct (ag_subdict rd !! _) as [substs |];
        [| intros [= <- _ _]; apply dict_included_refl].
      destruct (store_substitutes _ _ _ _ _) as [d1 |] eqn:H1; [| discriminate].
      cbn [mbind result_bind]. intros [= <- _ _].
      eapply store_substitutes_included, H1.
    - destruct (contains _ "{"); [intros [= <- _ _]; apply dict_included_refl |].
      destruct (char_at _ _); [| discriminate].
      cbn [mbind result_bind]. intros [= <- _ _]. apply dict_included_refl. }
  cbn [mbind result_bind].
  destruct (store_phrase _ _ d) as [d1 |] eqn:H1; [| discriminate].
  cbn [mbind result_bind].
  destruct p as [plur |]; [| discriminate].
  apply store_phrase_included in H1.
  destruct (0 <? slen plur).
  - destruct (store_phrase _ _ d1) as [d2 |] eqn:H2; [| discriminate].
    cbn [mbind result_bind]. intros [= <-]. cbn [ag_AgentDict].
    apply store_phrase_included in H2.
    eauto using dict_included_trans.
  - cbn [mbind result_bind]. intros [= <-]. cbn [ag_AgentDict].
    eauto using dict_included_trans.
Qed.

Lemma read_agent_lines_included lines : forall rd rd',
  read_agent_lines lines rd = Ok rd' ->
  dict_included (ag_AgentDict rd) (ag_AgentDict rd').
Proof.
  induction lines as [| line rest IH]; intros rd rd'.
  - intros [= <-]. apply dict_included_refl.
  - cbn [read_agent_lines].
    destruct (slen line =? 0); [intros [= <-]; apply dict_included_refl |].
    destruct (read_agent_line line rd) as [rd1 |] eqn:H1; [| discriminate].
    cbn [mbind result_bind]. intros H.
    eapply dict_included_trans;
      [eapply read_agent_line_included, H1 | eapply IH, H].
Qed.

(** X25. [read_agent_dictionary] only adds: every phrase that was in
    [AgentDict] is in it afterwards under the same key, and every list of
    the loaded dictionary is ordered by length, longest first. *)
Theorem read_agent_dictionary_grows (lines : list string)
  (AgentDict dict : gmap string (list (pattern string))) :
  read_agent_dictionary lines AgentDict = Ok dict ->
  dict_included AgentDict dict /\
  forall key l, dict !! key = Some l -> by_len_desc l.
Proof.
  unfold read_agent_dictionary.
  destruct (read_agent_lines lines _) as [rd |] eqn:Hrd; [| discriminate].
  cbn [mbind result_bind]. intros [= <-].
  apply read_agent_lines_included in Hrd. cbn [ag_AgentDict] in Hrd.
  split.
  - intros key l p Hl Hp. destruct (Hrd key l p Hl Hp) as (l' & Hl' & Hp').
    exists (sort_by_len l'). rewrite lookup_fmap, Hl'.
    split; [reflexivity |]. rewrite sort_by_len_perm. exact Hp'.
  - intros key l. rewrite lookup_fmap.
    destruct (ag_AgentDict rd !! key) as [l0 |]; [| discriminate].
    intros [= <-]. apply sort_by_len_desc.
Qed.

Lemma read_agent_dictionary_grows_witness :
  exists dict,
    read_agent_dictionary agent_lines sample_AgentDict = Ok dict /\
    dict_included sample_AgentDict dict /\
    forall key l, dict !! key = Some l -> by_len_desc l.
Proof.
  destruct (read_agent_dictionary agent_lines sample_AgentDict)
    as [dict |] eqn:Hread; [| vm_compute in Hread; discriminate Hread].
  exists dict. split; [reflexivity |].
  apply (read_agent_dictionary_grows agent_lines sample_AgentDict dict).
  exact Hread.
Defined.

(** ** Compound codes *)

Lemma contains_char_count c s :
  contains s (String c "") = (0 <? count_char c s).
Proof.
  unfold contains. rewrite find_from_start.
  pose proof (count_char_nonneg c s) as Hnn.
  destruct (Z.ltb_spec 0 (count_char c s)) as [Hpos | Hzero].
  - destruct (find_go (String c "") s 0) as [j |] eqn:Hj;
      [apply Z.leb_le; lia |].
    exfalso. clear Hnn. revert Hj. generalize 0%nat.
    induction s as [| d s IH]; intros i; [cbn in Hpos; lia |].
    rewrite count_char_cons in Hpos.
    cbn [find_go String.prefix]. destruct (ascii_dec c d) as [-> | Hne].
    + rewrite prefix_empty. discriminate.
    + destruct (Ascii.eqb_spec c d); [contradiction |]. apply IH. lia.
  - rewrite find_go_char_none by lia. reflexivity.
Qed.

Lemma split_char_parts c s :
  Forall (fun p => count_char c p = 0) (split_char c s) /\
  llen (split_char c s) = count_char c s + 1.
Proof.
  induction s as [| d s [IH1 IH2]]; [split; [repeat constructor | reflexivity] |].
  cbn [split_char]. rewrite count_char_cons.
  destruct (Ascii.eqb c d) eqn:Hcd.
  - split; [constructor; [reflexivity | exact IH1] |].
    unfold llen in *. cbn [length]. lia.
  - destruct (split_char c s) as [| w ws]; [unfold llen in IH2; cbn in IH2;
      pose proof (count_char_nonneg c s); lia |].
    apply Forall_cons in IH1 as [Hw Hws].
    split; [| unfold llen in *; cbn [length] in *; lia].
    constructor; [| exact Hws]. rewrite count_char_cons, Hcd, Hw. reflexivity.
Qed.

Lemma expand_compound_loop_step n ka codes :
  expand_compound_loop (S n) ka codes =
  expand_compound_loop n (S ka)
    match codes !! ka with
    | Some c =>
        if contains c "/" then
          take ka codes ++ split_char "/" c ++ drop (S ka) codes
        else codes
    | None => codes
    end.
Proof. reflexivity. Qed.

(** X26. [expand_compound_codes] visits as many positions as the list had
    on entry: in a list of two codes whose first is a compound [A/B...],
    the first is replaced by its parts and the second code is left as it
    is, compound or not. *)
Theorem expand_compound_codes_second_code (first second : string) :
  contains first "/" = true ->
  expand_compound_codes [first; second] = split_char "/" first ++ [second].
Proof.
  intros Hfirst. pose proof Hfirst as Hcount.
  rewrite contains_char_count in Hcount. apply Z.ltb_lt in Hcount.
  destruct (split_char_parts "/" first) as [Hparts Hlen].
  unfold expand_compound_codes. cbn [length].
  rewrite expand_compound_loop_step.
  change ([first; second] !! 0%nat) with (Some first). cbv iota beta.
  rewrite Hfirst. cbn [take drop app].
  destruct (split_char "/" first) as [| a [| b parts]];
    try (unfold llen in Hlen; cbn [length] in Hlen; lia).
  rewrite expand_compound_loop_step.
  change (((a :: b :: parts) ++ [second]) !! 1%nat) with (Some b).
  cbv iota beta.
  apply Forall_cons in Hparts as [_ Hparts].
  apply Forall_cons in Hparts as [Hb _].
  rewrite contains_char_count, Hb. reflexivity.
Qed.

Lemma expand_compound_codes_second_code_witness :
  expand_compound_codes ["USA/GBR"; "FRA/DEU"] = ["USA"; "GBR"; "FRA/DEU"].
Proof.
  apply (expand_compound_codes_second_code "USA/GBR" "FRA/DEU").
  reflexivity.
Defined.

(** ** The actor dictionary grows *)

Section ActorGrowth.

Variable G : PETRglobals.

Lemma read_actor_line_grows line rd rd' :
  read_actor_line G line rd = Ok rd' ->
  dict_included (rd_ActorDict rd) (rd_ActorDict rd') /\
  rd_ActorCodes rd `prefix_of` rd_ActorCodes rd'.
Proof.
  unfold read_actor_line.
  destruct (String.prefix tab line).
  { destruct (read_date_restriction line); intros [= <-];
      (split; [apply dict_included_refl | reflexivity]). }
  destruct (String.prefix "+" line).
  { destruct (store_phrase _ _ _) as [d |] eqn:Hd; [| discriminate].
    cbn [mbind result_bind]. intros [= <-].
    split; [eapply store_phrase_included, Hd | reflexivity]. }
  match goal with
  | |- (?stored ≫= _) = _ -> _ =>
      assert (Hst : forall codes i cur, stored = Ok (codes, i, cur) ->
                                        rd_ActorCodes rd `prefix_of` codes);
      [| destruct stored as [[[codes i] cur] |]; [| discriminate];
         specialize (Hst codes i cur eq_refl)]
  end.
  { intros codes i cur. destruct (0 <? llen (rd_curlist rd)).
    - destruct (if WriteActorRoot G then _ else _); [| discriminate].
      cbn [mbind result_bind]. intros [= <- _ _].
      apply prefix_app_r. reflexivity.
    - intros [= <- _ _]. reflexivity. }
  cbn [mbind result_bind].
  destruct (store_phrase _ _ _) as [d |] eqn:Hd; [| discriminate].
  cbn [mbind result_bind]. intros [= <-].
  split; [eapply store_phrase_included, Hd | exact Hst].
Qed.

Lemma read_actor_lines_grows lines : forall rd rd',
  read_actor_lines G lines rd = Ok rd' ->
  dict_included (rd_ActorDict rd) (rd_ActorDict rd') /\
  rd_ActorCodes rd `prefix_of` rd_ActorCodes rd'.
Proof.
  induction lines as [| line rest IH]; intros rd rd'.
  - intros [= <-]. split; [apply dict_included_refl | reflexivity].
  - cbn [read_actor_lines].
    destruct (slen line =? 0);
      [intros [= <-]; split; [apply dict_included_refl | reflexivity] |].
    destruct (contains line "---STOP---");
      [intros [= <-]; split; [apply dict_included_refl | reflexivity] |].
    destruct (read_actor_line G line rd) as [rd1 |] eqn:H1; [| discriminate].
    cbn [mbind result_bind]. intros H.
    apply read_actor_line_grows in H1 as [H1a H1b].
    apply IH in H as [Ha Hb].
    split; [eapply dict_included_trans; eassumption |].
    etransitivity; eassumption.
Qed.

(** X27. [read_actor_dictionary] only adds: every phrase that was in
    [ActorDict] is in it afterwards under the same key, [ActorCodes] is
    extended at its end, so the indices stored before stay valid, and
    every list of the loaded dictionary is ordered by length, longest
    first. *)
Theorem read_actor_dictionary_grows (lines : list string)
  (ActorDict dict : gmap string (list (pattern Z)))
  (ActorCodes codes : list (list code_item)) :
  read_actor_dictionary G lines ActorDict ActorCodes = Ok (dict, codes) ->
  dict_included ActorDict dict /\ ActorCodes `prefix_of` codes /\
  forall key l, dict !! key = Some l -> by_len_desc l.
Proof.
  unfold read_actor_dictionary.
  destruct (read_actor_lines G lines _) as [rd |] eqn:Hrd; [| discriminate].
  cbn [mbind result_bind]. intros [= <- <-].
  apply read_actor_lines_grows in Hrd as [Hdict Hcodes].
  cbn [rd_ActorDict rd_ActorCodes] in *.
  split; [| split; [exact Hcodes |]].
  - intros key l p Hl Hp. destruct (Hdict key l p Hl Hp) as (l' & Hl' & Hp').
    exists (sort_by_len l'). rewrite lookup_fmap, Hl'.
    split; [reflexivity |]. rewrite sort_by_len_perm. exact Hp'.
  - intros key l. rewrite lookup_fmap.
    destruct (rd_ActorDict rd !! key) as [l0 |]; [| discriminate].
    intros [= <-]. apply sort_by_len_desc.
Qed.

End ActorGrowth.

Lemma read_actor_dictionary_grows_witness :
  dict_included ∅ balkan_dict /\ [] `prefix_of` balkan_codes /\
  forall key l, balkan_dict !! key = Some l -> by_len_desc l.
Proof.
  apply (read_actor_dictionary_grows plain_options balkan_lines ∅ balkan_dict
           [] balkan_codes).
  vm_compute. reflexivity.
Defined.
